(** * kotoba-js: the dictionary importer and the tag merger

    A shallow embedding of [importSource] and [dictionaryInfo]
    (src/import.ts), of [mergeTags] and of the statistics of [importDir]
    (the batch driver next to it), with the properties of the written
    specification that concern them and further properties of the code.

    - Part I   JavaScript values, strings and objects as the code uses them
    - Part II  [importSource]: index check, bank classification, row decoding
    - Part III [mergeTags]: the shared tag namespace
    - Part IV  the reports: [dictionaryInfo] and the statistics of [importDir]
    - Part V   the vocabulary of the properties
    - Part VI  the properties of the written specification
    - Part VII further properties of the code *)

From Stdlib Require Import ZArith String Ascii List Lia.
From stdpp Require Import base option list strings pretty gmap sorting.

Open Scope string_scope.
Open Scope Z_scope.

(* ================================================================= *)
(** * Part I: values, strings, objects *)

(** What [JSON.parse] can produce, plus [undefined] (a missing column, a
    missing property).  Of the numbers only the integers are values here,
    [VNum n] for the Number that is [n]: the numbers the code inspects
    ([format], a bank index, [order], [score]) are meant to be integers,
    and fractions, [NaN] and the infinities are left out.  A string is
    kept as the bytes of its UTF-8 form, so that a string with a surrogate
    on its own is no value either. *)
#[warnings="-register-all"]
Inductive value : Type :=
| VUndefined
| VNull
| VBool (b : bool)
| VNum (n : Z)
| VStr (s : string)
| VArr (elems : list value)
| VObj (props : list (string * value)).

(** What a [throw] carries: an [Error] built by the code with its message,
    a [TypeError] raised by the engine, or whatever the archive source or
    [JSON.parse] rejected with. *)
Inductive exn : Type :=
| Error (message : string)
| TypeError
| Thrown (reason : string).

Inductive result (A : Type) : Type :=
| Ok (a : A)
| Throw (e : exn).
Arguments Ok {A} a.
Arguments Throw {A} e.

Definition rbind {A B} (m : result A) (k : A -> result B) : result B :=
  match m with
  | Ok a => k a
  | Throw e => Throw e
  end.

Declare Scope result_scope.
Delimit Scope result_scope with result.
Notation "'let*' x ':=' m 'in' k" := (rbind m (fun x => k))
  (at level 10, x pattern, m at level 100, k at level 200) : result_scope.
Open Scope result_scope.

(** [for (const x of xs) { acc = f(acc, x) }] where the body may throw. *)
Fixpoint rfold {A B} (f : B -> A -> result B) (xs : list A) (acc : B) : result B :=
  match xs with
  | [] => Ok acc
  | x :: xs' => let* acc' := f acc x in rfold f xs' acc'
  end.

(** [xs.map(f)] where [f] may throw. *)
Fixpoint rmap {A B} (f : A -> result B) (xs : list A) : result (list B) :=
  match xs with
  | [] => Ok []
  | x :: xs' => let* y := f x in let* ys := rmap f xs' in Ok (y :: ys)
  end.

(** [!!v] *)
Definition truthy (v : value) : bool :=
  match v with
  | VUndefined | VNull => false
  | VBool b => b
  | VNum n => negb (n =? 0)
  | VStr s => negb (String.eqb s "")
  | VArr _ | VObj _ => true
  end.

(** [Array.prototype.join] on strings. *)
Fixpoint join (sep : string) (xs : list string) : string :=
  match xs with
  | [] => ""
  | [x] => x
  | x :: xs' => x +:+ sep +:+ join sep xs'
  end.

(** ** Numbers *)

(** The Number for an integer: the integer itself up to 2^53 either way,
    and past that the nearest integer with 53 significant bits, the one
    with an even last bit where two are as near.  From 2^1024 - 2^970 on
    the Number is [Infinity], which is written 2^1024 here (no Number is):
    where the code only compares and subtracts, an [Infinity] so written
    compares as it should, and [Infinity - Infinity], a [NaN] that a sort
    takes for 0, is 0. *)
Definition INFINITY : Z := 2 ^ 1024.

Definition Number_of_nat (n : Z) : Z :=
  if n <? 2 ^ 53 then n
  else
    let e := Z.log2 n - 52 in
    let q := Z.shiftr n e in
    let r := Z.land n (Z.ones e) in
    let half := 2 ^ (e - 1) in
    let q' := if (half <? r) || ((r =? half) && Z.odd q) then q + 1 else q in
    let m := Z.shiftl q' e in
    if m <? INFINITY then m else INFINITY.

Definition Number_of (n : Z) : Z :=
  if n <? 0 then - Number_of_nat (- n) else Number_of_nat n.

(** The digits [Number::toString] prints for a Number [x] from 2^53 on:
    [(s, t)] with as few digits in [s] as can be such that [s * 10^t] is
    read back as [x], that is, lies within half the gap to the Numbers next
    to [x] (the ends count when the last bit of [x] is even; the gap below
    a power of two is half the gap above it).  Of two such numerals the
    nearer to [x] is taken, and the even one if they are as near.  No
    Number needs more than 17 digits. *)
Definition shortest (x : Z) : Z * Z :=
  let e := Z.log2 x - 52 in
  let m := Z.shiftr x e in
  let hi4 := 4 * x + 2 ^ (e + 1) in
  let lo4 := if m =? 2 ^ 52 then 4 * x - 2 ^ e else 4 * x - 2 ^ (e + 1) in
  let inside c :=
    if Z.even m then (lo4 <=? 4 * c) && (4 * c <=? hi4)
    else (lo4 <? 4 * c) && (4 * c <? hi4) in
  let D := Z.of_nat (String.length (pretty x)) in
  (fix go (fuel : nat) (k : Z) : Z * Z :=
     match fuel with
     | O => (x, 0)
     | S fuel' =>
         let p := 10 ^ (D - k) in
         let s1 := x / p in
         let c1 := s1 * p in
         let c2 := (s1 + 1) * p in
         match inside c1, inside c2 with
         | true, true =>
             if (x - c1 <? c2 - x) || ((x - c1 =? c2 - x) && Z.even s1)
             then (s1, D - k) else (s1 + 1, D - k)
         | true, false => (s1, D - k)
         | false, true => (s1 + 1, D - k)
         | false, false => go fuel' (k + 1)
         end
     end) 17%nat 1.

Fixpoint strip_zeros (fuel : nat) (s t : Z) : Z * Z :=
  match fuel with
  | O => (s, t)
  | S fuel' =>
      if (0 <? s) && (s mod 10 =? 0) then strip_zeros fuel' (s / 10) (t + 1) else (s, t)
  end.

(** [Number::toString] on the Numbers that are integers: all the digits
    below 2^53; from there on the shortest digits, followed by zeros up to
    21 digits in all and in exponent form beyond ([1e+21]). *)
Definition Number_toString_nat (x : Z) : string :=
  if x <? 2 ^ 53 then pretty x
  else if INFINITY <=? x then "Infinity"
  else
    let '(s, t) := shortest x in
    let '(s, t) := strip_zeros 17 s t in
    let ds := pretty s in
    let n := t + Z.of_nat (String.length ds) in
    if n <=? 21 then pretty (s * 10 ^ t)
    else
      match ds with
      | String d EmptyString => String d "e+" +:+ pretty (n - 1)
      | String d rest => String d ("." +:+ rest) +:+ "e+" +:+ pretty (n - 1)
      | EmptyString => ""
      end.

Definition Number_toString (x : Z) : string :=
  if x <? 0 then "-" +:+ Number_toString_nat (- x) else Number_toString_nat x.

(** ** Objects *)

(** An object is the list of its own properties in [Object.keys] order. *)
Definition obj_keys {V} (props : list (string * V)) : list string :=
  List.map fst props.

Fixpoint obj_has {V} (key : string) (props : list (string * V)) : bool :=
  match props with
  | [] => false
  | (k, _) :: props' => String.eqb k key || obj_has key props'
  end.

(** [`${v}`]: the string a template literal puts in for [v].  A number is
    printed as the Number it is.  An array is joined as [join] does it,
    [null] and [undefined] elements giving nothing.  An object goes through
    its [toString]: that of [Object.prototype], unless the parsed text gave
    it a property of that name of its own, which is no function, and then
    nothing is left to print it with and the engine throws. *)
Fixpoint toString (v : value) : result string :=
  match v with
  | VUndefined => Ok "undefined"
  | VNull => Ok "null"
  | VBool true => Ok "true"
  | VBool false => Ok "false"
  | VNum n => Ok (Number_toString (Number_of n))
  | VStr s => Ok s
  | VArr elems =>
      let* pieces := (fix each (elems : list value) : result (list string) :=
                        match elems with
                        | [] => Ok []
                        | e :: elems' =>
                            let* piece := match e with
                                          | VUndefined | VNull => Ok ""
                                          | _ => toString e
                                          end in
                            let* pieces := each elems' in
                            Ok (piece :: pieces)
                        end) elems in
      Ok (join "," pieces)
  | VObj props => if obj_has "toString" props then Throw TypeError else Ok "[object Object]"
  end.

Fixpoint obj_get (props : list (string * value)) (key : string) : value :=
  match props with
  | [] => VUndefined
  | (k, v) :: props' => if String.eqb k key then v else obj_get props' key
  end.

(** ** Strings *)

(** The bytes of a string are one [ascii] each.  The code takes strings
    apart in two ways that do not go by bytes: the iteration protocol goes
    by code point, and the default order of [Array.prototype.sort] by
    UTF-16 code unit. *)
Definition is_continuation (c : ascii) : bool :=
  let n := nat_of_ascii c in (128 <=? n)%nat && (n <? 192)%nat.

(** The code points of a string, each as the string of its bytes: a byte
    [10xxxxxx] goes with the byte before it. *)
Fixpoint code_points (s : string) : list string :=
  match s with
  | EmptyString => []
  | String c s' =>
      let continued :=
        match s' with
        | String c' _ => is_continuation c'
        | EmptyString => false
        end in
      match code_points s' with
      | p :: ps => if continued then String c p :: ps else String c EmptyString :: p :: ps
      | [] => [String c EmptyString]
      end
  end.

(** The number of a code point: the payload of its first byte (7, 5, 4 or
    3 bits, by how it starts) followed by the six low bits of each
    further byte. *)
Definition lead_payload (c : ascii) : N :=
  let n := N_of_ascii c in
  if (n <? 128)%N then n
  else if (n <? 224)%N then N.land n 31
  else if (n <? 240)%N then N.land n 15
  else N.land n 7.

Fixpoint code_point_from (acc : N) (bytes : string) : N :=
  match bytes with
  | EmptyString => acc
  | String c bytes' => code_point_from (64 * acc + N.land (N_of_ascii c) 63)%N bytes'
  end.

Definition code_point (p : string) : N :=
  match p with
  | EmptyString => 0%N
  | String c bytes => code_point_from (lead_payload c) bytes
  end.

(** The UTF-16 code units of a code point: itself below 2^16, a pair of
    surrogates from there on. *)
Definition utf16 (cp : N) : list N :=
  if (cp <? 65536)%N then [cp]
  else [(55296 + (cp - 65536) / 1024)%N; (56320 + (cp - 65536) mod 1024)%N].

Definition code_units (s : string) : list N :=
  flat_map (fun p => utf16 (code_point p)) (code_points s).

Fixpoint compare_units (a b : list N) : comparison :=
  match a, b with
  | [], [] => Eq
  | [], _ :: _ => Lt
  | _ :: _, [] => Gt
  | x :: a', y :: b' =>
      match N.compare x y with
      | Eq => compare_units a' b'
      | c => c
      end
  end.

(** The order of two strings by their code units, as a comparator. *)
Definition compare_code_units (a b : string) : Z :=
  match compare_units (code_units a) (code_units b) with
  | Lt => -1
  | Eq => 0
  | Gt => 1
  end.

(** The iteration protocol, as [for ... of] and array destructuring use it:
    an array yields its elements, a string its code points (each a
    string), anything else is not iterable. *)
Definition chars (s : string) : list value := List.map VStr (code_points s).

Definition iterate (v : value) : result (list value) :=
  match v with
  | VArr elems => Ok elems
  | VStr s => Ok (chars s)
  | _ => Throw TypeError
  end.

(** [input.split(' ')]: the pieces between single spaces, empty pieces
    included. *)
Fixpoint split (input : string) : list string :=
  match input with
  | EmptyString => [EmptyString]
  | String c rest =>
      if Ascii.eqb c " "%char then EmptyString :: split rest
      else match split rest with
           | piece :: pieces => String c piece :: pieces
           | [] => [String c EmptyString]
           end
  end.

Definition nonempty (x : string) : bool := negb (String.eqb x "").

(** [const csv = (input: string) => input.split(' ').filter((x) => !!x)] *)
Definition csv (input : string) : list string :=
  List.filter nonempty (split input).

(** [csv(x as string)]: the cast checks nothing, [split] exists on strings
    only. *)
Definition csv_of (input : value) : result (list string) :=
  match input with
  | VStr s => Ok (csv s)
  | _ => Throw TypeError
  end.

(** [xs.sort(cmp)] for a comparator that is a total preorder: the stable
    sort (ECMAScript 2019). *)
Section Sort.
Context {A : Type} (cmp : A -> A -> Z).

Fixpoint sort_insert (x : A) (sorted : list A) : list A :=
  match sorted with
  | [] => [x]
  | y :: sorted' =>
      if cmp x y <=? 0 then x :: y :: sorted' else y :: sort_insert x sorted'
  end.

Fixpoint sort (xs : list A) : list A :=
  match xs with
  | [] => []
  | x :: xs' => sort_insert x (sort xs')
  end.
End Sort.

(** Whether a comparator, which may fail to give a number, is an order on
    the elements of a list: it gives a number for every two of them, of
    opposite signs the other way round, and the elements it puts no later
    than one another are so transitively.  Only then does the language say
    what [sort] returns. *)
Definition is_order {A} (cmp : A -> A -> option Z) (xs : list A) : bool :=
  let ixs := combine (seq 0 (length xs)) xs in
  forallb (fun ia =>
    forallb (fun jb =>
      (fst ia =? fst jb)%nat
      || match cmp (snd ia) (snd jb), cmp (snd jb) (snd ia) with
         | Some x, Some y =>
             (Z.sgn x =? - Z.sgn y)
             && forallb (fun kc =>
                  (fst kc =? fst ia)%nat || (fst kc =? fst jb)%nat
                  || match cmp (snd jb) (snd kc), cmp (snd ia) (snd kc) with
                     | Some y', Some z => negb ((x <=? 0) && (y' <=? 0)) || (z <=? 0)
                     | _, _ => false
                     end) ixs
         | _, _ => false
         end) ixs) ixs.

(** [a.localeCompare(b)] on the names [kind] ranges over.  Any two of the
    five differ at a letter or are a prefix of one another, where the
    host's collation and the order of the code units agree. *)
Definition localeCompare (a b : string) : Z :=
  match String.compare a b with
  | Lt => -1
  | Eq => 0
  | Gt => 1
  end.

(* ================================================================= *)
(** * Part II: importSource *)

(** The archive behind an import.  [file name] stands for
    [JSON.parse(await source.file(name))]: the parsed content, or what the
    read or the parse threw. *)
Module Source.
Record t : Type := mk {
  name : string;
  list : list (string * value);
  file : string -> result value
}.
End Source.

(** The records [importSource] builds.  The [as string] and [as number]
    casts are erased when the code runs, so a field that is only cast holds
    whatever value the row had in that column; a field that went through
    [csv] holds a list of strings. *)
Module Raw.
Module Term.
Record t : Type := mk {
  expression : value;
  reading : value;
  definition_tags : list string;
  rules : list string;
  score : value;
  glossary : value;
  sequence : value;
  term_tags : list string
}.
End Term.

Module Kanji.
Record t : Type := mk {
  character : value;
  onyomi : list string;
  kunyomi : list string;
  tags : list string;
  meanings : value;
  stats : value
}.
End Kanji.

Module Tag.
Record t : Type := mk {
  name : value;
  category : value;
  order : value;
  description : value;
  score : value
}.
End Tag.

Module Meta.
Record t : Type := mk {
  expression : value;
  mode : value;
  data : value
}.
End Meta.

Module Dictionary.
Record t : Type := mk {
  index : value;
  terms : list Term.t;
  kanji : list Kanji.t;
  tags : list Tag.t;
  terms_meta : list Meta.t;
  kanji_meta : list Meta.t
}.
End Dictionary.
End Raw.

(** What [splitName] returns for a bank file. *)
Module Bank.
Record t : Type := mk {
  kind : string;
  file : string;
  index : Z
}.
End Bank.

Definition INDEX_NAME : string := "index.json".
Definition FORMAT : Z := 3.

(** [err(message)] *)
Definition err (source : Source.t) (message : string) : exn :=
  Error ("importing " +:+ Source.name source +:+ ": " +:+ message).

(** [index.format]: reading a property of [null] throws; a value that is
    not an object has no [format]. *)
Definition index_format (index : value) : result value :=
  match index with
  | VUndefined | VNull => Throw TypeError
  | VObj props => Ok (obj_get props "format")
  | _ => Ok VUndefined
  end.

(** ** The bank classifier *)

(** The alternatives of the pattern, in the order it lists them. *)
Definition KINDS : list string :=
  ["term"; "kanji"; "tag"; "term_meta"; "kanji_meta"].

Fixpoint strip_prefix (p s : string) : option string :=
  match p, s with
  | EmptyString, _ => Some s
  | String a p', String b s' => if Ascii.eqb a b then strip_prefix p' s' else None
  | String _ _, EmptyString => None
  end.

(** [\d] *)
Definition is_digit (c : ascii) : bool :=
  let n := nat_of_ascii c in (48 <=? n)%nat && (n <=? 57)%nat.

(** [(\d+)] is greedy: the longest run of digits, and what follows it. *)
Fixpoint span_digits (s : string) : string * string :=
  match s with
  | String c s' =>
      if is_digit c then let '(ds, rest) := span_digits s' in (String c ds, rest)
      else (EmptyString, s)
  | EmptyString => (EmptyString, EmptyString)
  end.

(** [parseInt(digits, 10)] on a run of digits: [parseInt_from 0] is the
    value of the run in base ten, and the result is the Number for that
    value, so runs that differ past the sixteenth digit can give the same
    index.  (ECMAScript lets an engine take the digits after the
    twentieth for zeros; Node does not.) *)
Definition digit_value (c : ascii) : Z := Z.of_nat (nat_of_ascii c) - 48.

Fixpoint parseInt_from (acc : Z) (digits : string) : Z :=
  match digits with
  | EmptyString => acc
  | String c digits' => parseInt_from (10 * acc + digit_value c) digits'
  end.

Definition parseInt (digits : string) : Z := Number_of_nat (parseInt_from 0 digits).

(** One alternative of the pattern against the whole name:
    [^kind_bank_(\d+)\.json$]. *)
Definition match_kind (name kind : string) : option Bank.t :=
  match strip_prefix (kind +:+ "_bank_") name with
  | Some rest =>
      let '(digits, tail) := span_digits rest in
      if nonempty digits && String.eqb tail ".json"
      then Some (Bank.mk kind name (parseInt digits))
      else None
  | None => None
  end.

Fixpoint first_match (name : string) (kinds : list string) : option Bank.t :=
  match kinds with
  | [] => None
  | kind :: kinds' =>
      match match_kind name kind with
      | Some b => Some b
      | None => first_match name kinds'
      end
  end.

(** [splitName]: [None] is the source's [undefined]. *)
Definition splitName (name : string) : option Bank.t :=
  first_match name KINDS.

(** The comparator of the [files] sort. *)
Definition compareFiles (a b : Bank.t) : Z :=
  if negb (String.eqb (Bank.kind a) (Bank.kind b))
  then localeCompare (Bank.kind a) (Bank.kind b)
  else Bank.index a - Bank.index b.

(** [const files = Object.keys(source.list).map(splitName).filter(...).sort(...)] *)
Definition bankFiles (source : Source.t) : list Bank.t :=
  sort compareFiles (omap splitName (obj_keys (Source.list source))).

(** ** The record decoder *)

(** [const [a, b, ...] = row] binds the columns by position: a column the
    row does not have is [undefined], columns past the last binder are not
    looked at. *)
Definition col (cols : list value) (i : nat) : value := nth i cols VUndefined.

Definition decodeTerm (row : value) : result Raw.Term.t :=
  let* cols := iterate row in
  let* definition_tags := csv_of (col cols 2) in
  let* rules := csv_of (col cols 3) in
  let* term_tags := csv_of (col cols 7) in
  Ok (Raw.Term.mk (col cols 0) (col cols 1) definition_tags rules
        (col cols 4) (col cols 5) (col cols 6) term_tags).

Definition decodeKanji (row : value) : result Raw.Kanji.t :=
  let* cols := iterate row in
  let* onyomi := csv_of (col cols 1) in
  let* kunyomi := csv_of (col cols 2) in
  let* tags := csv_of (col cols 3) in
  Ok (Raw.Kanji.mk (col cols 0) onyomi kunyomi tags (col cols 4) (col cols 5)).

Definition decodeTag (row : value) : result Raw.Tag.t :=
  let* cols := iterate row in
  Ok (Raw.Tag.mk (col cols 0) (col cols 1) (col cols 2) (col cols 3) (col cols 4)).

Definition decodeMeta (row : value) : result Raw.Meta.t :=
  let* cols := iterate row in
  Ok (Raw.Meta.mk (col cols 0) (col cols 1) (col cols 2)).

(** [for (const row of await read())]: the file is read and parsed, then
    its rows are taken one by one. *)
Definition read (source : Source.t) (it : Bank.t) : result (list value) :=
  let* content := Source.file source (Bank.file it) in
  iterate content.

(** The body of [for (const it of files)]: the [switch] on [it.kind]. *)
Definition importBank (source : Source.t) (dict : Raw.Dictionary.t) (it : Bank.t)
  : result Raw.Dictionary.t :=
  let '(Raw.Dictionary.mk index terms kanji tags terms_meta kanji_meta) := dict in
  if String.eqb (Bank.kind it) "term" then
    let* rows := read source it in
    let* new := rmap decodeTerm rows in
    Ok (Raw.Dictionary.mk index (terms ++ new) kanji tags terms_meta kanji_meta)
  else if String.eqb (Bank.kind it) "kanji" then
    let* rows := read source it in
    let* new := rmap decodeKanji rows in
    Ok (Raw.Dictionary.mk index terms (kanji ++ new) tags terms_meta kanji_meta)
  else if String.eqb (Bank.kind it) "tag" then
    let* rows := read source it in
    let* new := rmap decodeTag rows in
    Ok (Raw.Dictionary.mk index terms kanji (tags ++ new) terms_meta kanji_meta)
  else if String.eqb (Bank.kind it) "kanji_meta" then
    let* rows := read source it in
    let* new := rmap decodeMeta rows in
    Ok (Raw.Dictionary.mk index terms kanji tags terms_meta (kanji_meta ++ new))
  else if String.eqb (Bank.kind it) "term_meta" then
    let* rows := read source it in
    let* new := rmap decodeMeta rows in
    Ok (Raw.Dictionary.mk index terms kanji tags (terms_meta ++ new) kanji_meta)
  else Ok dict.

(** ** The importer *)

Section ImportSource.
(** The last statement, [dict.tags.sort(...)], compares [order] by
    subtraction and [name] by [localeCompare].  On tags whose columns are
    not a number and a string the comparator can give a [NaN] or throw a
    [TypeError], and what the sort then does is the engine's; on well-typed
    ones the order is the collation's, which is the host's: the step is a
    parameter. *)
Variable sortTags : list Raw.Tag.t -> result (list Raw.Tag.t).

Definition importSource (source : Source.t) : result Raw.Dictionary.t :=
  if negb (truthy (obj_get (Source.list source) INDEX_NAME)) then
    Throw (err source "invalid file (missing index.json)")
  else
    let* index := Source.file source INDEX_NAME in
    let* format := index_format index in
    if negb (match format with VNum n => n =? FORMAT | _ => false end) then
      let* got := toString format in
      Throw (err source ("invalid format number (expected " +:+ pretty FORMAT
                         +:+ ", got " +:+ got +:+ ")"))
    else
      let dict := Raw.Dictionary.mk index [] [] [] [] [] in
      let* dict := rfold (importBank source) (bankFiles source) dict in
      let* tags := sortTags (Raw.Dictionary.tags dict) in
      Ok (Raw.Dictionary.mk (Raw.Dictionary.index dict) (Raw.Dictionary.terms dict)
            (Raw.Dictionary.kanji dict) tags
            (Raw.Dictionary.terms_meta dict) (Raw.Dictionary.kanji_meta dict)).
End ImportSource.

(** ** The sort of the tags *)

(** [a.order === b.order] for the columns of two rows: the arrays and
    objects of two rows are two objects. *)
Definition strictly_equal (a b : value) : bool :=
  match a, b with
  | VUndefined, VUndefined | VNull, VNull => true
  | VBool x, VBool y => Bool.eqb x y
  | VNum x, VNum y => x =? y
  | VStr x, VStr y => String.eqb x y
  | _, _ => false
  end.

(** What [a.order - b.order] takes an [order] for: a number is itself,
    [null] is 0, [false] and [true] are 0 and 1, and [undefined], the
    [order] of a row of fewer than three columns, is [NaN], written
    [Some None].  A string, an array or an object would be read as a
    numeral, which can give a fraction: they are left out ([None]). *)
Definition order_number (v : value) : option (option Z) :=
  match v with
  | VNum n => Some (Some n)
  | VNull => Some (Some 0)
  | VBool b => Some (Some (if b then 1 else 0))
  | VUndefined => Some None
  | VStr _ | VArr _ | VObj _ => None
  end.

Definition well_typed_tag (a : Raw.Tag.t) : bool :=
  match Raw.Tag.order a, Raw.Tag.name a with
  | VNum _, VStr _ => true
  | _, _ => false
  end.

(** The sort step, for a host whose [localeCompare] is [collate]. *)
Section Collation.
Variable collate : string -> string -> Z.

(** The comparator, as the sort reads it: the number it returns, 0 for a
    [NaN]; [None] where it throws ([a.name] is no string and has no
    [localeCompare], [b.name] cannot be made a string) and where it
    subtracts an [order] that is left out above. *)
Definition compareTagsWith (a b : Raw.Tag.t) : option Z :=
  if negb (strictly_equal (Raw.Tag.order a) (Raw.Tag.order b)) then
    match order_number (Raw.Tag.order a), order_number (Raw.Tag.order b) with
    | Some (Some x), Some (Some y) => Some (x - y)
    | Some _, Some _ => Some 0
    | _, _ => None
    end
  else
    match Raw.Tag.name a, toString (Raw.Tag.name b) with
    | VStr na, Ok nb => Some (collate na nb)
    | _, _ => None
    end.

(** The comparator is not called on a list of at most one tag.  On a
    longer list on which it is an order, as it is on tags that each have a
    number for [order] and a string for name, the outcome is the stable
    sort.  On any other list (the comparator throws on two of the tags, or
    is no order on them, or subtracts an [order] that is left out above)
    the language leaves the outcome to the engine, or it is not modelled:
    the engine may throw or return the tags in some order.  [TypeError]
    stands for that here, so that nothing is said of the dictionary such
    an import may return. *)
Definition sortTagsWith (tags : list Raw.Tag.t) : result (list Raw.Tag.t) :=
  match tags with
  | [] | [_] => Ok tags
  | _ =>
      if forallb well_typed_tag tags || is_order compareTagsWith tags
      then Ok (sort (fun a b => default 0 (compareTagsWith a b)) tags)
      else Throw TypeError
  end.
End Collation.

(** The sort step of a host that collates by code unit. *)
Definition sortTags_codeunit : list Raw.Tag.t -> result (list Raw.Tag.t) :=
  sortTagsWith compare_code_units.

(* ================================================================= *)
(** * Part III: mergeTags *)

(** [mergeTags] takes dictionaries of the declared types: the fields below
    are the ones of [Index], [Term], [Kanji], [Tag], [Meta] and
    [Dictionary] in src/import.ts. *)
Module Index.
Record t : Type := mk {
  title : string;
  format : Z;
  revision : string;
  sequenced : bool
}.
End Index.

Module Term.
Record t : Type := mk {
  expression : string;
  reading : string;
  definition_tags : list string;
  rules : list string;
  score : Z;
  glossary : list string;
  sequence : Z;
  term_tags : list string
}.
End Term.

(** [stats] is an object used as a map: its properties in [Object.keys]
    order. *)
Module Kanji.
Record t : Type := mk {
  character : string;
  onyomi : list string;
  kunyomi : list string;
  tags : list string;
  meanings : list string;
  stats : list (string * string)
}.
End Kanji.

Module Tag.
Record t : Type := mk {
  name : string;
  category : string;
  order : Z;
  description : string;
  score : Z
}.
End Tag.

Module Meta.
Record t : Type := mk {
  expression : string;
  mode : string;
  data : Z
}.
End Meta.

Module Dictionary.
Record t : Type := mk {
  index : Index.t;
  terms : list Term.t;
  kanji : list Kanji.t;
  tags : list Tag.t;
  terms_meta : list Meta.t;
  kanji_meta : list Meta.t
}.
End Dictionary.

(** [args]: a flag that is left out is [undefined], which the code reads
    as [false]. *)
Module Args.
Record t : Type := mk {
  deleteUnused : bool;
  deleteEmpty : bool
}.
Definition default : t := mk false false.
End Args.

(** The maps [mapTag] reads and writes: [tags] and [tagUsage] live for the
    whole call, [mapped] is made anew for each dictionary. *)
Module St.
Record t : Type := mk {
  tags : gmap string Tag.t;
  tagUsage : gmap string Z;
  mapped : gmap string string
}.
End St.

(** State passing; [None] is a probe that ran out of steps (it never does,
    see [mapTag_total]). *)
Definition M (A : Type) : Type := St.t -> option (A * St.t).

Definition ret {A} (a : A) : M A := fun s => Some (a, s).

Definition bind {A B} (m : M A) (k : A -> M B) : M B :=
  fun s => match m s with
           | Some (a, s') => k a s'
           | None => None
           end.

Declare Scope merge_scope.
Delimit Scope merge_scope with merge.
Notation "'do' x '<-' m ';' k" := (bind m (fun x => k))
  (at level 10, x pattern, m at level 100, k at level 200) : merge_scope.
Open Scope merge_scope.

(** [xs.map(f)] in state-passing style, left to right. *)
Fixpoint mapM {A B} (f : A -> M B) (xs : list A) : M (list B) :=
  match xs with
  | [] => ret []
  | x :: xs' => do y <- f x; do ys <- mapM f xs'; ret (y :: ys)
  end.

(** [x ||= y] on strings and on numbers. *)
Definition or_str (x y : string) : string := if String.eqb x "" then y else x.
Definition or_num (x y : Z) : Z := if x =? 0 then y else x.

(** [new Map(dict.tags.map((x) => [x.name, x]))]: a later tag of the same
    name replaces an earlier one. *)
Definition byName (tags : list Tag.t) : gmap string Tag.t :=
  foldl (fun m x => <[Tag.name x := x]> m) ∅ tags.

(** [{ name: tagName, description: '', category: '', order: 0, score: 0 }] *)
Definition synthesized (tagName : string) : Tag.t :=
  Tag.mk tagName "" 0 "" 0.

(** [useTag] *)
Definition useTag (tagName : string) : M unit :=
  fun s =>
    Some (tt, St.mk (St.tags s)
                (<[tagName := default 0 (St.tagUsage s !! tagName) + 1]> (St.tagUsage s))
                (St.mapped s)).

(** [used && useTag(id)] *)
Definition useIf (used : bool) (id : string) : M unit :=
  if used then useTag id else ret tt.

(** [canMerge] *)
Definition canMerge (tag current : Tag.t) : bool :=
  (String.eqb (Tag.category tag) (Tag.category current)
   || String.eqb (Tag.category tag) "" || String.eqb (Tag.category current) "")
  &&
  (String.eqb (Tag.description tag) (Tag.description current)
   || String.eqb (Tag.description tag) "" || String.eqb (Tag.description current) "").

(** The four [||=] on [current]. *)
Definition merge (current tag : Tag.t) : Tag.t :=
  Tag.mk (Tag.name current)
    (or_str (Tag.category current) (Tag.category tag))
    (or_num (Tag.order current) (Tag.order tag))
    (or_str (Tag.description current) (Tag.description tag))
    (or_num (Tag.score current) (Tag.score tag)).

(** [tags.set(id, t); mapped.set(tagName, id)] *)
Definition store (id : string) (t : Tag.t) (tagName : string) : M unit :=
  fun s =>
    Some (tt, St.mk (<[id := t]> (St.tags s)) (St.tagUsage s)
                (<[tagName := id]> (St.mapped s))).

(** The id tried at a given value of [counter]. *)
Definition probeId (tagName : string) (counter : nat) : string :=
  match counter with
  | 0%nat | 1%nat => tagName
  | _ => tagName +:+ "-" +:+ pretty counter
  end.

(** The [for (;;)] of [mapTag], one iteration per unit of [fuel]. *)
Fixpoint probe (fuel : nat) (tag : Tag.t) (tagName : string) (used : bool)
    (counter : nat) (id : string) : M string :=
  match fuel with
  | O => fun _ => None
  | S fuel' =>
      fun s =>
        match St.tags s !! id with
        | None =>
            (do _ <- store id tag tagName;
             do _ <- useIf used id;
             ret id) s
        | Some current =>
            if canMerge tag current then
              (do _ <- store id (merge current tag) tagName;
               do _ <- useIf used id;
               ret id) s
            else
              probe fuel' tag tagName used (S counter)
                (tagName +:+ "-" +:+ pretty (S counter)) s
        end
  end.

(** [mapTag], for the dictionary whose tags by name are [names].  Each
    iteration of the loop that goes on has found its id taken, and the ids
    it tries are all different, so one more step than [tags] has entries
    is enough. *)
Definition mapTag (names : gmap string Tag.t) (tagName : string) (used : bool)
  : M string :=
  fun s =>
    match St.mapped s !! tagName with
    | Some mappedId =>
        if nonempty mappedId then
          (do _ <- useIf used mappedId; ret mappedId) s
        else
          probe (S (size (St.tags s)))
            (default (synthesized tagName) (names !! tagName)) tagName used 1 tagName s
    | None =>
        probe (S (size (St.tags s)))
          (default (synthesized tagName) (names !! tagName)) tagName used 1 tagName s
    end.

(** [obj[key] = v] on an object kept as its list of properties, for a
    value [v] that is a string.  A key that is there keeps its place; a new
    key that is an array index goes among the other indices in ascending
    order, before every other key; any other new key goes last.  Assigning
    to [__proto__] calls the inherited setter, which does nothing with a
    string. *)
Definition array_index (key : string) : option Z :=
  let '(digits, tail) := span_digits key in
  if nonempty digits && String.eqb tail "" then
    let n := parseInt digits in
    if String.eqb (pretty n) key && (n <? 2 ^ 32 - 1) then Some n else None
  else None.

Section Objects.
Context {V : Type}.

Fixpoint obj_replace (key : string) (v : V) (props : list (string * V))
  : list (string * V) :=
  match props with
  | [] => []
  | (k, w) :: props' =>
      if String.eqb k key then (k, v) :: props'
      else (k, w) :: obj_replace key v props'
  end.

Fixpoint obj_add_index (n : Z) (key : string) (v : V) (props : list (string * V))
  : list (string * V) :=
  match props with
  | [] => [(key, v)]
  | (k, w) :: props' =>
      match array_index k with
      | Some m =>
          if m <? n then (k, w) :: obj_add_index n key v props'
          else (key, v) :: (k, w) :: props'
      | None => (key, v) :: (k, w) :: props'
      end
  end.

Definition obj_set (key : string) (v : V) (props : list (string * V))
  : list (string * V) :=
  if String.eqb key "__proto__" then props
  else if obj_has key props then obj_replace key v props
  else match array_index key with
       | Some n => obj_add_index n key v props
       | None => props ++ [(key, v)]
       end.
End Objects.

(** The body of [for (const it of dict.terms)]. *)
Definition mapTerm (names : gmap string Tag.t) (it : Term.t) : M Term.t :=
  do term_tags <- mapM (fun x => mapTag names x true) (Term.term_tags it);
  do definition_tags <- mapM (fun x => mapTag names x true) (Term.definition_tags it);
  do rules <- mapM (fun x => mapTag names x true) (Term.rules it);
  ret (Term.mk (Term.expression it) (Term.reading it) definition_tags rules
         (Term.score it) (Term.glossary it) (Term.sequence it) term_tags).

(** [for (const key of Object.keys(it.stats))
      mappedStats[mapTag(key, true)] = it.stats[key]];
    [it.stats[key]] is the value listed with [key]. *)
Fixpoint mapStats (names : gmap string Tag.t) (stats mappedStats : list (string * string))
  : M (list (string * string)) :=
  match stats with
  | [] => ret mappedStats
  | (key, v) :: stats' =>
      do id <- mapTag names key true;
      mapStats names stats' (obj_set id v mappedStats)
  end.

(** The body of [for (const it of dict.kanji)]. *)
Definition mapKanji (names : gmap string Tag.t) (it : Kanji.t) : M Kanji.t :=
  do tags <- mapM (fun x => mapTag names x true) (Kanji.tags it);
  do stats <- mapStats names (Kanji.stats it) [];
  ret (Kanji.mk (Kanji.character it) (Kanji.onyomi it) (Kanji.kunyomi it) tags
         (Kanji.meanings it) stats).

(** The body of [for (const dict of dictionaries)]; the result is [dict]
    as the loop leaves it. *)
Definition mergeDict (dict : Dictionary.t) : M Dictionary.t :=
  match Dictionary.tags dict with
  | [] => ret dict
  | _ :: _ =>
      let names := byName (Dictionary.tags dict) in
      fun s =>
        (do _ <- mapM (fun it => mapTag names (Tag.name it) false) (Dictionary.tags dict);
         do terms <- mapM (mapTerm names) (Dictionary.terms dict);
         do kanji <- mapM (mapKanji names) (Dictionary.kanji dict);
         ret (Dictionary.mk (Dictionary.index dict) terms kanji (Dictionary.tags dict)
                (Dictionary.terms_meta dict) (Dictionary.kanji_meta dict)))
          (St.mk (St.tags s) (St.tagUsage s) ∅)
  end.

(** The last loop: which entries it deletes. *)
Definition isEmpty (val : Tag.t) : bool :=
  negb (nonempty (Tag.category val) || nonempty (Tag.description val)
        || negb (Tag.order val =? 0) || negb (Tag.score val =? 0)).

Definition isUnused (tagUsage : gmap string Z) (key : string) : bool :=
  default 0 (tagUsage !! key) =? 0.

Definition deleted (args : Args.t) (tagUsage : gmap string Z) (kv : string * Tag.t) : bool :=
  (Args.deleteEmpty args && isEmpty kv.2)
  || (Args.deleteUnused args && isUnused tagUsage kv.1).

Definition cleanup (args : Args.t) (s : St.t) : gmap string Tag.t :=
  filter (fun kv => deleted args (St.tagUsage s) kv = false) (St.tags s).

(** [mergeTags]: the map it returns, and the dictionaries as it leaves
    them. *)
Definition mergeTags (dictionaries : list Dictionary.t) (args : Args.t)
  : option (gmap string Tag.t * list Dictionary.t) :=
  match mapM mergeDict dictionaries (St.mk ∅ ∅ ∅) with
  | Some (dictionaries', s) => Some (cleanup args s, dictionaries')
  | None => None
  end.

(* ================================================================= *)
(** * Part IV: the reports *)

(** ** dictionaryInfo *)

(** [args]: a field that is left out is [undefined], which the code reads
    as [false] and as no indent. *)
Module InfoArgs.
Record t : Type := mk {
  short : bool;
  indent : string
}.
Definition default : t := mk false "".
End InfoArgs.

(** [xs.length && output.push(`${xs.length} what`)] *)
Definition pushCount {A} (xs : list A) (what : string) (output : list string)
  : list string :=
  match xs with
  | [] => output
  | _ :: _ => output ++ [pretty (length xs) +:+ " " +:+ what]
  end.

(** [for (const key of keys) map[key] = true] *)
Definition markAll (keys : list string) (map : list (string * bool))
  : list (string * bool) :=
  foldl (fun acc key => obj_set key true acc) map keys.

(** [xs.sort()] on strings: without a comparator the order is the one of
    the UTF-16 code units. *)
Definition compareDefault (a b : string) : Z := compare_code_units a b.

(** [Object.keys(map).sort()] *)
Definition sortedKeys (map : list (string * bool)) : list string :=
  sort compareDefault (obj_keys map).

(** [if (dict.kanji.length) { ... }] *)
Definition statsLines (dict : Dictionary.t) : list string :=
  match Dictionary.kanji dict with
  | [] => []
  | _ :: _ =>
      let stats :=
        foldl (fun stats kanji => markAll (obj_keys (Kanji.stats kanji)) stats) []
          (Dictionary.kanji dict) in
      [""; "    Stats = " +:+ join "," (sortedKeys stats)]
  end.

(** The three maps of [if (dict.terms.length) { ... }] after its loop. *)
Definition termMaps (terms : list Term.t)
  : list (string * bool) * list (string * bool) * list (string * bool) :=
  foldl (fun '(termMap, ruleMap, definitionMap) term =>
           (markAll (Term.term_tags term) termMap,
            markAll (Term.rules term) ruleMap,
            markAll (Term.definition_tags term) definitionMap))
    ([], [], []) terms.

Definition termLines (dict : Dictionary.t) : list string :=
  match Dictionary.terms dict with
  | [] => []
  | _ :: _ =>
      let '(termMap, ruleMap, definitionMap) := termMaps (Dictionary.terms dict) in
      let terms := join " " (sortedKeys termMap) in
      let rules := join " " (sortedKeys ruleMap) in
      let definitions := join " " (sortedKeys definitionMap) in
      (if nonempty rules then [""; "    Rules = " +:+ rules] else [])
      ++ (if nonempty terms then [""; "    Term Tags = " +:+ terms] else [])
      ++ (if nonempty definitions then [""; "    Definition Tags = " +:+ definitions]
          else [])
  end.

Definition tagLine (tag : Tag.t) : string :=
  let category :=
    if nonempty (Tag.category tag) then " (" +:+ Tag.category tag +:+ ")" else "" in
  "        - " +:+ Tag.name tag +:+ category +:+ ": " +:+ Tag.description tag
    +:+ " [score: " +:+ Number_toString (Number_of (Tag.score tag))
    +:+ ", order: " +:+ Number_toString (Number_of (Tag.order tag)) +:+ "]".

(** [if (dict.tags.length) { ... }] *)
Definition tagLines (dict : Dictionary.t) : list string :=
  match Dictionary.tags dict with
  | [] => []
  | _ :: _ =>
      [""; "    All tags {"] ++ List.map tagLine (Dictionary.tags dict) ++ ["    }"]
  end.

(** [lines] before the [return]. *)
Definition infoLines (dict : Dictionary.t) : list string :=
  [Index.title (Dictionary.index dict) +:+ " (format: "
     +:+ Number_toString (Number_of (Index.format (Dictionary.index dict)))
     +:+ ", revision: "
     +:+ Index.revision (Dictionary.index dict) +:+ ") {";
   "    List = " +:+ pretty (length (Dictionary.terms dict)) +:+ " terms / "
     +:+ pretty (length (Dictionary.kanji dict)) +:+ " kanji";
   "    Meta = " +:+ pretty (length (Dictionary.terms_meta dict)) +:+ " terms / "
     +:+ pretty (length (Dictionary.kanji_meta dict)) +:+ " kanji";
   "    Tags = " +:+ pretty (length (Dictionary.tags dict))]
  ++ statsLines dict ++ termLines dict ++ tagLines dict ++ ["}"].

Definition dictionaryInfo (dict : Dictionary.t) (args : InfoArgs.t) : string :=
  if InfoArgs.short args then
    let output :=
      pushCount (Dictionary.tags dict) "tags"
        (pushCount (Dictionary.kanji_meta dict) "kanji frequency"
           (pushCount (Dictionary.terms_meta dict) "terms frequency"
              (pushCount (Dictionary.kanji dict) "kanji"
                 (pushCount (Dictionary.terms dict) "terms" [])))) in
    Index.title (Dictionary.index dict) +:+ " with " +:+ join " and " output
  else
    let lines := infoLines dict in
    join (String "010"%char "")
      (if nonempty (InfoArgs.indent args)
       then List.map (fun x => if nonempty x then InfoArgs.indent args +:+ x else x) lines
       else lines).

(** ** The statistics of importDir *)

(** A [Map<string, number>]: its entries in insertion order.  [set] on a
    key that is there keeps the place of the key. *)
Fixpoint map_get (m : list (string * Z)) (key : string) : option Z :=
  match m with
  | [] => None
  | (k, v) :: m' => if String.eqb k key then Some v else map_get m' key
  end.

Fixpoint map_set (key : string) (v : Z) (m : list (string * Z)) : list (string * Z) :=
  match m with
  | [] => [(key, v)]
  | (k, w) :: m' =>
      if String.eqb k key then (k, v) :: m' else (k, w) :: map_set key v m'
  end.

(** [m.set(key, (m.get(key) || 0) + 1)] *)
Definition count (key : string) (m : list (string * Z)) : list (string * Z) :=
  map_set key (or_num (default 0 (map_get m key)) 0 + 1) m.

Module Tally.
Record t : Type := mk {
  totalEntries : Z;
  mapUnique : list (string * Z);
  mapTerms : list (string * Z);
  mapTermsAndReading : list (string * Z);
  mapGlossary : list (string * Z);
  mapGlossaryAndReading : list (string * Z)
}.
Definition empty : t := mk 0 [] [] [] [] [].
End Tally.

(** The body of [for (const term of dict.terms)]; [CONFIG_NORMALIZE_READING]
    is [false]. *)
Definition tallyTerm (st : Tally.t) (term : Term.t) : Tally.t :=
  let termAndReading := Term.expression term +:+ ", " +:+ Term.reading term in
  let glossaryText := join ", " (Term.glossary term) in
  let uniqueKey := termAndReading +:+ ", " +:+ glossaryText in
  let glossaryKey :=
    Term.reading term +:+ ", " +:+ glossaryText +:+ ", "
      +:+ join ":" (Term.definition_tags term) in
  Tally.mk (Tally.totalEntries st + 1)
    (count uniqueKey (Tally.mapUnique st))
    (count (Term.expression term) (Tally.mapTerms st))
    (count termAndReading (Tally.mapTermsAndReading st))
    (count glossaryText (Tally.mapGlossary st))
    (count glossaryKey (Tally.mapGlossaryAndReading st)).

(** [for (const dict of dictionaries) for (const term of dict.terms)] *)
Definition tally (dictionaries : list Dictionary.t) : Tally.t :=
  foldl (fun st dict => foldl tallyTerm st (Dictionary.terms dict)) Tally.empty dictionaries.

(** [for (const [k, v] of mapGlossaryAndReading)]: [total], [max] and
    [maxKey] after the loop. *)
Definition glossaryStep (acc : Z * Z * string) (kv : string * Z) : Z * Z * string :=
  let '(total, max, maxKey) := acc in
  let '(k, v) := kv in
  let total := total + v in
  let '(max, maxKey) := if v >? max then (v, k) else (max, maxKey) in
  (total, Z.max max v, maxKey).

Definition glossaryStats (mapGlossaryAndReading : list (string * Z)) : Z * Z * string :=
  foldl glossaryStep (0, 0, "") mapGlossaryAndReading.

(* ================================================================= *)
(** * Part V: the vocabulary of the properties *)

(** ** Tag lists *)

Fixpoint no_space (s : string) : Prop :=
  match s with
  | EmptyString => True
  | String c s' => c <> " "%char /\ no_space s'
  end.

Fixpoint remove_spaces (s : string) : string :=
  match s with
  | EmptyString => EmptyString
  | String c s' =>
      if Ascii.eqb c " "%char then remove_spaces s' else String c (remove_spaces s')
  end.

(** ** Bank files *)

Fixpoint all_digits (s : string) : Prop :=
  match s with
  | EmptyString => True
  | String c s' => is_digit c = true /\ all_digits s'
  end.

(** [name] matches [^(term|kanji|tag|term_meta|kanji_meta)_bank_(\d+)\.json$]
    with the two groups [kind] and [digits]. *)
Definition bank_pattern (name kind digits : string) : Prop :=
  In kind KINDS /\ digits <> "" /\ all_digits digits
  /\ name = kind +:+ "_bank_" +:+ digits +:+ ".json".

(** Kind in lexicographic order first, bank index second. *)
Definition bank_le (a b : Bank.t) : Prop :=
  String.compare (Bank.kind a) (Bank.kind b) = Lt
  \/ (Bank.kind a = Bank.kind b /\ Bank.index a <= Bank.index b).

Definition listing (names : list string) : Source.t :=
  Source.mk "archive" (List.map (fun n => (n, VBool true)) names)
    (fun _ => Throw (Thrown "not read")).

(** ** Import errors *)

(** The two errors of the index check, as [err] builds them. *)
Definition MissingIndexError (source : Source.t) : exn :=
  Error ("importing " +:+ Source.name source +:+ ": invalid file (missing index.json)").



(** The listing without one of its keys. *)
Fixpoint obj_delete {V} (key : string) (props : list (string * V)) : list (string * V) :=
  match props with
  | [] => []
  | (k, v) :: props' =>
      if String.eqb k key then obj_delete key props' else (k, v) :: obj_delete key props'
  end.

Definition without_index (source : Source.t) : Source.t :=
  Source.mk (Source.name source) (obj_delete INDEX_NAME (Source.list source))
    (Source.file source).

(** ** Row arity *)







(** ** Sample archives *)

Definition files_of (files : list (string * value)) (name : string) : result value :=
  match List.find (fun kv => String.eqb kv.1 name) files with
  | Some kv => Ok kv.2
  | None => Throw (Thrown "no such file")
  end.

Definition archive (name : string) (files : list (string * value)) : Source.t :=
  Source.mk name (List.map (fun kv => (kv.1, VBool true)) files) (files_of files).



(** A tag row of one column and a frequency row of four. *)
Definition archive_odd_rows : Source.t :=
  archive "odd.zip"
    [("index.json", VObj [("format", VNum 3)]);
     ("tag_bank_1.json", VArr [VArr [VStr "v1"]]);
     ("term_meta_bank_1.json",
       VArr [VArr [VStr "neko"; VStr "freq"; VNum 7; VStr "extra"]])].

(** A listing whose [index.json] entry is [0]. *)
Definition archive_falsy_index : Source.t :=
  Source.mk "falsy.zip" [("index.json", VNum 0); ("tag_bank_1.json", VBool true)]
    (files_of [("index.json", VObj [("format", VNum 3)]);
               ("tag_bank_1.json", VArr [])]).

(** ** Tag resolution *)

(** The tag a name stands for in a dictionary: the one its tag list
    defines, or an empty one made for the name. *)
Definition candidate (names : gmap string Tag.t) (tagName : string) : Tag.t :=
  default (synthesized tagName) (names !! tagName).

(** The resolution rule in the specification's words, from counter value
    [counter] on: an id that is free is claimed; an id that is taken by a
    compatible tag is shared and the tag merged in; past an id taken by an
    incompatible tag the counter goes up. *)
Inductive resolves (tag : Tag.t) (tagName : string) (tags : gmap string Tag.t)
  : nat -> string -> gmap string Tag.t -> Prop :=
| resolves_claim (counter : nat) :
    tags !! probeId tagName counter = None ->
    resolves tag tagName tags counter (probeId tagName counter)
      (<[probeId tagName counter := tag]> tags)
| resolves_merge (counter : nat) (occupant : Tag.t) :
    tags !! probeId tagName counter = Some occupant ->
    canMerge tag occupant = true ->
    resolves tag tagName tags counter (probeId tagName counter)
      (<[probeId tagName counter := merge occupant tag]> tags)
| resolves_next (counter : nat) (occupant : Tag.t) (id : string)
    (tags' : gmap string Tag.t) :
    tags !! probeId tagName counter = Some occupant ->
    canMerge tag occupant = false ->
    resolves tag tagName tags (S counter) id tags' ->
    resolves tag tagName tags counter id tags'.

(** [entry] has what [tag] says, wherever [tag] says something. *)
Definition absorbs (entry tag : Tag.t) : Prop :=
  (Tag.category tag <> "" -> Tag.category entry = Tag.category tag)
  /\ (Tag.description tag <> "" -> Tag.description entry = Tag.description tag)
  /\ (Tag.order tag <> 0 -> Tag.order entry <> 0)
  /\ (Tag.score tag <> 0 -> Tag.score entry <> 0).

(** [entry'] is [entry] with gaps filled: same name, and no field that
    was set has changed. *)
Definition fills (entry entry' : Tag.t) : Prop :=
  Tag.name entry' = Tag.name entry
  /\ (Tag.category entry <> "" -> Tag.category entry' = Tag.category entry)
  /\ (Tag.description entry <> "" -> Tag.description entry' = Tag.description entry)
  /\ (Tag.order entry <> 0 -> Tag.order entry' = Tag.order entry)
  /\ (Tag.score entry <> 0 -> Tag.score entry' = Tag.score entry).

(** An id made from a name: the name, or the name with a counter from 2
    on. *)
Definition id_of (tagName id : string) : Prop :=
  exists k : nat, (1 <= k)%nat /\ id = probeId tagName k.

(** What [useIf] does to the usage counts. *)
Definition bump (used : bool) (id : string) (tagUsage : gmap string Z) : gmap string Z :=
  if used then <[id := default 0 (tagUsage !! id) + 1]> tagUsage else tagUsage.

(** ** Sample dictionaries *)

(** A dictionary with the given tag list and one term with the given
    [rules]. *)
Definition sample_dict (title : string) (tags : list Tag.t) (rules : list string)
  : Dictionary.t :=
  Dictionary.mk (Index.mk title 3 "" false)
    [Term.mk "taberu" "taberu" [] rules 0 ["to eat"] 1 []] [] tags [] [].

Definition rules_of (dict : Dictionary.t) : list (list string) :=
  List.map Term.rules (Dictionary.terms dict).

Definition v5_verb : Tag.t := Tag.mk "v5" "verb" 1 "Godan verb" 0.
Definition v5_verb_bare : Tag.t := Tag.mk "v5" "verb" 0 "" 3.
Definition v5_noun : Tag.t := Tag.mk "v5" "noun" 2 "" 0.
Definition v5_bare : Tag.t := Tag.mk "v5" "" 0 "" 0.

(** A namespace with v5 taken by a verb, before any name of the current
    dictionary is resolved. *)
Definition state_v5 : St.t := St.mk {[ "v5" := v5_verb ]} ∅ ∅.

(** ** The state of a reconciliation *)

(** Every entry is kept under an id made from its own name, and its name
    is one of the names [P] lets in. *)
Definition namespace_ok (P : string -> Prop) (tags : gmap string Tag.t) : Prop :=
  forall id entry,
    tags !! id = Some entry -> P (Tag.name entry) /\ id_of (Tag.name entry) id.

Definition usage (s : St.t) (id : string) : Z := default 0 (St.tagUsage s !! id).

(** [s'] comes after [s]: the entries are still there, with gaps filled at
    most, and no count has gone down. *)
Definition extends (s s' : St.t) : Prop :=
  (forall id entry,
     St.tags s !! id = Some entry ->
     exists entry', St.tags s' !! id = Some entry' /\ fills entry entry')
  /\ (forall id, usage s id <= usage s' id).

(** In state [s], name [x] of the dictionary whose tags by name are
    [names] stands resolved to id [y]. *)
Definition resolved_to (names : gmap string Tag.t) (s : St.t) (x y : string) : Prop :=
  id_of x y
  /\ (names !! x = None -> y = x)
  /\ exists entry, St.tags s !! y = Some entry /\ absorbs entry (candidate names x).

(** ... and counted as used. *)
Definition referenced_to (names : gmap string Tag.t) (s : St.t) (x y : string) : Prop :=
  resolved_to names s x y /\ 0 < usage s y.

Definition names_ok (names : gmap string Tag.t) : Prop :=
  forall n t, names !! n = Some t -> Tag.name t = n.

(** What holds between two calls of [mapTag] for one dictionary. *)
Definition dict_inv (P : string -> Prop) (names : gmap string Tag.t) (s : St.t) : Prop :=
  namespace_ok P (St.tags s)
  /\ (forall id, 0 <= usage s id)
  /\ (forall n id, St.mapped s !! n = Some id -> resolved_to names s n id).

(** What holds between two dictionaries. *)
Definition run_inv (P : string -> Prop) (s : St.t) : Prop :=
  namespace_ok P (St.tags s) /\ (forall id, 0 <= usage s id).

(** ** Rewritten references *)

(** The tag names a term and a kanji refer to, in the order [mergeTags]
    goes through them. *)
Definition term_refs (it : Term.t) : list string :=
  Term.term_tags it ++ Term.definition_tags it ++ Term.rules it.

Definition kanji_refs (it : Kanji.t) : list string :=
  Kanji.tags it ++ obj_keys (Kanji.stats it).

Definition references (dict : Dictionary.t) : list string :=
  flat_map term_refs (Dictionary.terms dict)
  ++ flat_map kanji_refs (Dictionary.kanji dict).

(** A name a dictionary defines or refers to. *)
Definition mentions (dict : Dictionary.t) (n : string) : Prop :=
  In n (List.map Tag.name (Dictionary.tags dict)) \/ In n (references dict).

(** ... for a dictionary of the batch that has tags of its own. *)
Definition mentioned (dictionaries : list Dictionary.t) (n : string) : Prop :=
  exists dict,
    In dict dictionaries /\ Dictionary.tags dict <> [] /\ mentions dict n.

(** [it'] is [it] with every reference replaced, position by position,
    by an id that [R] relates the name to. *)
Definition term_rewritten (R : string -> string -> Prop) (it it' : Term.t) : Prop :=
  Term.expression it' = Term.expression it
  /\ Term.reading it' = Term.reading it
  /\ Term.score it' = Term.score it
  /\ Term.glossary it' = Term.glossary it
  /\ Term.sequence it' = Term.sequence it
  /\ Forall2 R (Term.term_tags it) (Term.term_tags it')
  /\ Forall2 R (Term.definition_tags it) (Term.definition_tags it')
  /\ Forall2 R (Term.rules it) (Term.rules it').

(** The keys of [stats'] are the ids of the keys of [stats], each with a
    value its name had; but for the id [__proto__], which is no key of
    [stats']: assigning a string to that property of an object sets
    nothing. *)
Definition stats_rewritten (R : string -> string -> Prop)
    (stats stats' : list (string * string)) : Prop :=
  (forall key, In key (obj_keys stats) ->
     exists id, R key id /\ (id <> "__proto__" -> In id (obj_keys stats')))
  /\ (forall id v, In (id, v) stats' -> exists key, In (key, v) stats /\ R key id)
  /\ ~ In "__proto__" (obj_keys stats').

Definition kanji_rewritten (R : string -> string -> Prop) (it it' : Kanji.t) : Prop :=
  Kanji.character it' = Kanji.character it
  /\ Kanji.onyomi it' = Kanji.onyomi it
  /\ Kanji.kunyomi it' = Kanji.kunyomi it
  /\ Kanji.meanings it' = Kanji.meanings it
  /\ Forall2 R (Kanji.tags it) (Kanji.tags it')
  /\ stats_rewritten R (Kanji.stats it) (Kanji.stats it').

(** A dictionary without tags is left as it is; in any other one every
    defined name has an id by [D] and every reference is rewritten by
    [R]. *)
Definition dict_rewritten (D R : gmap string Tag.t -> string -> string -> Prop)
    (dict dict' : Dictionary.t) : Prop :=
  match Dictionary.tags dict with
  | [] => dict' = dict
  | _ :: _ =>
      let names := byName (Dictionary.tags dict) in
      Dictionary.index dict' = Dictionary.index dict
      /\ Dictionary.tags dict' = Dictionary.tags dict
      /\ Dictionary.terms_meta dict' = Dictionary.terms_meta dict
      /\ Dictionary.kanji_meta dict' = Dictionary.kanji_meta dict
      /\ Forall (fun t => exists id, D names (Tag.name t) id) (Dictionary.tags dict)
      /\ Forall2 (term_rewritten (R names)) (Dictionary.terms dict) (Dictionary.terms dict')
      /\ Forall2 (kanji_rewritten (R names)) (Dictionary.kanji dict) (Dictionary.kanji dict')
  end.

(** ** The returned namespace *)

(** Id [y] is a key of the returned namespace, with an entry that holds
    what the dictionary says about [x]; or [deleteEmpty] is set and has
    taken the entry away, the entry and what the dictionary says about [x]
    being without content. *)
Definition kept_or_empty (args : Args.t) (ns : gmap string Tag.t)
    (names : gmap string Tag.t) (x y : string) : Prop :=
  (exists entry, ns !! y = Some entry /\ absorbs entry (candidate names x))
  \/ (Args.deleteEmpty args = true /\ isEmpty (candidate names x) = true
      /\ ns !! y = None).

(** A reference [x] of a dictionary whose tags by name are [names] has
    been replaced by [y]: an id made from [x], [x] itself when the
    dictionary does not define it, and a key of the returned namespace
    unless [deleteEmpty] took an entry without content away. *)
Definition in_namespace (args : Args.t) (ns : gmap string Tag.t)
    (names : gmap string Tag.t) (x y : string) : Prop :=
  id_of x y
  /\ (names !! x = None -> y = x)
  /\ kept_or_empty args ns names x y.

(** The same for a name the dictionary defines, which need not be used. *)
Definition defined_in_namespace (args : Args.t) (ns : gmap string Tag.t)
    (names : gmap string Tag.t) (x y : string) : Prop :=
  id_of x y
  /\ (Args.deleteUnused args = false -> kept_or_empty args ns names x y).

(** A dictionary without tags whose term refers to v1, and a dictionary
    that defines a tag without content. *)
Definition dict_no_tags : Dictionary.t := sample_dict "freq" [] ["v1"].

Definition dict_bare_tag : Dictionary.t :=
  sample_dict "bare" [Tag.mk "arch" "" 0 "" 0] [].

(** Reference [x] of [dict] stands as [y] in [dict']: the same place of
    the same list of the same term or kanji. *)
Definition rewritten_ref (dict dict' : Dictionary.t) (x y : string) : Prop :=
  (exists it it',
     In (it, it') (combine (Dictionary.terms dict) (Dictionary.terms dict'))
     /\ (In (x, y) (combine (Term.term_tags it) (Term.term_tags it'))
         \/ In (x, y) (combine (Term.definition_tags it) (Term.definition_tags it'))
         \/ In (x, y) (combine (Term.rules it) (Term.rules it'))))
  \/ (exists it it',
        In (it, it') (combine (Dictionary.kanji dict) (Dictionary.kanji dict'))
        /\ In (x, y) (combine (Kanji.tags it) (Kanji.tags it'))).

(** ** Archives that differ outside their banks *)

(** Two archives with the same name and listing, the same index and the
    same content for every listed name that matches the bank pattern. *)
Definition same_banks (a b : Source.t) : Prop :=
  Source.name a = Source.name b
  /\ Source.list a = Source.list b
  /\ Source.file a INDEX_NAME = Source.file b INDEX_NAME
  /\ forall name,
       In name (obj_keys (Source.list a)) -> splitName name <> None ->
       Source.file a name = Source.file b name.

(** What one bank file adds to the records of its kind: its rows,
    decoded. *)
Definition bankStep {A} (decode : value -> result A) (source : Source.t)
    (acc : list A) (it : Bank.t) : result (list A) :=
  let* rows := read source it in
  let* new := rmap decode rows in
  Ok (acc ++ new)%list.

(** The records of one kind: the rows of the bank files of that kind, bank
    after bank in the order of [bankFiles], row after row. *)
Definition decodeBanks {A} (decode : value -> result A) (source : Source.t)
    (kind : string) : result (list A) :=
  rfold (bankStep decode source)
    (List.filter (fun it => String.eqb (Bank.kind it) kind) (bankFiles source)) [].

(** An archive whose listing has a file the pattern does not match, and
    the same archive with other content in that file. *)
Definition archive_with_notes (notes : value) : Source.t :=
  Source.mk "notes.zip"
    [("index.json", VBool true); ("notes.txt", VBool true); ("tag_bank_1.json", VBool true)]
    (files_of [("index.json", VObj [("format", VNum 3)]);
               ("notes.txt", notes);
               ("tag_bank_1.json", VArr [VArr [VStr "v1"; VStr "verb"; VNum 1; VStr ""; VNum 0]])]).

(** An archive whose only term bank is not an array. *)
Definition archive_broken_bank : Source.t :=
  archive "broken.zip"
    [("index.json", VObj [("format", VNum 3)]);
     ("tag_bank_1.json", VArr []);
     ("term_bank_1.json", VObj [])].

(** The files of one kind and one bank index. *)
Definition same_slot (kind : string) (index : Z) (it : Bank.t) : bool :=
  String.eqb (Bank.kind it) kind && (Bank.index it =? index).

(** ** The order of the tags *)

(** Lesser [order] first, and by name in the collation among tags of the
    same [order]. *)
Definition tag_le (collate : string -> string -> Z) (a b : Raw.Tag.t) : Prop :=
  match Raw.Tag.order a, Raw.Tag.order b, Raw.Tag.name a, Raw.Tag.name b with
  | VNum oa, VNum ob, VStr na, VStr nb => oa < ob \/ (oa = ob /\ collate na nb <= 0)
  | _, _, _, _ => False
  end.

(** The tags of a given [order] and name. *)
Definition same_key (order : Z) (name : string) (a : Raw.Tag.t) : bool :=
  match Raw.Tag.order a, Raw.Tag.name a with
  | VNum o, VStr n => (o =? order) && String.eqb n name
  | _, _ => false
  end.

(** An archive with two tag banks. *)
Definition archive_tags : Source.t :=
  archive "tags.zip"
    [("index.json", VObj [("format", VNum 3)]);
     ("tag_bank_1.json",
       VArr [VArr [VStr "v5"; VStr "verb"; VNum 2; VStr "Godan verb"; VNum 0];
             VArr [VStr "n"; VStr "noun"; VNum 1; VStr "noun"; VNum 0]]);
     ("tag_bank_2.json",
       VArr [VArr [VStr "adj"; VStr "adjective"; VNum 1; VStr ""; VNum 0]])].

(** ** More on a reconciliation *)

Definition has_tags (dict : Dictionary.t) : bool :=
  match Dictionary.tags dict with
  | [] => false
  | _ :: _ => true
  end.

(** The tags of a list with a given name. *)
Definition named (n : string) (t : Tag.t) : bool := String.eqb (Tag.name t) n.

(** The first dictionary that has tags finds the namespace empty: every
    entry is then the tag its id stands for in this dictionary, and every
    name has itself for id. *)
Definition own_names (names : gmap string Tag.t) (s : St.t) : Prop :=
  (forall id entry, St.tags s !! id = Some entry -> entry = candidate names id)
  /\ (forall n id, St.mapped s !! n = Some id -> id = n /\ is_Some (St.tags s !! n))
  /\ (forall id, 0 <= usage s id).

(** From [s] to [s'] the names in [Q] have got their entries and the
    names in [U] have been counted. *)
Definition owns (names : gmap string Tag.t) (Q U : string -> Prop) (s s' : St.t) : Prop :=
  own_names names s'
  /\ (forall id, is_Some (St.tags s' !! id) <-> is_Some (St.tags s !! id) \/ Q id)
  /\ (forall id, usage s' id <> 0 <-> usage s id <> 0 \/ U id).

(** Keys that an object lists in the order they were set in: no key
    twice, no array index and no [__proto__]. *)
Definition plain_keys (stats : list (string * string)) : Prop :=
  NoDup (obj_keys stats)
  /\ Forall (fun key => key <> "__proto__" /\ array_index key = None) (obj_keys stats).

(** [mappedStats] when every key is its own id. *)
Definition restats (mappedStats stats : list (string * string)) : list (string * string) :=
  foldl (fun acc kv => obj_set kv.1 kv.2 acc) mappedStats stats.

Definition restat (it : Kanji.t) : Kanji.t :=
  Kanji.mk (Kanji.character it) (Kanji.onyomi it) (Kanji.kunyomi it) (Kanji.tags it)
    (Kanji.meanings it) (restats [] (Kanji.stats it)).

(** A computation counts as used only ids that [T] finds in its result. *)
Definition counts {A} (T : A -> string -> Prop) (m : M A) : Prop :=
  forall s a s', m s = Some (a, s') ->
    forall i, usage s' i <> 0 -> usage s i <> 0 \/ T a i.

(** Sample dictionaries with a kanji. *)
Definition sample_kanji (tags : list string) (stats : list (string * string)) : Kanji.t :=
  Kanji.mk "ki" ["moku"] ["ki"] tags ["tree"] stats.

Definition dict_kanji : Dictionary.t :=
  Dictionary.mk (Index.mk "kanji" 3 "" false)
    [Term.mk "taberu" "taberu" ["v1"] ["v1"] 0 ["to eat"] 1 ["P"]]
    [sample_kanji ["jouyou"] [("grade", "1"); ("strokes", "4")]]
    [Tag.mk "v1" "verb" 1 "Ichidan verb" 0; Tag.mk "old" "" 0 "" 0] [] [].

(** A dictionary whose term refers to a name that no dictionary defines,
    and one whose kanji has [__proto__] among the keys of its [stats]. *)
Definition dict_undefined_ref : Dictionary.t := sample_dict "a" [v5_verb] ["zz"].

Definition dict_proto_stats : Dictionary.t :=
  Dictionary.mk (Index.mk "proto" 3 "" false) []
    [sample_kanji [] [("__proto__", "1"); ("grade", "2")]] [v5_verb] [] [].

Definition n_noun : Tag.t := Tag.mk "n" "noun" 0 "" 0.

Definition stats_of (dict : Dictionary.t) : list (list (string * string)) :=
  List.map Kanji.stats (Dictionary.kanji dict).

(** A tag that a dictionary of the batch defines. *)
Definition defines (dictionaries : list Dictionary.t) (t : Tag.t) : Prop :=
  exists dict, In dict dictionaries /\ In t (Dictionary.tags dict).

(** What [entry] says, some tag that the batch defines says: each field
    that is set is the field of a defined tag. *)
Definition sourced (dictionaries : list Dictionary.t) (entry : Tag.t) : Prop :=
  (Tag.category entry <> "" ->
   exists t, defines dictionaries t /\ Tag.category t = Tag.category entry)
  /\ (Tag.description entry <> "" ->
      exists t, defines dictionaries t /\ Tag.description t = Tag.description entry)
  /\ (Tag.order entry <> 0 ->
      exists t, defines dictionaries t /\ Tag.order t = Tag.order entry)
  /\ (Tag.score entry <> 0 ->
      exists t, defines dictionaries t /\ Tag.score t = Tag.score entry).

Definition all_sourced (dictionaries : list Dictionary.t) (s : St.t) : Prop :=
  forall id entry, St.tags s !! id = Some entry -> sourced dictionaries entry.

(** A computation keeps [I]. *)
Definition preserves {A} (I : St.t -> Prop) (m : M A) : Prop :=
  forall s a s', m s = Some (a, s') -> I s -> I s'.

(** ** Statistics *)

(** The sum of the counts of a map, and the terms of a batch. *)
Definition counted (m : list (string * Z)) : Z :=
  foldr (fun kv acc => kv.2 + acc) 0 m.

Definition all_terms (dictionaries : list Dictionary.t) : list Term.t :=
  flat_map Dictionary.terms dictionaries.

(** A map that counts: no key twice, every count at least one. *)
Definition counting (m : list (string * Z)) : Prop :=
  NoDup (obj_keys m) /\ Forall (fun kv => 1 <= kv.2) m.

Definition tallies (st : Tally.t) : list (list (string * Z)) :=
  [Tally.mapUnique st; Tally.mapTerms st; Tally.mapTermsAndReading st;
   Tally.mapGlossary st; Tally.mapGlossaryAndReading st].

(** ** Descriptions *)

(** [keys] lists the names in [names] other than [__proto__]: each once,
    in ascending order of the UTF-16 code units. *)
Definition key_list (names keys : list string) : Prop :=
  StronglySorted (fun a b => compare_units (code_units a) (code_units b) <> Gt) keys
  /\ NoDup keys
  /\ forall key, In key keys <-> In key names /\ key <> "__proto__".

(** U+FF5E, a fullwidth tilde, and U+2000B, a kanji outside the basic
    plane: the tilde is the lesser by its bytes and by its code point, the
    kanji by its code units, the first of which is a surrogate. *)
Definition fullwidth_tilde : string :=
  String "239"%char (String "189"%char (String "158"%char EmptyString)).

Definition kanji_2000B : string :=
  String "240"%char (String "160"%char (String "128"%char (String "139"%char EmptyString))).

Definition dict_rare_kanji : Dictionary.t :=
  Dictionary.mk (Index.mk "rare" 3 "" false) []
    [sample_kanji [] [(fullwidth_tilde, "1"); (kanji_2000B, "2")]] [] [] [].

Definition stats_names (dict : Dictionary.t) : list string :=
  flat_map (fun it => obj_keys (Kanji.stats it)) (Dictionary.kanji dict).

(* ================================================================= *)
(** * Part VI: the properties of the written specification *)

(** ** Splitting tag lists *)

Lemma split_not_nil (s : string) : split s <> [].
Proof.
  induction s as [|c s IH]; simpl; [discriminate|].
  destruct (Ascii.eqb c " "); [discriminate|].
  destruct (split s); discriminate.
Qed.

Lemma split_no_space (s : string) : Forall no_space (split s).
Proof.
  induction s as [|c s IH]; simpl.
  - constructor; [exact I | constructor].
  - destruct (Ascii.eqb_spec c " "%char) as [->|Hc].
    + constructor; [exact I | exact IH].
    + destruct (split s) as [|piece pieces]; inversion IH; subst;
        constructor; simpl; auto.
Qed.

Lemma split_piece (t : string) : no_space t -> split t = [t].
Proof.
  induction t as [|c t IH]; simpl; [reflexivity|].
  intros [Hc Ht]. destruct (Ascii.eqb_spec c " "%char); [contradiction|].
  rewrite (IH Ht). reflexivity.
Qed.

Lemma split_piece_space (t rest : string) :
  no_space t -> split (t +:+ " " +:+ rest) = t :: split rest.
Proof.
  induction t as [|c t IH]; simpl; [reflexivity|].
  intros [Hc Ht]. destruct (Ascii.eqb_spec c " "%char); [contradiction|].
  rewrite (IH Ht). reflexivity.
Qed.

Lemma split_join (pieces : list string) :
  pieces <> [] -> Forall no_space pieces -> split (join " " pieces) = pieces.
Proof.
  induction pieces as [|t pieces IH]; [congruence|].
  intros _ Hall. inversion Hall as [|? ? Ht Hrest]; subst.
  destruct pieces as [|t' pieces'].
  - simpl. apply split_piece, Ht.
  - change (join " " (t :: t' :: pieces')) with (t +:+ " " +:+ join " " (t' :: pieces')).
    rewrite split_piece_space by exact Ht.
    rewrite IH; [reflexivity | discriminate | exact Hrest].
Qed.

Lemma filter_all {A} (f : A -> bool) (l : list A) :
  Forall (fun x => f x = true) l -> List.filter f l = l.
Proof.
  induction 1 as [|x l Hx _ IH]; simpl; [reflexivity|].
  rewrite Hx, IH. reflexivity.
Qed.

Lemma filter_Forall_true {A} (f : A -> bool) (l : list A) :
  Forall (fun x => f x = true) (List.filter f l).
Proof.
  induction l as [|x l IH]; simpl; [constructor|].
  destruct (f x) eqn:E; [constructor; assumption | assumption].
Qed.

Lemma filter_Forall_keep {A} (P : A -> Prop) (f : A -> bool) (l : list A) :
  Forall P l -> Forall P (List.filter f l).
Proof.
  induction 1 as [|x l Hx _ IH]; simpl; [constructor|].
  destruct (f x); [constructor; assumption | assumption].
Qed.

Lemma nonempty_true (x : string) : nonempty x = true <-> x <> "".
Proof.
  unfold nonempty. destruct (String.eqb_spec x ""); simpl; split; congruence.
Qed.

Lemma append_nil_r (a : string) : a +:+ "" = a.
Proof.
  induction a as [|x a IH]; [reflexivity|].
  change (String x a +:+ "") with (String x (a +:+ "")). now rewrite IH.
Qed.

Lemma join_empty_cons (x : string) (xs : list string) :
  join "" (x :: xs) = x +:+ join "" xs.
Proof. destruct xs; simpl; [now rewrite append_nil_r | reflexivity]. Qed.

Lemma join_empty_split (s : string) : join "" (split s) = remove_spaces s.
Proof.
  induction s as [|c s IH]; [reflexivity|].
  cbn [split remove_spaces]. destruct (Ascii.eqb c " "%char).
  - now rewrite join_empty_cons.
  - destruct (split s) as [|piece pieces]; [now rewrite <- IH|].
    rewrite join_empty_cons in *. now rewrite <- IH.
Qed.

Lemma join_empty_filter (xs : list string) :
  join "" (List.filter nonempty xs) = join "" xs.
Proof.
  induction xs as [|x xs IH]; [reflexivity|].
  cbn [List.filter]. unfold nonempty at 1.
  destruct (String.eqb_spec x "") as [->|]; cbn [negb];
    rewrite !join_empty_cons, ?IH; reflexivity.
Qed.

(** C9. [csv] yields non-empty tokens without a space in them, which put
    end to end are the input without its spaces; joining the tokens with
    single spaces and splitting again gives the same tokens. *)
Theorem csv_tokens_idempotent (s : string) :
  Forall (fun t => t <> "") (csv s)
  /\ Forall no_space (csv s)
  /\ join "" (csv s) = remove_spaces s
  /\ csv (join " " (csv s)) = csv s.
Proof.
  assert (Hne : Forall (fun t => nonempty t = true) (csv s))
    by apply filter_Forall_true.
  assert (Hsp : Forall no_space (csv s))
    by apply filter_Forall_keep, split_no_space.
  split; [|split; [exact Hsp|split]].
  - eapply Forall_impl; [exact Hne|]. intros t. apply nonempty_true.
  - unfold csv. now rewrite join_empty_filter, join_empty_split.
  - destruct (csv s) as [|t ts] eqn:E; [reflexivity|].
    unfold csv at 1. rewrite split_join; [|discriminate|exact Hsp].
    apply filter_all, Hne.
Qed.

(** ** The bank classifier *)

Lemma append_cons (x : ascii) (a b : string) :
  String x a +:+ b = String x (a +:+ b).
Proof. reflexivity. Qed.

Lemma append_nil_l (b : string) : "" +:+ b = b.
Proof. reflexivity. Qed.

Lemma append_assoc (a b c : string) : (a +:+ b) +:+ c = a +:+ b +:+ c.
Proof.
  induction a as [|x a IH]; [reflexivity|].
  rewrite !append_cons. f_equal. exact IH.
Qed.

Lemma strip_prefix_sound (p s r : string) :
  strip_prefix p s = Some r -> s = p +:+ r.
Proof.
  revert s. induction p as [|a p IH]; intros s; simpl.
  - now intros [= ->].
  - destruct s as [|b s]; [discriminate|].
    destruct (Ascii.eqb_spec a b) as [->|]; [|discriminate].
    intros H. now rewrite append_cons, <- (IH _ H).
Qed.

Lemma strip_prefix_complete (p r : string) : strip_prefix p (p +:+ r) = Some r.
Proof.
  induction p as [|a p IH]; [reflexivity|].
  rewrite append_cons. simpl. now rewrite Ascii.eqb_refl.
Qed.

Lemma span_digits_sound (s d r : string) :
  span_digits s = (d, r) -> s = d +:+ r /\ all_digits d.
Proof.
  revert d r. induction s as [|c s IH]; intros d r; simpl.
  - intros [= <- <-]. now split.
  - destruct (is_digit c) eqn:Hc.
    + destruct (span_digits s) as [ds rest]. intros [= <- <-].
      destruct (IH _ _ eq_refl) as [Hs Hds].
      split; [now rewrite append_cons, <- Hs | now split].
    + intros [= <- <-]. now split.
Qed.

Lemma span_digits_json (d : string) :
  all_digits d -> span_digits (d +:+ ".json") = (d, ".json").
Proof.
  induction d as [|c d IH]; [reflexivity|].
  intros [Hc Hd]. rewrite append_cons. simpl. now rewrite Hc, (IH Hd).
Qed.

Lemma match_kind_sound (name kind : string) (b : Bank.t) :
  match_kind name kind = Some b ->
  exists digits,
    digits <> "" /\ all_digits digits
    /\ name = kind +:+ "_bank_" +:+ digits +:+ ".json"
    /\ b = Bank.mk kind name (parseInt digits).
Proof.
  unfold match_kind.
  destruct (strip_prefix (kind +:+ "_bank_") name) as [rest|] eqn:Hp; [|discriminate].
  destruct (span_digits rest) as [digits tail] eqn:Hs.
  destruct (nonempty digits) eqn:Hne; simpl; [|discriminate].
  destruct (String.eqb_spec tail ".json") as [->|]; [|discriminate].
  intros [= <-]. exists digits.
  apply strip_prefix_sound in Hp. apply span_digits_sound in Hs as [-> Hd].
  split; [now apply nonempty_true|]. split; [exact Hd|].
  split; [|reflexivity]. now rewrite Hp, append_assoc.
Qed.

Lemma match_kind_complete (kind digits : string) :
  digits <> "" -> all_digits digits ->
  match_kind (kind +:+ "_bank_" +:+ digits +:+ ".json") kind
  = Some (Bank.mk kind (kind +:+ "_bank_" +:+ digits +:+ ".json") (parseInt digits)).
Proof.
  intros Hne Hd. unfold match_kind.
  rewrite <- append_assoc at 1. rewrite strip_prefix_complete.
  rewrite (span_digits_json _ Hd).
  apply nonempty_true in Hne. now rewrite Hne.
Qed.

(** [splitName] is the pattern: it answers for exactly the names the
    pattern matches, with the pattern's two groups. *)
Lemma splitName_pattern (name : string) (b : Bank.t) :
  splitName name = Some b <->
  exists kind digits,
    bank_pattern name kind digits /\ b = Bank.mk kind name (parseInt digits).
Proof.
  split.
  - unfold splitName, KINDS, first_match.
    repeat match goal with
    | |- context [match_kind name ?k] =>
        let E := fresh "E" in
        destruct (match_kind name k) eqn:E;
        [ intros [= <-]; apply match_kind_sound in E as (d & ? & ? & ? & ?);
          exists k, d; unfold bank_pattern, KINDS; simpl; intuition auto | ]
    end.
    discriminate.
  - intros (kind & digits & (Hk & Hne & Hd & ->) & ->).
    pose proof (match_kind_complete kind digits Hne Hd) as Hm.
    unfold KINDS in Hk. simpl in Hk.
    destruct Hk as [<-|[<-|[<-|[<-|[<-|[]]]]]];
      unfold splitName, KINDS, first_match;
      rewrite ?Hm; try reflexivity;
      repeat match goal with
      | |- context [match_kind ?n ?k] =>
          first [ rewrite Hm | replace (match_kind n k) with (@None Bank.t) by reflexivity ]
      end; reflexivity.
Qed.

(** The stable insertion sort permutes its input, and orders it when the
    comparator is total. *)
Section SortFacts.
Context {A : Type} (cmp : A -> A -> Z).

Lemma sort_insert_perm (x : A) (l : list A) :
  Permutation (x :: l) (sort_insert cmp x l).
Proof.
  induction l as [|y l IH]; simpl; [reflexivity|].
  destruct (cmp x y <=? 0); [reflexivity|].
  rewrite <- IH. apply perm_swap.
Qed.

Lemma sort_perm (l : list A) : Permutation l (sort cmp l).
Proof.
  induction l as [|x l IH]; simpl; [reflexivity|].
  rewrite <- sort_insert_perm. now constructor.
Qed.

Hypothesis cmp_total : forall x y, ~ cmp x y <= 0 -> cmp y x <= 0.

Lemma sort_insert_sorted (x : A) (l : list A) :
  Sorted (fun a b => cmp a b <= 0) l ->
  Sorted (fun a b => cmp a b <= 0) (sort_insert cmp x l).
Proof.
  induction 1 as [|y l Hl IH Hy]; simpl.
  - repeat constructor.
  - destruct (Z.leb_spec (cmp x y) 0) as [Hxy|Hxy].
    + repeat constructor; assumption.
    + constructor; [exact IH|].
      destruct l as [|z l]; simpl.
      * constructor. apply cmp_total. lia.
      * destruct (cmp x z <=? 0); constructor;
          [apply cmp_total; lia | now inversion Hy].
Qed.

Lemma sort_sorted (l : list A) : Sorted (fun a b => cmp a b <= 0) (sort cmp l).
Proof.
  induction l as [|x l IH]; simpl; [constructor|].
  now apply sort_insert_sorted.
Qed.
End SortFacts.

Lemma ascii_compare_N (a b : ascii) :
  Ascii.compare a b = N.compare (N_of_ascii a) (N_of_ascii b).
Proof. reflexivity. Qed.

Lemma string_compare_lt_trans (a b c : string) :
  String.compare a b = Lt -> String.compare b c = Lt -> String.compare a c = Lt.
Proof.
  revert b c. induction a as [|x a IH]; intros [|y b] [|z c]; simpl;
    try congruence.
  rewrite !ascii_compare_N.
  destruct (N.compare_spec (N_of_ascii x) (N_of_ascii y)) as [Hxy|Hxy|Hxy];
    try discriminate;
    destruct (N.compare_spec (N_of_ascii y) (N_of_ascii z)) as [Hyz|Hyz|Hyz];
    try discriminate; intros H1 H2.
  - rewrite Hxy, Hyz, N.compare_refl. eauto.
  - rewrite Hxy. now apply N.compare_lt_iff in Hyz as ->.
  - rewrite <- Hyz. now apply N.compare_lt_iff in Hxy as ->.
  - assert (N_of_ascii x < N_of_ascii z)%N as Hxz by lia.
    now apply N.compare_lt_iff in Hxz as ->.
Qed.

Lemma string_compare_refl (a : string) : String.compare a a = Eq.
Proof.
  induction a as [|x a IH]; simpl; [reflexivity|].
  now rewrite ascii_compare_N, N.compare_refl.
Qed.

Lemma compareFiles_le (a b : Bank.t) : compareFiles a b <= 0 <-> bank_le a b.
Proof.
  unfold compareFiles, bank_le, localeCompare.
  destruct (String.eqb_spec (Bank.kind a) (Bank.kind b)) as [E|E]; simpl.
  - rewrite E, string_compare_refl. split; [intros; right; split; [reflexivity|lia]|].
    intros [|[_ ?]]; [discriminate | lia].
  - destruct (String.compare (Bank.kind a) (Bank.kind b)) eqn:C.
    + apply String.compare_eq_iff in C. contradiction.
    + split; [now left | lia].
    + split; [lia | intros [|[? _]]; [discriminate | contradiction]].
Qed.

Lemma compareFiles_total (a b : Bank.t) :
  ~ compareFiles a b <= 0 -> compareFiles b a <= 0.
Proof.
  unfold compareFiles, localeCompare.
  rewrite (String.eqb_sym (Bank.kind b)),
    (String.compare_antisym (Bank.kind b) (Bank.kind a)).
  destruct (String.eqb (Bank.kind a) (Bank.kind b)); simpl; [lia|].
  destruct (String.compare (Bank.kind a) (Bank.kind b)); simpl; lia.
Qed.

Lemma bank_le_trans : Transitive bank_le.
Proof.
  intros a b c [Hab|[Eab Iab]] [Hbc|[Ebc Ibc]].
  - left. eapply string_compare_lt_trans; eassumption.
  - left. now rewrite <- Ebc.
  - left. now rewrite Eab.
  - right. split; [congruence | lia].
Qed.

(** *** Bank indices *)

Lemma append_length (a b : string) :
  String.length (a +:+ b) = (String.length a + String.length b)%nat.
Proof.
  induction a as [|x a IH]; [reflexivity|].
  rewrite append_cons. simpl. now rewrite IH.
Qed.

Lemma parseInt_from_nonneg (acc : Z) (digits : string) :
  0 <= acc -> all_digits digits -> 0 <= parseInt_from acc digits.
Proof.
  revert acc. induction digits as [|c digits IH]; intros acc Hacc Hd; simpl; [exact Hacc|].
  destruct Hd as [Hc Hd]. apply IH; [|exact Hd].
  unfold is_digit in Hc. apply andb_true_iff in Hc as [Hlo _].
  apply Nat.leb_le in Hlo. unfold digit_value. lia.
Qed.

Lemma parseInt_from_app (acc : Z) (a b : string) :
  parseInt_from acc (a +:+ b) = parseInt_from (parseInt_from acc a) b.
Proof.
  revert acc. induction a as [|c a IH]; intros acc; [reflexivity|].
  rewrite append_cons. simpl. apply IH.
Qed.

Lemma all_digits_app (a b : string) :
  all_digits a -> all_digits b -> all_digits (a +:+ b).
Proof.
  induction a as [|c a IH]; [now intros _ Hb|].
  rewrite append_cons. simpl. intros [Hc Ha] Hb. split; [exact Hc | now apply IH].
Qed.

Lemma pretty_N_char_digit (d : N) :
  (d < 10)%N ->
  is_digit (pretty_N_char d) = true /\ digit_value (pretty_N_char d) = Z.of_N d.
Proof.
  intros Hd.
  assert (H : (d = 0 \/ d = 1 \/ d = 2 \/ d = 3 \/ d = 4 \/ d = 5 \/ d = 6 \/ d = 7
               \/ d = 8 \/ d = 9)%N) by lia.
  destruct H as [-> |[-> |[-> |[-> |[-> |[-> |[-> |[-> |[-> | ->]]]]]]]]]; now split.
Qed.

(** The numeral that [pretty_N_go] puts before [s]: digits that spell [x]
    in base ten. *)
Lemma pretty_N_go_parse (x : N) :
  exists ds,
    (forall s, pretty_N_go x s = ds +:+ s)
    /\ all_digits ds /\ ((0 < x)%N -> ds <> "")
    /\ parseInt_from 0 ds = Z.of_N x.
Proof.
  induction (N.lt_wf_0 x) as [x _ IH].
  destruct (N.eq_dec x 0%N) as [->|Hx].
  - exists "". split; [intros s; apply pretty_N_go_0|]. split; [exact I|].
    split; [lia | reflexivity].
  - assert (Hpos : (0 < x)%N) by lia.
    destruct (IH (x `div` 10)%N) as (ds & Hgo & Hd & _ & Hval);
      [now apply N.div_lt|].
    destruct (pretty_N_char_digit (x `mod` 10)%N) as [Hc Hv];
      [now apply N.mod_lt|].
    exists (ds +:+ String (pretty_N_char (x `mod` 10)) ""). split; [|split; [|split]].
    + intros s. rewrite pretty_N_go_step by exact Hpos. rewrite Hgo.
      now rewrite append_assoc.
    + apply all_digits_app; [exact Hd | now split].
    + intros _ H. apply (f_equal String.length) in H.
      rewrite append_length in H. simpl in H. lia.
    + rewrite parseInt_from_app, Hval. simpl. rewrite Hv.
      pose proof (N.div_mod x 10%N ltac:(lia)). lia.
Qed.

Lemma pretty_parse (n : Z) :
  0 <= n ->
  pretty n <> "" /\ all_digits (pretty n) /\ parseInt_from 0 (pretty n) = n.
Proof.
  intros Hn. destruct n as [|p|p]; [now repeat split | | lia].
  change (pretty (Z.pos p)) with (pretty (N.pos p)).
  unfold pretty, pretty_N. destruct (decide (N.pos p = 0%N)) as [E|_]; [discriminate E|].
  destruct (pretty_N_go_parse (N.pos p)) as (ds & Hgo & Hd & Hne & Hval).
  rewrite Hgo, append_nil_r. split; [apply Hne; lia|]. split; [exact Hd | exact Hval].
Qed.

Lemma Number_of_nat_nonneg (n : Z) : 0 <= n -> 0 <= Number_of_nat n.
Proof.
  intros Hn. unfold Number_of_nat, INFINITY.
  destruct (n <? 2 ^ 53); [exact Hn|]. cbv zeta.
  match goal with |- 0 <= (if ?c then _ else _) => destruct c end; [|lia].
  apply Z.shiftl_nonneg.
  assert (0 <= Z.shiftr n (Z.log2 n - 52)) by (now apply Z.shiftr_nonneg).
  destruct (_ || _); lia.
Qed.

(** C6. The files [importSource] goes through are the names of the listing
    that match the bank pattern, each once, ordered by kind
    (lexicographic) and then by bank index; names that do not match are
    left out.  The index is the Number [parseInt] makes of the digits: the
    number they spell below 2^53, the nearest Number with 53 bits beyond,
    so that the order is the numeric one up to 2^53 and does not tell
    apart larger indices that are the same Number.  Of [tag_bank_2.json],
    [tag_bank_1.json] and [term_bank_1.json] it makes [tag_bank_1],
    [tag_bank_2], [term_bank_1]; [term_bank_9007199254740993.json] listed
    before [term_bank_9007199254740992.json] stays before it. *)
Theorem bankFiles_selected_in_order (source : Source.t) :
  (forall b, In b (bankFiles source) <->
     exists name kind digits,
       In name (obj_keys (Source.list source))
       /\ bank_pattern name kind digits
       /\ b = Bank.mk kind name (parseInt digits))
  /\ Permutation (omap splitName (obj_keys (Source.list source))) (bankFiles source)
  /\ StronglySorted bank_le (bankFiles source)
  /\ List.map Bank.file
       (bankFiles (listing ["tag_bank_2.json"; "tag_bank_1.json"; "term_bank_1.json"]))
     = ["tag_bank_1.json"; "tag_bank_2.json"; "term_bank_1.json"]
  /\ (forall n, 0 <= n ->
        parseInt (pretty n) = Number_of_nat n
        /\ (n < 2 ^ 53 -> parseInt (pretty n) = n))
  /\ List.map Bank.file
       (bankFiles (listing ["term_bank_9007199254740993.json";
                            "term_bank_9007199254740992.json"]))
     = ["term_bank_9007199254740993.json"; "term_bank_9007199254740992.json"].
Proof.
  assert (Hperm : Permutation (omap splitName (obj_keys (Source.list source)))
                    (bankFiles source)) by apply sort_perm.
  split; [|split; [exact Hperm|split; [|split; [|split]]]].
  - intros b. rewrite <- list_elem_of_In, <- Hperm, list_elem_of_omap. split.
    + intros (name & Hin & Hs). apply splitName_pattern in Hs as (kind & digits & ? & ?).
      exists name, kind, digits. now rewrite <- list_elem_of_In.
    + intros (name & kind & digits & Hin & Hp & ->).
      exists name. split; [now apply list_elem_of_In|].
      apply splitName_pattern. eauto.
  - apply (@Sorted_StronglySorted _ bank_le bank_le_trans).
    eapply Sorted_ind with (P := Sorted bank_le);
      [constructor | | apply (sort_sorted compareFiles compareFiles_total)].
    intros a l _ IH Hhd. constructor; [exact IH|].
    destruct Hhd; constructor. now apply compareFiles_le.
  - reflexivity.
  - intros n Hn. destruct (pretty_parse n Hn) as (_ & _ & Hval).
    unfold parseInt. rewrite Hval. split; [reflexivity|].
    intros Hsmall. unfold Number_of_nat.
    destruct (Z.ltb_spec n (2 ^ 53)); [reflexivity | lia].
  - vm_compute. reflexivity.
Qed.

(** C6, as the specification has it, fails: the indices 9007199254740993
    and 9007199254740992 are the same Number, and the two files stay in the
    order of the listing, the greater index first. *)
Lemma bankFiles_large_indices_tie :
  parseInt_from 0 "9007199254740992" < parseInt_from 0 "9007199254740993"
  /\ List.map Bank.file
       (bankFiles (listing ["term_bank_9007199254740993.json";
                            "term_bank_9007199254740992.json"]))
     = ["term_bank_9007199254740993.json"; "term_bank_9007199254740992.json"].
Proof. split; vm_compute; reflexivity. Qed.

(** ** The index check *)

Lemma obj_get_absent (props : list (string * value)) (key : string) :
  obj_has key props = false -> obj_get props key = VUndefined.
Proof.
  induction props as [|[k v] props IH]; simpl; [reflexivity|].
  destruct (String.eqb k key); simpl; [discriminate | exact IH].
Qed.

Lemma obj_has_delete {V} (key : string) (props : list (string * V)) :
  obj_has key (obj_delete key props) = false.
Proof.
  induction props as [|[k v] props IH]; simpl; [reflexivity|].
  destruct (String.eqb k key) eqn:E; simpl; [exact IH | now rewrite E].
Qed.

Lemma importSource_no_index
    (sortTags : list Raw.Tag.t -> result (list Raw.Tag.t)) (source : Source.t) :
  truthy (obj_get (Source.list source) INDEX_NAME) = false ->
  importSource sortTags source = Throw (MissingIndexError source).
Proof. intros H. unfold importSource. now rewrite H. Qed.





(** C10. Whether the index is there is read off the truthiness of the
    listing's entry: a listing that has the key [index.json] with a falsy
    value ([false], [0], the empty string, [null], [undefined]) gets the
    error of a listing without the key. *)
Theorem falsy_index_entry_is_missing
    (sortTags : list Raw.Tag.t -> result (list Raw.Tag.t)) (source : Source.t) :
  obj_has INDEX_NAME (Source.list source) = true ->
  In (obj_get (Source.list source) INDEX_NAME)
     [VBool false; VNum 0; VStr ""; VNull; VUndefined] ->
  importSource sortTags source = Throw (MissingIndexError source)
  /\ importSource sortTags source = importSource sortTags (without_index source).
Proof.
  intros _ Hfalsy.
  assert (Hf : truthy (obj_get (Source.list source) INDEX_NAME) = false).
  { simpl in Hfalsy. destruct Hfalsy as [<-|[<-|[<-|[<-|[<-|[]]]]]]; reflexivity. }
  split; [now apply importSource_no_index|].
  rewrite !importSource_no_index; [reflexivity | | exact Hf].
  unfold without_index. simpl. now rewrite obj_get_absent by apply obj_has_delete.
Qed.

Lemma falsy_index_entry_is_missing_witness :
  importSource sortTags_codeunit archive_falsy_index
  = Throw (Error "importing falsy.zip: invalid file (missing index.json)").
Proof.
  refine (proj1 (falsy_index_entry_is_missing sortTags_codeunit archive_falsy_index _ _)).
  - reflexivity.
  - simpl. auto.
Defined.
(** ** Rows of the wrong arity *)











Lemma rfold_ext_in {A B} (f g : B -> A -> result B) (xs : list A) (acc : B) :
  (forall x acc', In x xs -> f acc' x = g acc' x) ->
  rfold f xs acc = rfold g xs acc.
Proof.
  revert acc. induction xs as [|x xs IH]; intros acc H; simpl; [reflexivity|].
  rewrite H by now left.
  destruct (g acc x); simpl; [|reflexivity].
  apply IH. intros; apply H; now right.
Qed.

Lemma bankFiles_splitName (source : Source.t) (b : Bank.t) :
  In b (bankFiles source) -> splitName (Bank.file b) = Some b.
Proof.
  intros Hin. apply list_elem_of_In in Hin.
  unfold bankFiles in Hin. rewrite <- sort_perm in Hin.
  apply list_elem_of_omap in Hin as (name & _ & Hs).
  pose proof Hs as Hs'.
  apply splitName_pattern in Hs' as (kind & digits & _ & ->). exact Hs.
Qed.



(** ** One resolution *)

Lemma probeId_suffix (tagName : string) (k : nat) :
  (2 <= k)%nat -> probeId tagName k = tagName +:+ "-" +:+ pretty k.
Proof. destruct k as [|[|k]]; [lia | lia | reflexivity]. Qed.

Lemma probeId_S (tagName : string) (k : nat) :
  (1 <= k)%nat -> tagName +:+ "-" +:+ pretty (S k) = probeId tagName (S k).
Proof. intros. now rewrite probeId_suffix by lia. Qed.

Lemma probeId_inj (tagName : string) (j k : nat) :
  (1 <= j)%nat -> (1 <= k)%nat ->
  probeId tagName j = probeId tagName k -> j = k.
Proof.
  intros Hj Hk.
  destruct (Nat.eq_dec j 1%nat) as [->|Hj1], (Nat.eq_dec k 1%nat) as [->|Hk1];
    [reflexivity | | |].
  - rewrite (probeId_suffix _ k) by lia. simpl. intros H.
    apply (f_equal String.length) in H. rewrite append_length in H.
    rewrite append_cons in H. simpl in H. lia.
  - rewrite (probeId_suffix _ j) by lia. simpl. intros H.
    apply (f_equal String.length) in H. rewrite append_length in H.
    rewrite append_cons in H. simpl in H. lia.
  - rewrite !probeId_suffix by lia. intros H.
    apply String.app_inj in H. rewrite !append_cons in H.
    injection H as H. rewrite !append_nil_l in H.
    now apply pretty_nat_inj in H.
Qed.

Lemma probeId_nonempty (tagName : string) (k : nat) :
  (2 <= k)%nat -> nonempty (probeId tagName k) = true.
Proof.
  intros Hk. rewrite probeId_suffix by lia. apply nonempty_true. intros H.
  apply (f_equal String.length) in H. rewrite append_length, append_cons in H.
  simpl in H. lia.
Qed.

(** What an iteration of the loop leaves behind. *)
Lemma probe_resolves (fuel : nat) (tag : Tag.t) (tagName : string) (used : bool)
    (counter : nat) (s : St.t) (id : string) (s' : St.t) :
  (1 <= counter)%nat ->
  probe fuel tag tagName used counter (probeId tagName counter) s = Some (id, s') ->
  resolves tag tagName (St.tags s) counter id (St.tags s')
  /\ St.mapped s' = <[tagName := id]> (St.mapped s)
  /\ St.tagUsage s'
     = if used then <[id := default 0 (St.tagUsage s !! id) + 1]> (St.tagUsage s)
       else St.tagUsage s.
Proof.
  revert counter. induction fuel as [|fuel IH]; intros counter Hc; simpl;
    [discriminate|].
  destruct (St.tags s !! probeId tagName counter) as [current|] eqn:Hcur.
  - destruct (canMerge tag current) eqn:Hcm.
    + destruct used; intros [= <- <-]; simpl;
        (split; [now apply resolves_merge with (occupant := current) | now split]).
    + rewrite probeId_S by exact Hc. intros Hp.
      destruct (IH (S counter) ltac:(lia) Hp) as (Hr & Hm & Hu).
      split; [|now split].
      now apply resolves_next with (occupant := current).
  - destruct used; intros [= <- <-]; simpl;
      (split; [now apply resolves_claim | now split]).
Qed.

(** The loop ends: the ids of the counters it passes are taken and all
    different. *)
Lemma probe_total_from (fuel : nat) (tag : Tag.t) (tagName : string) (used : bool)
    (counter : nat) (s : St.t) (taken : gset string) :
  (1 <= counter)%nat ->
  (forall j, (counter <= j)%nat ->
             is_Some (St.tags s !! probeId tagName j) -> probeId tagName j ∈ taken) ->
  (size taken < fuel)%nat ->
  is_Some (probe fuel tag tagName used counter (probeId tagName counter) s).
Proof.
  revert counter taken. induction fuel as [|fuel IH]; intros counter taken Hc Htaken Hsize;
    [lia|].
  simpl. destruct (St.tags s !! probeId tagName counter) as [current|] eqn:Hcur.
  - destruct (canMerge tag current); [destruct used; eexists; reflexivity|].
    rewrite probeId_S by exact Hc.
    assert (Hin : probeId tagName counter ∈ taken)
      by (apply Htaken; [lia | now rewrite Hcur]).
    apply (IH (S counter) (taken ∖ {[probeId tagName counter]})); [lia | |].
    + intros j Hj Hsome. apply elem_of_difference. split; [apply Htaken; [lia|exact Hsome]|].
      rewrite elem_of_singleton. intros Heq. apply probeId_inj in Heq; lia.
    + assert (size taken = size (taken ∖ {[probeId tagName counter]}) + 1)%nat; [|lia].
      rewrite (union_difference_singleton_L _ _ Hin) at 1.
      rewrite size_union; [rewrite size_singleton; lia|].
      apply elem_of_disjoint. intros x Hx. rewrite elem_of_difference. tauto.
  - destruct used; eexists; reflexivity.
Qed.

Lemma probe_total (tag : Tag.t) (tagName : string) (used : bool) (s : St.t) :
  is_Some (probe (S (size (St.tags s))) tag tagName used 1 tagName s).
Proof.
  apply (probe_total_from _ tag tagName used 1 s (dom (St.tags s))); [lia | |].
  - intros j _ Hsome. now apply elem_of_dom.
  - rewrite size_dom. lia.
Qed.

(** [mapTag] always returns. *)
Lemma mapTag_total (names : gmap string Tag.t) (tagName : string) (used : bool)
    (s : St.t) :
  is_Some (mapTag names tagName used s).
Proof.
  unfold mapTag. destruct (St.mapped s !! tagName) as [mappedId|];
    [destruct (nonempty mappedId); [destruct used; eexists; reflexivity|]|];
    apply probe_total.
Qed.

Lemma resolves_outcome (tag : Tag.t) (tagName : string) (tags : gmap string Tag.t)
    (counter : nat) (id : string) (tags' : gmap string Tag.t) :
  resolves tag tagName tags counter id tags' ->
  (tags !! id = None /\ tags' = <[id := tag]> tags)
  \/ (exists occupant,
        tags !! id = Some occupant /\ canMerge tag occupant = true
        /\ tags' = <[id := merge occupant tag]> tags).
Proof.
  induction 1 as [c Hfree | c o Ho Hcm | c o id tags' Ho Hcm _ IH];
    [left; now split | right; exists o; now repeat split | exact IH].
Qed.

Lemma resolves_counter (tag : Tag.t) (tagName : string) (tags : gmap string Tag.t)
    (counter : nat) (id : string) (tags' : gmap string Tag.t) :
  resolves tag tagName tags counter id tags' ->
  exists k, (counter <= k)%nat /\ id = probeId tagName k
    /\ forall j, (counter <= j < k)%nat ->
         exists occupant,
           tags !! probeId tagName j = Some occupant /\ canMerge tag occupant = false.
Proof.
  induction 1 as [c Hfree | c o Ho Hcm | c o id tags' Ho Hcm _ (k & Hk & -> & Hbefore)].
  - exists c. split; [lia|]. split; [reflexivity|]. intros; lia.
  - exists c. split; [lia|]. split; [reflexivity|]. intros; lia.
  - exists k. split; [lia|]. split; [reflexivity|]. intros j Hj.
    destruct (Nat.eq_dec j c) as [->|]; [now exists o|].
    apply Hbefore. lia.
Qed.

(** The two ways of [mapTag]: the id cached for the name in this
    dictionary, or a resolution against the shared namespace. *)
Lemma mapTag_cases (names : gmap string Tag.t) (tagName : string) (used : bool)
    (s : St.t) (id : string) (s' : St.t) :
  mapTag names tagName used s = Some (id, s') ->
  St.tagUsage s' = bump used id (St.tagUsage s)
  /\ ((St.mapped s !! tagName = Some id /\ nonempty id = true
       /\ St.tags s' = St.tags s /\ St.mapped s' = St.mapped s)
      \/ ((St.mapped s !! tagName = None \/ St.mapped s !! tagName = Some "")
          /\ resolves (candidate names tagName) tagName (St.tags s) 1 id (St.tags s')
          /\ St.mapped s' = <[tagName := id]> (St.mapped s))).
Proof.
  unfold mapTag.
  destruct (St.mapped s !! tagName) as [mappedId|] eqn:Hm.
  - destruct (nonempty mappedId) eqn:Hne.
    + destruct used; intros [= <- <-]; simpl; (split; [reflexivity|left; now repeat split]).
    + intros Hp. apply (probe_resolves _ _ _ _ 1) in Hp as (Hr & Hmap & Hu); [|lia].
      split; [exact Hu|]. right. split; [|now split].
      right. f_equal. unfold nonempty in Hne.
      now destruct (String.eqb_spec mappedId "").
  - intros Hp. apply (probe_resolves _ _ _ _ 1) in Hp as (Hr & Hmap & Hu); [|lia].
    split; [exact Hu|]. right. split; [now left|now split].
Qed.

(** ** Merging *)

Lemma or_str_spec (x y : string) :
  (x <> "" -> or_str x y = x) /\ (x = "" -> or_str x y = y).
Proof. unfold or_str. destruct (String.eqb_spec x ""); split; congruence. Qed.

Lemma or_num_spec (x y : Z) :
  (x <> 0 -> or_num x y = x) /\ (x = 0 -> or_num x y = y).
Proof. unfold or_num. destruct (Z.eqb_spec x 0); split; congruence. Qed.

(** What a call of [mapTag] does to the entries that are there. *)
Lemma mapTag_entries (names : gmap string Tag.t) (tagName : string) (used : bool)
    (s : St.t) (id : string) (s' : St.t) :
  mapTag names tagName used s = Some (id, s') ->
  forall i occupant,
    St.tags s !! i = Some occupant ->
    St.tags s' !! i = Some occupant
    \/ (i = id /\ canMerge (candidate names tagName) occupant = true
        /\ St.tags s' !! i = Some (merge occupant (candidate names tagName))).
Proof.
  intros Hm i occupant Hi.
  apply mapTag_cases in Hm as (_ & [(_ & _ & -> & _) | (_ & Hr & _)]); [now left|].
  apply resolves_outcome in Hr as [(Hnone & ->) | (o & Ho & Hcm & ->)].
  - left. rewrite lookup_insert_ne; [exact Hi | congruence].
  - destruct (decide (id = i)) as [->|Hne].
    + right. rewrite lookup_insert_eq. replace o with occupant in * by congruence.
      now repeat split.
    + left. now rewrite lookup_insert_ne.
Qed.



(** ** The invariant of the namespace *)

Lemma fills_refl (entry : Tag.t) : fills entry entry.
Proof. unfold fills. tauto. Qed.

Lemma fills_trans (a b c : Tag.t) : fills a b -> fills b c -> fills a c.
Proof.
  unfold fills. intros (Hn & Hc & Hd & Ho & Hs) (Hn' & Hc' & Hd' & Ho' & Hs').
  repeat split.
  - congruence.
  - intros H. rewrite <- (Hc H). apply Hc'. now rewrite (Hc H).
  - intros H. rewrite <- (Hd H). apply Hd'. now rewrite (Hd H).
  - intros H. rewrite <- (Ho H). apply Ho'. now rewrite (Ho H).
  - intros H. rewrite <- (Hs H). apply Hs'. now rewrite (Hs H).
Qed.

Lemma fills_merge (occupant tag : Tag.t) : fills occupant (merge occupant tag).
Proof.
  unfold fills, merge. simpl.
  pose proof (or_str_spec (Tag.category occupant) (Tag.category tag)).
  pose proof (or_str_spec (Tag.description occupant) (Tag.description tag)).
  pose proof (or_num_spec (Tag.order occupant) (Tag.order tag)).
  pose proof (or_num_spec (Tag.score occupant) (Tag.score tag)).
  intuition.
Qed.

Lemma absorbs_refl (tag : Tag.t) : absorbs tag tag.
Proof. unfold absorbs. tauto. Qed.

Lemma absorbs_fills (entry entry' tag : Tag.t) :
  absorbs entry tag -> fills entry entry' -> absorbs entry' tag.
Proof.
  unfold absorbs, fills. intros (Hc & Hd & Ho & Hs) (_ & Hc' & Hd' & Ho' & Hs').
  repeat split; intros H.
  - rewrite <- (Hc H). apply Hc'. now rewrite (Hc H).
  - rewrite <- (Hd H). apply Hd'. now rewrite (Hd H).
  - rewrite (Ho' (Ho H)). now apply Ho.
  - rewrite (Hs' (Hs H)). now apply Hs.
Qed.

Lemma canMerge_spec (tag current : Tag.t) :
  canMerge tag current = true <->
  (Tag.category tag = Tag.category current \/ Tag.category tag = ""
   \/ Tag.category current = "")
  /\ (Tag.description tag = Tag.description current \/ Tag.description tag = ""
      \/ Tag.description current = "").
Proof.
  unfold canMerge. rewrite andb_true_iff, !orb_true_iff, !String.eqb_eq. tauto.
Qed.

Lemma absorbs_merge (occupant tag : Tag.t) :
  canMerge tag occupant = true -> absorbs (merge occupant tag) tag.
Proof.
  rewrite canMerge_spec. unfold absorbs, merge. simpl.
  pose proof (or_str_spec (Tag.category occupant) (Tag.category tag)) as [Hc1 Hc2].
  pose proof (or_str_spec (Tag.description occupant) (Tag.description tag)) as [Hd1 Hd2].
  pose proof (or_num_spec (Tag.order occupant) (Tag.order tag)) as [Ho1 Ho2].
  pose proof (or_num_spec (Tag.score occupant) (Tag.score tag)) as [Hs1 Hs2].
  intros [Hc Hd]. repeat split; intros H.
  - destruct (String.eqb_spec (Tag.category occupant) "") as [E|E];
      [now apply Hc2 | rewrite (Hc1 E)]. destruct Hc as [?|[?|?]]; congruence.
  - destruct (String.eqb_spec (Tag.description occupant) "") as [E|E];
      [now apply Hd2 | rewrite (Hd1 E)]. destruct Hd as [?|[?|?]]; congruence.
  - destruct (Z.eq_dec (Tag.order occupant) 0) as [E|E];
      [now rewrite (Ho2 E) | now rewrite (Ho1 E)].
  - destruct (Z.eq_dec (Tag.score occupant) 0) as [E|E];
      [now rewrite (Hs2 E) | now rewrite (Hs1 E)].
Qed.

Lemma canMerge_synthesized (tagName : string) (current : Tag.t) :
  canMerge (synthesized tagName) current = true.
Proof. apply canMerge_spec. simpl. tauto. Qed.

Lemma candidate_name (names : gmap string Tag.t) (tagName : string) :
  names_ok names -> Tag.name (candidate names tagName) = tagName.
Proof.
  intros Hn. unfold candidate.
  destruct (names !! tagName) as [t|] eqn:E; simpl; [now apply Hn | reflexivity].
Qed.

Lemma byName_names_ok (tags : list Tag.t) : names_ok (byName tags).
Proof.
  unfold byName.
  assert (H : names_ok (∅ : gmap string Tag.t))
    by (intros n t Hn; now rewrite lookup_empty in Hn).
  revert H. generalize (∅ : gmap string Tag.t).
  induction tags as [|t tags IH]; intros m Hm; simpl; [exact Hm|].
  apply IH. intros n t' H.
  destruct (decide (Tag.name t = n)) as [<-|Hne].
  - rewrite lookup_insert_eq in H. congruence.
  - rewrite lookup_insert_ne in H by exact Hne. now apply Hm.
Qed.

Lemma extends_refl (s : St.t) : extends s s.
Proof.
  split; [|intros; lia]. intros id entry H. exists entry. split; [exact H|apply fills_refl].
Qed.

Lemma extends_trans (a b c : St.t) : extends a b -> extends b c -> extends a c.
Proof.
  intros [Ht Hu] [Ht' Hu']. split.
  - intros id e He. destruct (Ht id e He) as (e' & He' & Hf).
    destruct (Ht' id e' He') as (e'' & He'' & Hf').
    exists e''. split; [exact He''|]. eapply fills_trans; eassumption.
  - intros id. specialize (Hu id). specialize (Hu' id). lia.
Qed.

Lemma resolved_to_extends (names : gmap string Tag.t) (s s' : St.t) (x y : string) :
  resolved_to names s x y -> extends s s' -> resolved_to names s' x y.
Proof.
  intros (Hid & Hun & e & He & Ha) [Ht _].
  destruct (Ht y e He) as (e' & He' & Hf).
  split; [exact Hid|]. split; [exact Hun|].
  exists e'. split; [exact He'|]. eapply absorbs_fills; eassumption.
Qed.

Lemma referenced_to_extends (names : gmap string Tag.t) (s s' : St.t) (x y : string) :
  referenced_to names s x y -> extends s s' -> referenced_to names s' x y.
Proof.
  intros [Hr Hu] Hext. split; [eapply resolved_to_extends; eassumption|].
  destruct Hext as [_ Hle]. specialize (Hle y). lia.
Qed.

Lemma usage_bump (used : bool) (id : string) (s s' : St.t) :
  St.tagUsage s' = bump used id (St.tagUsage s) ->
  (forall i, 0 <= usage s i) ->
  (forall i, usage s i <= usage s' i)
  /\ (forall i, 0 <= usage s' i)
  /\ (used = true -> 0 < usage s' id).
Proof.
  intros Hu Hpos. unfold usage in *. rewrite Hu. unfold bump.
  destruct used.
  - assert (Hi : forall i, default 0 (St.tagUsage s !! i)
               <= default 0 (<[id := default 0 (St.tagUsage s !! id) + 1]>
                               (St.tagUsage s) !! i)).
    { intros i. destruct (decide (id = i)) as [->|Hne].
      - rewrite lookup_insert_eq. simpl. lia.
      - rewrite lookup_insert_ne by exact Hne. lia. }
    split; [exact Hi|]. split.
    + intros i. specialize (Hi i). specialize (Hpos i). lia.
    + intros _. rewrite lookup_insert_eq. simpl. specialize (Hpos id). lia.
  - split; [intros; lia|]. split; [exact Hpos | discriminate].
Qed.

(** A call of [mapTag] returns, keeps the invariant, only extends the
    state, and leaves its name resolved to the id it returns. *)
Lemma mapTag_step (P : string -> Prop) (names : gmap string Tag.t)
    (tagName : string) (used : bool) (s : St.t) :
  names_ok names -> dict_inv P names s -> P tagName ->
  exists id s',
    mapTag names tagName used s = Some (id, s')
    /\ dict_inv P names s' /\ extends s s'
    /\ resolved_to names s' tagName id
    /\ (used = true -> 0 < usage s' id).
Proof.
  intros Hnames (Hns & Hpos & Hmapped) HP.
  destruct (mapTag_total names tagName used s) as [[id s'] Hm].
  exists id, s'. split; [exact Hm|].
  pose proof (mapTag_cases _ _ _ _ _ _ Hm) as (Hu & Hcase).
  destruct (usage_bump used id s s' Hu Hpos) as (Hle & Hpos' & Hused).
  destruct Hcase as [(Hc & Hne & Ht & Hmp) | (_ & Hr & Hmp)].
  - assert (Hext : extends s s').
    { split; [|exact Hle]. intros i e He. exists e. rewrite Ht.
      split; [exact He | apply fills_refl]. }
    split.
    { split; [rewrite Ht; exact Hns|]. split; [exact Hpos'|].
      intros n' id' H'. rewrite Hmp in H'.
      eapply resolved_to_extends; [apply Hmapped; exact H' | exact Hext]. }
    split; [exact Hext|].
    split; [eapply resolved_to_extends; [apply Hmapped; exact Hc | exact Hext]
           | exact Hused].
  - set (cand := candidate names tagName) in *.
    pose proof (resolves_counter _ _ _ _ _ _ Hr) as (k & Hk & Hid & Hbefore).
    assert (Hidof : id_of tagName id) by (exists k; split; [lia | exact Hid]).
    assert (Hundef : names !! tagName = None -> id = tagName).
    { intros Hnone. destruct (Nat.eq_dec k 1%nat) as [->|Hk1]; [exact Hid|].
      destruct (Hbefore 1%nat ltac:(lia)) as (o & _ & Hno).
      unfold cand, candidate in Hno. rewrite Hnone in Hno. simpl in Hno.
      rewrite canMerge_synthesized in Hno. discriminate. }
    pose proof (resolves_outcome _ _ _ _ _ _ Hr) as Hout.
    assert (Hentry : exists e', St.tags s' !! id = Some e' /\ absorbs e' cand
                                /\ P (Tag.name e') /\ id_of (Tag.name e') id).
    { destruct Hout as [(Hnone & ->) | (o & Ho & Hcm & ->)].
      - exists cand. rewrite lookup_insert_eq. split; [reflexivity|].
        split; [apply absorbs_refl|]. unfold cand.
        rewrite candidate_name by exact Hnames. now split.
      - exists (merge o cand). rewrite lookup_insert_eq. split; [reflexivity|].
        split; [now apply absorbs_merge|]. exact (Hns id o Ho). }
    assert (Hother : forall i, i <> id -> St.tags s' !! i = St.tags s !! i).
    { destruct Hout as [(_ & ->) | (o & _ & _ & ->)]; intros;
        apply lookup_insert_ne; congruence. }
    assert (Hfill : forall e, St.tags s !! id = Some e ->
                      exists e', St.tags s' !! id = Some e' /\ fills e e').
    { destruct Hout as [(Hnone & _) | (o & Ho & Hcm & ->)]; intros e He; [congruence|].
      exists (merge o cand). rewrite lookup_insert_eq. split; [reflexivity|].
      replace e with o by congruence. apply fills_merge. }
    assert (Hext : extends s s').
    { split; [|exact Hle]. intros i e He.
      destruct (decide (i = id)) as [->|Hne]; [now apply Hfill|].
      exists e. rewrite Hother by exact Hne. split; [exact He | apply fills_refl]. }
    assert (Hres : resolved_to names s' tagName id).
    { destruct Hentry as (e' & He' & Ha & _).
      split; [exact Hidof|]. split; [exact Hundef|]. exists e'. now split. }
    split.
    { split.
      { intros i e He. destruct (decide (i = id)) as [->|Hne].
        - destruct Hentry as (e' & He' & _ & Hok). replace e with e' by congruence.
          exact Hok.
        - rewrite Hother in He by exact Hne. exact (Hns i e He). }
      split; [exact Hpos'|]. intros n' id' H'. rewrite Hmp in H'.
      destruct (decide (tagName = n')) as [<-|Hne].
      - rewrite lookup_insert_eq in H'. injection H' as <-. exact Hres.
      - rewrite lookup_insert_ne in H' by exact Hne.
        eapply resolved_to_extends; [apply Hmapped; exact H' | exact Hext]. }
    split; [exact Hext|]. split; [exact Hres | exact Hused].
Qed.

(** The rule for [xs.map(f)]: an invariant [I] the calls keep, a relation
    [R] between an element and its image that later states keep. *)
Lemma mapM_step {A B} (f : A -> M B) (I : St.t -> Prop)
    (R : St.t -> A -> B -> Prop) (xs : list A) (s : St.t) :
  (forall s s' x y, R s x y -> extends s s' -> R s' x y) ->
  (forall x s, In x xs -> I s ->
     exists y s', f x s = Some (y, s') /\ I s' /\ extends s s' /\ R s' x y) ->
  I s ->
  exists ys s',
    mapM f xs s = Some (ys, s') /\ I s' /\ extends s s' /\ Forall2 (R s') xs ys.
Proof.
  intros Hstable. revert s. induction xs as [|x xs IH]; intros s Hf HI; simpl.
  - exists [], s. split; [reflexivity|]. split; [exact HI|].
    split; [apply extends_refl | constructor].
  - destruct (Hf x s (or_introl eq_refl) HI) as (y & s1 & Hx & HI1 & He1 & HR).
    destruct (IH s1 (fun x' s' Hin => Hf x' s' (or_intror Hin)) HI1)
      as (ys & s2 & Hxs & HI2 & He2 & HRs).
    exists (y :: ys), s2. unfold bind, ret. rewrite Hx, Hxs.
    split; [reflexivity|]. split; [exact HI2|].
    split; [eapply extends_trans; eassumption|].
    constructor; [eapply Hstable; eassumption | exact HRs].
Qed.

(** ** Objects as property lists *)

Section ObjectFacts.
Context {V : Type}.
Implicit Types (props : list (string * V)) (key : string) (v : V).

Lemma obj_has_In key props : obj_has key props = true <-> In key (obj_keys props).
Proof.
  induction props as [|[k w] props IH]; simpl; [split; [discriminate|tauto]|].
  rewrite orb_true_iff, IH, String.eqb_eq. tauto.
Qed.

Lemma obj_replace_keys key v props :
  obj_keys (obj_replace key v props) = obj_keys props.
Proof.
  induction props as [|[k w] props IH]; simpl; [reflexivity|].
  destruct (String.eqb k key); simpl; [reflexivity | now rewrite IH].
Qed.

Lemma obj_replace_In key v props (p : string * V) :
  In p (obj_replace key v props) -> p = (key, v) \/ In p props.
Proof.
  induction props as [|[k w] props IH]; simpl; [tauto|].
  destruct (String.eqb_spec k key) as [->|]; simpl; intuition.
Qed.

Lemma obj_add_index_In (n : Z) key v props (p : string * V) :
  In p (obj_add_index n key v props) <-> p = (key, v) \/ In p props.
Proof.
  induction props as [|[k w] props IH]; simpl; [intuition|].
  destruct (array_index k) as [m|]; [destruct (m <? n)|]; simpl; rewrite ?IH; intuition.
Qed.

Lemma obj_set_In key v props (p : string * V) :
  In p (obj_set key v props) -> p = (key, v) \/ In p props.
Proof.
  unfold obj_set. destruct (String.eqb key "__proto__"); [tauto|].
  destruct (obj_has key props); [apply obj_replace_In|].
  destruct (array_index key).
  - now rewrite obj_add_index_In.
  - rewrite in_app_iff. simpl. intuition.
Qed.

Lemma obj_set_no_proto key v props :
  ~ In "__proto__" (obj_keys props) -> ~ In "__proto__" (obj_keys (obj_set key v props)).
Proof.
  intros Hn Hin. apply Hn. unfold obj_keys in *. rewrite in_map_iff in *.
  destruct Hin as ([k w] & Hk & Hin). simpl in Hk. subst k.
  destruct (String.eqb_spec key "__proto__") as [->|Hne].
  - exists ("__proto__", w). split; [reflexivity | exact Hin].
  - apply obj_set_In in Hin as [Heq|Hin]; [congruence|].
    exists ("__proto__", w). split; [reflexivity | exact Hin].
Qed.

Lemma obj_set_keys_old key v props (k : string) :
  In k (obj_keys props) -> In k (obj_keys (obj_set key v props)).
Proof.
  unfold obj_set. destruct (String.eqb key "__proto__"); [tauto|].
  destruct (obj_has key props); [now rewrite obj_replace_keys|].
  unfold obj_keys. rewrite !in_map_iff. intros ([k' w] & <- & Hin).
  exists (k', w). split; [reflexivity|].
  destruct (array_index key); [apply obj_add_index_In | apply in_app_iff]; tauto.
Qed.

Lemma obj_set_keys_new key v props :
  key <> "__proto__" -> In key (obj_keys (obj_set key v props)).
Proof.
  intros Hk. unfold obj_set. destruct (String.eqb_spec key "__proto__"); [contradiction|].
  destruct (obj_has key props) eqn:Hhas.
  - rewrite obj_replace_keys. now apply obj_has_In.
  - unfold obj_keys. rewrite in_map_iff. exists (key, v). split; [reflexivity|].
    destruct (array_index key); [apply obj_add_index_In | apply in_app_iff; simpl]; tauto.
Qed.
End ObjectFacts.

(** ** One dictionary *)

Lemma Forall2_mono {A B} (R R' : A -> B -> Prop) (xs : list A) (ys : list B) :
  (forall x y, R x y -> R' x y) -> Forall2 R xs ys -> Forall2 R' xs ys.
Proof. intros H. induction 1; constructor; auto. Qed.

Lemma term_rewritten_mono (R R' : string -> string -> Prop) (it it' : Term.t) :
  (forall x y, R x y -> R' x y) -> term_rewritten R it it' -> term_rewritten R' it it'.
Proof.
  intros H (? & ? & ? & ? & ? & H1 & H2 & H3).
  repeat split; try assumption; eapply Forall2_mono; eassumption.
Qed.

Lemma stats_rewritten_mono (R R' : string -> string -> Prop)
    (stats stats' : list (string * string)) :
  (forall x y, R x y -> R' x y) ->
  stats_rewritten R stats stats' -> stats_rewritten R' stats stats'.
Proof.
  intros H (H1 & H2 & H3). split; [|split; [|exact H3]].
  - intros key Hk. destruct (H1 key Hk) as (id & ? & ?). exists id. auto.
  - intros id v Hi. destruct (H2 id v Hi) as (key & ? & ?). exists key. auto.
Qed.

Lemma kanji_rewritten_mono (R R' : string -> string -> Prop) (it it' : Kanji.t) :
  (forall x y, R x y -> R' x y) -> kanji_rewritten R it it' -> kanji_rewritten R' it it'.
Proof.
  intros H (? & ? & ? & ? & H1 & H2).
  split; [assumption|]. split; [assumption|]. split; [assumption|].
  split; [assumption|]. split; [eapply Forall2_mono; eassumption|].
  eapply stats_rewritten_mono; eassumption.
Qed.

Lemma dict_rewritten_mono (D D' R R' : gmap string Tag.t -> string -> string -> Prop)
    (dict dict' : Dictionary.t) :
  (forall names x y, D names x y -> D' names x y) ->
  (forall names x y, R names x y -> R' names x y) ->
  dict_rewritten D R dict dict' -> dict_rewritten D' R' dict dict'.
Proof.
  intros HD HR. unfold dict_rewritten.
  destruct (Dictionary.tags dict) as [|t ts]; [trivial|].
  cbv zeta. intros (? & ? & ? & ? & Hd & Ht & Hk).
  split; [assumption|]. split; [assumption|]. split; [assumption|].
  split; [assumption|]. split; [|split].
  - eapply Forall_impl; [exact Hd|]. intros t' (id & Hid). exists id. now apply HD.
  - eapply Forall2_mono; [|exact Ht]. intros x y. apply term_rewritten_mono, HR.
  - eapply Forall2_mono; [|exact Hk]. intros x y. apply kanji_rewritten_mono, HR.
Qed.

Section OneDictionary.
Variables (P : string -> Prop) (names : gmap string Tag.t).
Hypothesis Hnames : names_ok names.

Lemma mapRefs_step (xs : list string) (s : St.t) :
  dict_inv P names s -> (forall x, In x xs -> P x) ->
  exists ys s',
    mapM (fun x => mapTag names x true) xs s = Some (ys, s')
    /\ dict_inv P names s' /\ extends s s'
    /\ Forall2 (referenced_to names s') xs ys.
Proof.
  intros Hinv HP.
  apply (mapM_step _ (dict_inv P names) (referenced_to names)); [| |exact Hinv].
  - intros. eapply referenced_to_extends; eassumption.
  - intros x s0 Hin Hs0.
    destruct (mapTag_step P names x true s0 Hnames Hs0 (HP x Hin))
      as (y & s' & Hm & Hi & He & Hr & Hu).
    exists y, s'. split; [exact Hm|]. split; [exact Hi|]. split; [exact He|].
    split; [exact Hr | now apply Hu].
Qed.

Lemma mapTerm_step (it : Term.t) (s : St.t) :
  dict_inv P names s -> (forall x, In x (term_refs it) -> P x) ->
  exists it' s',
    mapTerm names it s = Some (it', s')
    /\ dict_inv P names s' /\ extends s s'
    /\ term_rewritten (referenced_to names s') it it'.
Proof.
  intros Hinv HP. unfold term_refs in HP. unfold mapTerm, bind, ret.
  destruct (mapRefs_step (Term.term_tags it) s Hinv) as (tt & s1 & -> & Hi1 & He1 & Hr1);
    [intros; apply HP; rewrite !in_app_iff; tauto|].
  destruct (mapRefs_step (Term.definition_tags it) s1 Hi1)
    as (dt & s2 & -> & Hi2 & He2 & Hr2);
    [intros; apply HP; rewrite !in_app_iff; tauto|].
  destruct (mapRefs_step (Term.rules it) s2 Hi2) as (rs & s3 & -> & Hi3 & He3 & Hr3);
    [intros; apply HP; rewrite !in_app_iff; tauto|].
  eexists _, s3. split; [reflexivity|]. split; [exact Hi3|].
  split; [eapply extends_trans; [eapply extends_trans|]; eassumption|].
  repeat split; simpl; try reflexivity.
  - eapply Forall2_mono; [|exact Hr1]. intros x y Hxy.
    eapply referenced_to_extends; [exact Hxy|]. eapply extends_trans; eassumption.
  - eapply Forall2_mono; [|exact Hr2]. intros x y Hxy.
    eapply referenced_to_extends; eassumption.
  - exact Hr3.
Qed.

Lemma mapStats_step (stats mappedStats : list (string * string)) (s : St.t) :
  dict_inv P names s -> (forall x, In x (obj_keys stats) -> P x) ->
  exists stats' s',
    mapStats names stats mappedStats s = Some (stats', s')
    /\ dict_inv P names s' /\ extends s s'
    /\ (forall key, In key (obj_keys stats) ->
          exists id, referenced_to names s' key id
                     /\ (id <> "__proto__" -> In id (obj_keys stats')))
    /\ (forall k, In k (obj_keys mappedStats) -> In k (obj_keys stats'))
    /\ (forall id v, In (id, v) stats' ->
          In (id, v) mappedStats
          \/ exists key, In (key, v) stats /\ referenced_to names s' key id)
    /\ (~ In "__proto__" (obj_keys mappedStats) -> ~ In "__proto__" (obj_keys stats')).
Proof.
  revert mappedStats s. induction stats as [|[key v] stats IH]; intros acc s Hinv HP.
  - exists acc, s. simpl. split; [reflexivity|]. split; [exact Hinv|].
    split; [apply extends_refl|]. split; [intros ? []|]. split; [tauto|].
    split; tauto.
  - simpl. unfold bind.
    destruct (mapTag_step P names key true s Hnames Hinv (HP key (or_introl eq_refl)))
      as (id & s1 & -> & Hi1 & He1 & Hr1 & Hu1).
    destruct (IH (obj_set id v acc) s1 Hi1 (fun x Hx => HP x (or_intror Hx)))
      as (stats' & s2 & -> & Hi2 & He2 & Hkeys & Hacc & Hpairs & Hproto').
    assert (Hkey : referenced_to names s2 key id).
    { eapply referenced_to_extends; [|exact He2]. split; auto. }
    exists stats', s2. split; [reflexivity|]. split; [exact Hi2|].
    split; [eapply extends_trans; eassumption|].
    split; [|split; [|split; [|intros Hn; now apply Hproto', obj_set_no_proto]]].
    + intros k [<-|Hk]; [|now apply Hkeys].
      exists id. split; [exact Hkey|]. intros Hproto.
      now apply Hacc, obj_set_keys_new.
    + intros k Hk. now apply Hacc, obj_set_keys_old.
    + intros id' v' Hin. destruct (Hpairs id' v' Hin) as [Hset|(key' & Hk' & Hr')].
      * apply obj_set_In in Hset as [[= -> ->]|Hold]; [|now left].
        right. exists key. split; [now left | exact Hkey].
      * right. exists key'. split; [now right | exact Hr'].
Qed.

Lemma mapKanji_step (it : Kanji.t) (s : St.t) :
  dict_inv P names s -> (forall x, In x (kanji_refs it) -> P x) ->
  exists it' s',
    mapKanji names it s = Some (it', s')
    /\ dict_inv P names s' /\ extends s s'
    /\ kanji_rewritten (referenced_to names s') it it'.
Proof.
  intros Hinv HP. unfold kanji_refs in HP. unfold mapKanji, bind, ret.
  destruct (mapRefs_step (Kanji.tags it) s Hinv) as (ts & s1 & -> & Hi1 & He1 & Hr1);
    [intros; apply HP; rewrite in_app_iff; tauto|].
  destruct (mapStats_step (Kanji.stats it) [] s1 Hi1)
    as (stats' & s2 & -> & Hi2 & He2 & Hkeys & _ & Hpairs & Hproto);
    [intros; apply HP; rewrite in_app_iff; tauto|].
  eexists _, s2. split; [reflexivity|]. split; [exact Hi2|].
  split; [eapply extends_trans; eassumption|].
  split; [reflexivity|]. split; [reflexivity|]. split; [reflexivity|].
  split; [reflexivity|]. simpl. split; [|split; [|split]].
  - eapply Forall2_mono; [|exact Hr1]. intros x y Hxy.
    eapply referenced_to_extends; eassumption.
  - exact Hkeys.
  - intros id v Hin. destruct (Hpairs id v Hin) as [[]|H]. exact H.
  - apply Hproto. simpl. tauto.
Qed.
End OneDictionary.

Lemma extends_reset (s : St.t) : extends s (St.mk (St.tags s) (St.tagUsage s) ∅).
Proof.
  split; [|intros; unfold usage; simpl; lia].
  intros id e He. exists e. split; [exact He | apply fills_refl].
Qed.

Lemma Forall2_Forall_l {A B} (R : A -> B -> Prop) (Q : A -> Prop)
    (xs : list A) (ys : list B) :
  (forall x y, R x y -> Q x) -> Forall2 R xs ys -> Forall Q xs.
Proof. intros H. induction 1; constructor; eauto. Qed.

(** The body of the loop over the dictionaries. *)
Lemma mergeDict_step (P : string -> Prop) (dict : Dictionary.t) (s : St.t) :
  run_inv P s ->
  (Dictionary.tags dict <> [] -> forall n, mentions dict n -> P n) ->
  exists dict' s',
    mergeDict dict s = Some (dict', s')
    /\ run_inv P s' /\ extends s s'
    /\ dict_rewritten (fun names => resolved_to names s')
         (fun names => referenced_to names s') dict dict'.
Proof.
  intros [Hns Hpos] HP. unfold mergeDict, dict_rewritten.
  destruct (Dictionary.tags dict) as [|t ts] eqn:Etags.
  - exists dict, s. split; [reflexivity|]. split; [now split|].
    split; [apply extends_refl | reflexivity].
  - specialize (HP ltac:(discriminate)).
    set (names := byName (t :: ts)).
    pose proof (byName_names_ok (t :: ts)) as Hnames. fold names in Hnames.
    set (s0 := St.mk (St.tags s) (St.tagUsage s) ∅).
    assert (Hinv0 : dict_inv P names s0).
    { split; [exact Hns|]. split; [exact Hpos|].
      intros n id H. simpl in H. now rewrite lookup_empty in H. }
    destruct (mapM_step (fun it => mapTag names (Tag.name it) false)
                (dict_inv P names)
                (fun s it y => resolved_to names s (Tag.name it) y) (t :: ts) s0)
      as (ids & s1 & Hm1 & Hi1 & He1 & Hr1).
    { intros. eapply resolved_to_extends; eassumption. }
    { intros it s' Hin Hs'.
      destruct (mapTag_step P names (Tag.name it) false s' Hnames Hs')
        as (y & s'' & ? & ? & ? & ? & _).
      - apply HP. left. rewrite Etags. now apply in_map.
      - exists y, s''. auto. }
    { exact Hinv0. }
    destruct (mapM_step (mapTerm names) (dict_inv P names)
                (fun s => term_rewritten (referenced_to names s))
                (Dictionary.terms dict) s1)
      as (terms & s2 & Hm2 & Hi2 & He2 & Hr2).
    { intros s' s'' x y Hxy Hext. eapply term_rewritten_mono; [|exact Hxy].
      intros. eapply referenced_to_extends; eassumption. }
    { intros it s' Hin Hs'. apply mapTerm_step; [exact Hnames | exact Hs' |].
      intros x Hx. apply HP. right. unfold references. rewrite in_app_iff. left.
      apply in_flat_map. now exists it. }
    { exact Hi1. }
    destruct (mapM_step (mapKanji names) (dict_inv P names)
                (fun s => kanji_rewritten (referenced_to names s))
                (Dictionary.kanji dict) s2)
      as (kanji & s3 & Hm3 & Hi3 & He3 & Hr3).
    { intros s' s'' x y Hxy Hext. eapply kanji_rewritten_mono; [|exact Hxy].
      intros. eapply referenced_to_extends; eassumption. }
    { intros it s' Hin Hs'. apply mapKanji_step; [exact Hnames | exact Hs' |].
      intros x Hx. apply HP. right. unfold references. rewrite in_app_iff. right.
      apply in_flat_map. now exists it. }
    { exact Hi2. }
    eexists _, s3. unfold bind, ret. fold s0. rewrite Hm1, Hm2, Hm3.
    split; [reflexivity|].
    split; [destruct Hi3 as (? & ? & _); now split|].
    split.
    { eapply extends_trans; [apply extends_reset|]. fold s0.
      eapply extends_trans; [exact He1|]. eapply extends_trans; eassumption. }
    simpl. split; [reflexivity|]. split; [reflexivity|].
    split; [reflexivity|]. split; [reflexivity|]. split; [|split].
    + eapply Forall2_Forall_l; [|exact Hr1]. intros it y Hy. exists y.
      eapply resolved_to_extends; [exact Hy|]. eapply extends_trans; eassumption.
    + eapply Forall2_mono; [|exact Hr2]. intros x y Hxy.
      eapply term_rewritten_mono; [|exact Hxy].
      intros. eapply referenced_to_extends; eassumption.
    + exact Hr3.
Qed.

(** The whole loop. *)
Lemma merge_run (dictionaries : list Dictionary.t) :
  exists dictionaries' s,
    mapM mergeDict dictionaries (St.mk ∅ ∅ ∅) = Some (dictionaries', s)
    /\ run_inv (mentioned dictionaries) s
    /\ Forall2 (dict_rewritten (fun names => resolved_to names s)
                  (fun names => referenced_to names s)) dictionaries dictionaries'.
Proof.
  destruct (mapM_step mergeDict (run_inv (mentioned dictionaries))
              (fun s => dict_rewritten (fun names => resolved_to names s)
                          (fun names => referenced_to names s))
              dictionaries (St.mk ∅ ∅ ∅))
    as (ds' & s & Hm & Hi & _ & Hr).
  - intros s s' d d' Hd Hext. eapply dict_rewritten_mono; [| |exact Hd].
    + intros names x y Hxy. cbv beta in *. eapply resolved_to_extends; eassumption.
    + intros names x y Hxy. cbv beta in *. eapply referenced_to_extends; eassumption.
  - intros d s Hin Hs.
    destruct (mergeDict_step (mentioned dictionaries) d s Hs)
      as (d' & s' & ? & ? & ? & ?); [|exists d', s'; auto].
    intros Hne n Hn. now exists d.
  - split.
    + intros id e H. simpl in H. now rewrite lookup_empty in H.
    + intros id. unfold usage. simpl. rewrite lookup_empty. simpl. lia.
  - exists ds', s. auto.
Qed.

(** ** The returned namespace *)

Lemma cleanup_lookup (args : Args.t) (s : St.t) (id : string) (entry : Tag.t) :
  cleanup args s !! id = Some entry <->
  St.tags s !! id = Some entry /\ deleted args (St.tagUsage s) (id, entry) = false.
Proof. unfold cleanup. apply map_lookup_filter_Some. Qed.

Lemma deleted_false (args : Args.t) (s : St.t) (id : string) (entry : Tag.t) :
  Args.deleteEmpty args = false \/ isEmpty entry = false ->
  Args.deleteUnused args = false \/ 0 < usage s id ->
  deleted args (St.tagUsage s) (id, entry) = false.
Proof.
  intros He Hu. unfold deleted, isUnused. simpl. apply orb_false_iff. split.
  - destruct He as [->| ->]; [reflexivity | apply andb_false_r].
  - destruct Hu as [->|Hu]; [reflexivity|]. apply andb_false_iff. right.
    unfold usage in Hu. apply Z.eqb_neq. lia.
Qed.

Lemma absorbs_nonempty (entry tag : Tag.t) :
  absorbs entry tag -> isEmpty tag = false -> isEmpty entry = false.
Proof.
  unfold absorbs, isEmpty. intros (Hc & Hd & Ho & Hs).
  rewrite !negb_false_iff, !orb_true_iff, !negb_true_iff, !Z.eqb_neq.
  unfold nonempty. rewrite !negb_true_iff, !String.eqb_neq.
  intros [[[H|H]|H]|H].
  - left; left; left. now rewrite (Hc H).
  - left; left; right. now rewrite (Hd H).
  - left; right. now apply Ho.
  - right. now apply Hs.
Qed.

Lemma id_of_cases (tagName id : string) :
  id_of tagName id ->
  id = tagName \/ exists k : nat, (2 <= k)%nat /\ id = tagName +:+ "-" +:+ pretty k.
Proof.
  intros (k & Hk & ->). destruct (Nat.eq_dec k 1%nat) as [->|]; [now left|].
  right. exists k. split; [lia|]. apply probeId_suffix. lia.
Qed.

Lemma Forall2_In_l {A B} (R : A -> B -> Prop) (xs : list A) (ys : list B) (x : A) :
  Forall2 R xs ys -> In x xs -> exists y, In y ys /\ R x y.
Proof.
  induction 1 as [|x' y' xs ys Hxy _ IH]; simpl; [tauto|].
  intros [<-|Hin]; [exists y'; auto|].
  destruct (IH Hin) as (y & ? & ?). exists y. auto.
Qed.

Lemma cleanup_kept_or_empty (args : Args.t) (s : St.t) (names : gmap string Tag.t)
    (x y : string) (entry : Tag.t) :
  St.tags s !! y = Some entry -> absorbs entry (candidate names x) ->
  Args.deleteUnused args = false \/ 0 < usage s y ->
  kept_or_empty args (cleanup args s) names x y.
Proof.
  intros He Ha Hu.
  destruct (Args.deleteEmpty args && isEmpty entry) eqn:Hdel.
  - right. apply andb_true_iff in Hdel as [Hde Hee]. split; [exact Hde|]. split.
    + destruct (isEmpty (candidate names x)) eqn:Hc; [reflexivity|].
      rewrite (absorbs_nonempty _ _ Ha Hc) in Hee. discriminate.
    + destruct (cleanup args s !! y) as [e'|] eqn:Hl; [|reflexivity].
      apply cleanup_lookup in Hl as [He' Hd]. replace e' with entry in Hd by congruence.
      unfold deleted in Hd. simpl in Hd. rewrite Hde, Hee in Hd. discriminate.
  - left. exists entry. split; [|exact Ha]. apply cleanup_lookup.
    split; [exact He|]. apply deleted_false; [|exact Hu].
    apply andb_false_iff in Hdel. tauto.
Qed.

Lemma kept_if_content (args : Args.t) (ns names : gmap string Tag.t) (x y : string) :
  kept_or_empty args ns names x y ->
  Args.deleteEmpty args = false \/ isEmpty (candidate names x) = false ->
  exists entry, ns !! y = Some entry /\ absorbs entry (candidate names x).
Proof.
  intros [H|(Hd & He & _)] Hc; [exact H|]. destruct Hc; congruence.
Qed.

(** [mergeTags] returns, with every dictionary rewritten against the
    namespace it returns. *)
Lemma mergeTags_result (dictionaries : list Dictionary.t) (args : Args.t) :
  exists ns dictionaries',
    mergeTags dictionaries args = Some (ns, dictionaries')
    /\ namespace_ok (mentioned dictionaries) ns
    /\ Forall2 (dict_rewritten (defined_in_namespace args ns) (in_namespace args ns))
         dictionaries dictionaries'.
Proof.
  destruct (merge_run dictionaries) as (ds' & s & Hm & [Hns Hpos] & Hr).
  exists (cleanup args s), ds'. unfold mergeTags. rewrite Hm.
  split; [reflexivity|]. split.
  - intros id e He. apply cleanup_lookup in He as [He _]. exact (Hns id e He).
  - eapply Forall2_mono; [|exact Hr]. intros d d'. apply dict_rewritten_mono.
    + intros names x y (Hid & _ & e & He & Ha). split; [exact Hid|].
      intros Hunused. eapply cleanup_kept_or_empty; eauto.
    + intros names x y [(Hid & Hundef & e & He & Ha) Hused].
      split; [exact Hid|]. split; [exact Hundef|].
      eapply cleanup_kept_or_empty; eauto.
Qed.

Lemma merge_synthesized (occupant : Tag.t) (tagName : string) :
  merge occupant (synthesized tagName) = occupant.
Proof.
  destruct occupant as [n c o d sc]. unfold merge, or_str, or_num. simpl.
  destruct (String.eqb_spec c ""), (String.eqb_spec d ""), (Z.eqb_spec o 0),
    (Z.eqb_spec sc 0); subst; reflexivity.
Qed.

(** A name its dictionary does not define, at its first resolution. *)
Lemma mapTag_undefined (names : gmap string Tag.t) (tagName : string) (used : bool)
    (s : St.t) :
  names !! tagName = None -> St.mapped s !! tagName = None ->
  exists s',
    mapTag names tagName used s = Some (tagName, s')
    /\ (St.tags s !! tagName = None ->
        St.tags s' = <[tagName := synthesized tagName]> (St.tags s))
    /\ (forall occupant, St.tags s !! tagName = Some occupant -> St.tags s' = St.tags s).
Proof.
  intros Hundef Hfresh.
  destruct (mapTag_total names tagName used s) as [[id s'] Hm].
  pose proof (mapTag_cases _ _ _ _ _ _ Hm) as (_ & [(Hc & _) | (_ & Hr & _)]);
    [congruence|].
  unfold candidate in Hr. rewrite Hundef in Hr.
  change (default (synthesized tagName) None) with (synthesized tagName) in Hr.
  inversion Hr as [c Hfree | c o Ho Hcm | c o id' tags' Ho Hcm _]; subst;
    change (probeId tagName 1) with tagName in *.
  - exists s'. split; [exact Hm|]. split; [intros _; congruence | congruence].
  - exists s'. split; [exact Hm|]. split; [congruence|].
    intros _ _. rewrite merge_synthesized in *.
    match goal with H : <[_ := _]> _ = St.tags s' |- _ => rewrite <- H end.
    now apply insert_id.
  - rewrite canMerge_synthesized in Hcm. discriminate.
Qed.

(** C2, as the code has it.  A dictionary with an empty tag list is
    skipped: its references stay as they are.  In every other dictionary
    each reference of a term ([term_tags], [definition_tags], [rules]) and
    of a kanji ([tags]) is replaced, in place, by an id made from the
    name, and the [stats] of a kanji are built anew under the ids of their
    keys, each with a value one of its keys had; but an id [__proto__] is
    no key of the new [stats].  The id is a key of the returned namespace,
    unless [deleteEmpty] is set and the entry has no content.  A name the
    dictionary does not define resolves to the id equal to the name: a new
    tag with the name and nothing else where the id is free, the occupant
    as it is otherwise. *)
Theorem references_resolved (dictionaries : list Dictionary.t) (args : Args.t) :
  (exists ns dictionaries',
     mergeTags dictionaries args = Some (ns, dictionaries')
     /\ Forall2 (dict_rewritten (defined_in_namespace args ns) (in_namespace args ns))
          dictionaries dictionaries')
  /\ (forall names tagName used s,
        names !! tagName = None -> St.mapped s !! tagName = None ->
        exists s',
          mapTag names tagName used s = Some (tagName, s')
          /\ (St.tags s !! tagName = None ->
              St.tags s' = <[tagName := Tag.mk tagName "" 0 "" 0]> (St.tags s))
          /\ (forall occupant,
                St.tags s !! tagName = Some occupant -> St.tags s' = St.tags s)).
Proof.
  split; [|exact mapTag_undefined].
  destruct (mergeTags_result dictionaries args) as (ns & ds' & Hm & _ & Hr).
  exists ns, ds'. now split.
Qed.

Lemma references_resolved_witness :
  exists s',
    mapTag (byName [v5_verb]) "arch" true state_v5 = Some ("arch", s')
    /\ St.tags s' = <["arch" := Tag.mk "arch" "" 0 "" 0]> (St.tags state_v5).
Proof.
  destruct (proj2 (references_resolved [] Args.default)
              (byName [v5_verb]) "arch" true state_v5 eq_refl eq_refl)
    as (s' & Hm & Hfree & _).
  exists s'. split; [exact Hm | apply Hfree; reflexivity].
Defined.

(** C2, as the specification has it, fails in four ways.  A dictionary
    without tags of its own whose term refers to v1 comes back with the
    reference untouched, and v1 is not in the namespace.  With
    [deleteEmpty] set, a reference to a name that nothing defines is
    rewritten to an id that the namespace does not have.  A key
    [__proto__] of the [stats] of a kanji, resolved to the id [__proto__],
    is gone from the [stats].  And a reference to v5 in a dictionary that
    does not define it, after a dictionary that does, is resolved to the
    tag of the latter: no tag is made for it. *)
Lemma references_left_unresolved :
  (exists ns dictionaries',
     mergeTags [dict_no_tags] Args.default = Some (ns, dictionaries')
     /\ ns !! "v1" = None
     /\ map_to_list ns = []
     /\ List.map rules_of dictionaries' = [[["v1"]]])
  /\ (exists ns dictionaries',
        mergeTags [dict_undefined_ref] (Args.mk false true) = Some (ns, dictionaries')
        /\ List.map rules_of dictionaries' = [[["zz"]]]
        /\ ns !! "zz" = None)
  /\ (exists ns dictionaries',
        mergeTags [dict_proto_stats] Args.default = Some (ns, dictionaries')
        /\ List.map stats_of dictionaries' = [[[("grade", "2")]]]
        /\ ns !! "__proto__" = Some (Tag.mk "__proto__" "" 0 "" 0))
  /\ (exists ns dictionaries',
        mergeTags [sample_dict "a" [v5_verb] []; sample_dict "b" [n_noun] ["v5"]]
          Args.default = Some (ns, dictionaries')
        /\ List.map rules_of dictionaries' = [[[]]; [["v5"]]]
        /\ ns !! "v5" = Some v5_verb
        /\ map_to_list ns = [("n", n_noun); ("v5", v5_verb)]).
Proof.
  split; [|split; [|split]]; eexists _, _; (split; [vm_compute; reflexivity|]);
    now vm_compute.
Qed.

Lemma byName_skip (tags : list Tag.t) (m : gmap string Tag.t) (n : string) :
  ~ In n (List.map Tag.name tags) ->
  foldl (fun m x => <[Tag.name x := x]> m) m tags !! n = m !! n.
Proof.
  revert m. induction tags as [|t tags IH]; intros m Hn; simpl; [reflexivity|].
  simpl in Hn. rewrite IH by tauto. apply lookup_insert_ne. tauto.
Qed.

Lemma byName_unique (tags : list Tag.t) (t : Tag.t) :
  NoDup (List.map Tag.name tags) -> In t tags ->
  candidate (byName tags) (Tag.name t) = t.
Proof.
  unfold candidate, byName. generalize (∅ : gmap string Tag.t).
  induction tags as [|a tags IH]; intros m Hnd Hin; [destruct Hin|].
  simpl in Hnd. apply NoDup_cons in Hnd as [Ha Hnd]. simpl.
  destruct Hin as [->|Hin]; [|now apply IH].
  rewrite byName_skip by (now rewrite <- list_elem_of_In).
  now rewrite lookup_insert_eq.
Qed.

(** C7, as the code has it.  With [deleteUnused] off, every tag of every
    dictionary's tag list has an id made from its name under which the
    returned namespace has an entry that holds what the dictionary says
    under that name (what the tag says, where the dictionary has the name
    once), whether or not anything refers to it; unless [deleteEmpty] is
    on, the dictionary says nothing about the name and the entry has no
    content, in which case the id is not in the namespace. *)
Theorem defined_tags_survive (dictionaries : list Dictionary.t) (args : Args.t) :
  Args.deleteUnused args = false ->
  exists ns dictionaries',
    mergeTags dictionaries args = Some (ns, dictionaries')
    /\ forall dict t,
         In dict dictionaries -> In t (Dictionary.tags dict) ->
         exists id,
           id_of (Tag.name t) id
           /\ kept_or_empty args ns (byName (Dictionary.tags dict)) (Tag.name t) id
           /\ (Args.deleteEmpty args = false
               \/ isEmpty (candidate (byName (Dictionary.tags dict)) (Tag.name t)) = false ->
               exists entry,
                 ns !! id = Some entry
                 /\ absorbs entry (candidate (byName (Dictionary.tags dict)) (Tag.name t))
                 /\ (NoDup (List.map Tag.name (Dictionary.tags dict)) ->
                     absorbs entry t)).
Proof.
  intros Hunused.
  destruct (mergeTags_result dictionaries args) as (ns & ds' & Hm & _ & Hr).
  exists ns, ds'. split; [exact Hm|].
  intros dict t Hdict Ht.
  destruct (Forall2_In_l _ _ _ _ Hr Hdict) as (dict' & _ & Hd).
  unfold dict_rewritten in Hd.
  destruct (Dictionary.tags dict) as [|t0 ts] eqn:Etags; [destruct Ht|].
  destruct Hd as (_ & _ & _ & _ & Hdef & _).
  apply List.Forall_forall with (x := t) in Hdef; [|exact Ht].
  destruct Hdef as (id & Hid & Hin).
  exists id. split; [exact Hid|]. split; [exact (Hin Hunused)|].
  intros Hempty.
  destruct (kept_if_content _ _ _ _ _ (Hin Hunused) Hempty) as (e & He & Ha).
  exists e. split; [exact He|]. split; [exact Ha|].
  intros Hnd. now rewrite (byName_unique (t0 :: ts) t Hnd Ht) in Ha.
Qed.

Lemma defined_tags_survive_witness :
  Args.deleteUnused Args.default = false
  /\ exists ns dictionaries',
       mergeTags [sample_dict "a" [v5_verb] []] Args.default = Some (ns, dictionaries')
       /\ exists id entry,
            ns !! id = Some entry /\ id_of "v5" id /\ absorbs entry v5_verb.
Proof.
  split; [reflexivity|].
  destruct (defined_tags_survive [sample_dict "a" [v5_verb] []] Args.default eq_refl)
    as (ns & ds' & Hm & Hall).
  exists ns, ds'. split; [exact Hm|].
  destruct (Hall (sample_dict "a" [v5_verb] []) v5_verb) as (id & Hid & _ & Hkept);
    [now left | now left|].
  destruct (Hkept (or_introl eq_refl)) as (e & He & Ha & _).
  exists id, e. auto.
Defined.

(** C7, as the specification has it, fails: with [deleteUnused] off and
    [deleteEmpty] on, a tag that is defined with a name and nothing else is
    not in the returned namespace. *)
Lemma defined_bare_tag_deleted :
  exists ns dictionaries',
    Args.deleteUnused (Args.mk false true) = false
    /\ In (Tag.mk "arch" "" 0 "" 0) (Dictionary.tags dict_bare_tag)
    /\ mergeTags [dict_bare_tag] (Args.mk false true) = Some (ns, dictionaries')
    /\ map_to_list ns = [].
Proof.
  eexists _, _. split; [reflexivity|]. split; [now left|].
  split; [vm_compute; reflexivity|]. now vm_compute.
Qed.

(** C8. In the returned namespace every entry carries a name that a
    dictionary of the batch defines or refers to, and is kept under that
    name or under the name followed by a counter from 2 on; neither a
    merge nor a later call of [mapTag] changes the name of an entry. *)
Theorem namespace_names_kept (dictionaries : list Dictionary.t) (args : Args.t) :
  (exists ns dictionaries',
     mergeTags dictionaries args = Some (ns, dictionaries')
     /\ forall id entry,
          ns !! id = Some entry ->
          mentioned dictionaries (Tag.name entry)
          /\ (id = Tag.name entry
              \/ exists k : nat,
                   (2 <= k)%nat /\ id = Tag.name entry +:+ "-" +:+ pretty k))
  /\ (forall current tag, Tag.name (merge current tag) = Tag.name current)
  /\ (forall names tagName used s id s',
        mapTag names tagName used s = Some (id, s') ->
        forall i entry,
          St.tags s !! i = Some entry ->
          exists entry', St.tags s' !! i = Some entry' /\ Tag.name entry' = Tag.name entry).
Proof.
  split; [|split; [reflexivity|]].
  - destruct (mergeTags_result dictionaries args) as (ns & ds' & Hm & Hns & _).
    exists ns, ds'. split; [exact Hm|]. intros id e He.
    destruct (Hns id e He) as [Hp Hid]. split; [exact Hp | now apply id_of_cases].
  - intros names tagName used s id s' Hm i e He.
    destruct (mapTag_entries _ _ _ _ _ _ Hm i e He) as [H|(_ & _ & H)];
      eexists; (split; [exact H | reflexivity]).
Qed.

Lemma namespace_names_kept_witness :
  exists s' entry',
    mapTag (byName [v5_verb_bare]) "v5" true state_v5 = Some ("v5", s')
    /\ St.tags s' !! "v5" = Some entry'
    /\ Tag.name entry' = Tag.name v5_verb.
Proof.
  destruct (mapTag (byName [v5_verb_bare]) "v5" true state_v5) as [[id s']|] eqn:Hm;
    [|vm_compute in Hm; discriminate].
  assert (Hid : id = "v5") by (vm_compute in Hm; congruence). subst id.
  destruct (proj2 (proj2 (namespace_names_kept [] Args.default)) _ _ _ _ _ _ Hm
              "v5" v5_verb eq_refl) as (e' & He' & Hname).
  exists s', e'. split; [reflexivity|]. now split.
Defined.

(** ** Collisions *)

Lemma mapTag_cached (names : gmap string Tag.t) (tagName : string) (used : bool)
    (s : St.t) (id : string) :
  St.mapped s !! tagName = Some id -> nonempty id = true ->
  mapTag names tagName used s
  = Some (id, St.mk (St.tags s) (bump used id (St.tagUsage s)) (St.mapped s)).
Proof.
  intros Hm Hne. unfold mapTag. rewrite Hm, Hne.
  destruct s, used; reflexivity.
Qed.

Lemma mapTag_claim (names : gmap string Tag.t) (tagName : string) (used : bool)
    (s : St.t) :
  St.mapped s !! tagName = None -> St.tags s !! tagName = None ->
  mapTag names tagName used s
  = Some (tagName,
          St.mk (<[tagName := candidate names tagName]> (St.tags s))
            (bump used tagName (St.tagUsage s))
            (<[tagName := tagName]> (St.mapped s))).
Proof.
  intros Hm Ht. unfold mapTag. rewrite Hm. simpl. rewrite Ht.
  destruct used; reflexivity.
Qed.

Lemma mapTag_share (names : gmap string Tag.t) (tagName : string) (used : bool)
    (s : St.t) (occupant : Tag.t) :
  St.mapped s !! tagName = None -> St.tags s !! tagName = Some occupant ->
  canMerge (candidate names tagName) occupant = true ->
  mapTag names tagName used s
  = Some (tagName,
          St.mk (<[tagName := merge occupant (candidate names tagName)]> (St.tags s))
            (bump used tagName (St.tagUsage s))
            (<[tagName := tagName]> (St.mapped s))).
Proof.
  intros Hm Ht Hc. unfold mapTag. rewrite Hm. simpl. rewrite Ht.
  unfold candidate in Hc. rewrite Hc. destruct used; reflexivity.
Qed.

Lemma mapTag_second (names : gmap string Tag.t) (tagName : string) (used : bool)
    (s : St.t) (occupant : Tag.t) :
  St.mapped s !! tagName = None -> St.tags s !! tagName = Some occupant ->
  canMerge (candidate names tagName) occupant = false ->
  St.tags s !! (tagName +:+ "-2") = None ->
  mapTag names tagName used s
  = Some (tagName +:+ "-2",
          St.mk (<[tagName +:+ "-2" := candidate names tagName]> (St.tags s))
            (bump used (tagName +:+ "-2") (St.tagUsage s))
            (<[tagName := tagName +:+ "-2"]> (St.mapped s))).
Proof.
  intros Hm Ht Hc Ht2. unfold mapTag. rewrite Hm.
  destruct (size (St.tags s)) as [|k] eqn:Hsize.
  - apply map_size_empty_iff in Hsize. rewrite Hsize, lookup_empty in Ht. discriminate.
  - unfold candidate in Hc. cbn [probe]. rewrite Ht, Hc.
    change (tagName +:+ "-" +:+ pretty 2%nat) with (tagName +:+ "-2").
    rewrite Ht2. destruct used; reflexivity.
Qed.

Lemma cleanup_default (s : St.t) : cleanup Args.default s = St.tags s.
Proof.
  unfold cleanup. apply map_filter_id. intros i x _. reflexivity.
Qed.

Lemma mergeDict_sample (title : string) (t : Tag.t) (n : string) (s : St.t)
    (id : string) (s1 s2 : St.t) :
  Tag.name t = n ->
  mapTag (byName [t]) n false (St.mk (St.tags s) (St.tagUsage s) ∅) = Some (id, s1) ->
  mapTag (byName [t]) n true s1 = Some (id, s2) ->
  mergeDict (sample_dict title [t] [n]) s = Some (sample_dict title [t] [id], s2).
Proof.
  intros <- H1 H2. unfold mergeDict, sample_dict.
  unfold mapTerm.
  cbn [Dictionary.tags Dictionary.terms Dictionary.kanji mapM
       Term.term_tags Term.definition_tags Term.rules].
  unfold bind, ret. cbv beta. rewrite H1. cbv beta iota. rewrite H2. reflexivity.
Qed.

Lemma candidate_single (t : Tag.t) : candidate (byName [t]) (Tag.name t) = t.
Proof. unfold candidate, byName. simpl. now rewrite lookup_insert_eq. Qed.

Lemma second_id_differs (n : string) : n <> n +:+ "-2".
Proof.
  intros H. apply (f_equal String.length) in H. rewrite append_length in H.
  simpl in H. lia.
Qed.

Lemma two_dictionaries (t1 t2 : Tag.t) :
  Tag.name t2 = Tag.name t1 -> Tag.name t1 <> "" ->
  mergeTags [sample_dict "a" [t1] [Tag.name t1]; sample_dict "b" [t2] [Tag.name t1]]
    Args.default
  = Some (if canMerge t2 t1
          then {[ Tag.name t1 := merge t1 t2 ]}
          else <[Tag.name t1 +:+ "-2" := t2]> {[ Tag.name t1 := t1 ]},
          [sample_dict "a" [t1] [Tag.name t1];
           sample_dict "b" [t2]
             [if canMerge t2 t1 then Tag.name t1 else Tag.name t1 +:+ "-2"]]).
Proof.
  intros Hname Hne. apply nonempty_true in Hne.
  set (n := Tag.name t1) in *.
  assert (Hd1 : mergeDict (sample_dict "a" [t1] [n]) (St.mk ∅ ∅ ∅)
                = Some (sample_dict "a" [t1] [n],
                        St.mk {[ n := t1 ]} {[ n := 1 ]} {[ n := n ]})).
  { apply mergeDict_sample with
      (s1 := St.mk {[ n := t1 ]} ∅ {[ n := n ]}); [reflexivity| |].
    - rewrite mapTag_claim by apply lookup_empty. simpl.
      unfold n at 3. now rewrite candidate_single.
    - rewrite (mapTag_cached _ _ _ _ n); [reflexivity | apply lookup_insert_eq | exact Hne]. }
  set (s2 := St.mk {[ n := t1 ]} {[ n := 1 ]} {[ n := n ]}) in *.
  assert (Hc2 : candidate (byName [t2]) n = t2)
    by (rewrite <- Hname; apply candidate_single).
  assert (Hd2 : mergeDict (sample_dict "b" [t2] [n]) s2
                = Some (sample_dict "b" [t2] [if canMerge t2 t1 then n else n +:+ "-2"],
                        St.mk (if canMerge t2 t1 then {[ n := merge t1 t2 ]}
                               else <[n +:+ "-2" := t2]> {[ n := t1 ]})
                          (if canMerge t2 t1 then {[ n := 2 ]}
                           else <[n +:+ "-2" := 1]> {[ n := 1 ]})
                          {[ n := if canMerge t2 t1 then n else n +:+ "-2" ]})).
  { destruct (canMerge t2 t1) eqn:Hcm.
    - apply mergeDict_sample with
        (s1 := St.mk {[ n := merge t1 t2 ]} {[ n := 1 ]} {[ n := n ]}); [exact Hname| |].
      + rewrite (mapTag_share _ _ _ _ t1);
          [ | apply lookup_empty | apply lookup_insert_eq | now rewrite Hc2].
        rewrite Hc2. simpl. now rewrite insert_singleton_eq.
      + rewrite (mapTag_cached _ _ _ _ n);
          [ | apply lookup_insert_eq | exact Hne].
        simpl. unfold bump. rewrite lookup_singleton_eq, insert_singleton_eq. reflexivity.
    - apply mergeDict_sample with
        (s1 := St.mk (<[n +:+ "-2" := t2]> {[ n := t1 ]}) {[ n := 1 ]}
                 {[ n := n +:+ "-2" ]}); [exact Hname| |].
      + rewrite (mapTag_second _ _ _ _ t1);
          [ | apply lookup_empty | apply lookup_insert_eq | now rewrite Hc2 | ].
        * now rewrite Hc2.
        * simpl. apply lookup_singleton_ne, second_id_differs.
      + rewrite (mapTag_cached _ _ _ _ (n +:+ "-2"));
          [ | apply lookup_insert_eq | ].
        * simpl. unfold bump.
          rewrite lookup_singleton_ne by apply second_id_differs. reflexivity.
        * apply (probeId_nonempty n 2). lia. }
  unfold mergeTags. cbn [mapM]. unfold bind, ret. cbv beta.
  rewrite Hd1. cbv beta iota. fold s2. rewrite Hd2. cbv beta iota.
  now rewrite cleanup_default.
Qed.

Lemma Forall2_combine_In {A B} (R : A -> B -> Prop) (xs : list A) (ys : list B)
    (x : A) (y : B) :
  Forall2 R xs ys -> In (x, y) (combine xs ys) -> R x y.
Proof.
  induction 1 as [|x' y' xs ys Hxy _ IH]; simpl; [tauto|].
  intros [[= <- <-]|Hin]; [exact Hxy | now apply IH].
Qed.

Lemma dict_rewritten_ref (D R : gmap string Tag.t -> string -> string -> Prop)
    (dict dict' : Dictionary.t) (x y : string) :
  dict_rewritten D R dict dict' -> Dictionary.tags dict <> [] ->
  rewritten_ref dict dict' x y -> R (byName (Dictionary.tags dict)) x y.
Proof.
  unfold dict_rewritten. destruct (Dictionary.tags dict) as [|t ts]; [congruence|].
  cbv zeta. intros (_ & _ & _ & _ & _ & Ht & Hk) _
    [(it & it' & Hin & Href) | (it & it' & Hin & Href)].
  - destruct (Forall2_combine_In _ _ _ _ _ Ht Hin) as (_ & _ & _ & _ & _ & H1 & H2 & H3).
    destruct Href as [Href|[Href|Href]];
      [exact (Forall2_combine_In _ _ _ _ _ H1 Href)
      |exact (Forall2_combine_In _ _ _ _ _ H2 Href)
      |exact (Forall2_combine_In _ _ _ _ _ H3 Href)].
  - destruct (Forall2_combine_In _ _ _ _ _ Hk Hin) as (_ & _ & _ & _ & H1 & _).
    exact (Forall2_combine_In _ _ _ _ _ H1 Href).
Qed.

Lemma isEmpty_category (t : Tag.t) : Tag.category t <> "" -> isEmpty t = false.
Proof.
  intros H. unfold isEmpty. apply nonempty_true in H. now rewrite H.
Qed.

Lemma isEmpty_description (t : Tag.t) : Tag.description t <> "" -> isEmpty t = false.
Proof.
  intros H. unfold isEmpty. apply nonempty_true in H. rewrite H.
  now rewrite orb_true_r.
Qed.

Lemma shared_id_compatible (args : Args.t) (ns names1 names2 : gmap string Tag.t)
    (x y : string) :
  in_namespace args ns names1 x y -> in_namespace args ns names2 x y ->
  canMerge (candidate names1 x) (candidate names2 x) = true.
Proof.
  intros (_ & _ & K1) (_ & _ & K2). apply canMerge_spec.
  pose proof (kept_if_content _ _ _ _ _ K1) as H1.
  pose proof (kept_if_content _ _ _ _ _ K2) as H2.
  set (t1 := candidate names1 x) in *. set (t2 := candidate names2 x) in *.
  split.
  - destruct (String.eqb_spec (Tag.category t1) "") as [|N1]; [tauto|].
    destruct (String.eqb_spec (Tag.category t2) "") as [|N2]; [tauto|]. left.
    destruct H1 as (e1 & He1 & Ha1 & _); [right; now apply isEmpty_category|].
    destruct H2 as (e2 & He2 & Ha2 & _); [right; now apply isEmpty_category|].
    replace e2 with e1 in * by congruence.
    now rewrite <- (Ha1 N1), <- (Ha2 N2).
  - destruct (String.eqb_spec (Tag.description t1) "") as [|N1]; [tauto|].
    destruct (String.eqb_spec (Tag.description t2) "") as [|N2]; [tauto|]. left.
    destruct H1 as (e1 & He1 & _ & Ha1 & _); [right; now apply isEmpty_description|].
    destruct H2 as (e2 & He2 & _ & Ha2 & _); [right; now apply isEmpty_description|].
    replace e2 with e1 in * by congruence.
    now rewrite <- (Ha1 N1), <- (Ha2 N2).
Qed.

Lemma canMerge_synthesized_r (tag : Tag.t) (tagName : string) :
  canMerge tag (synthesized tagName) = true.
Proof. apply canMerge_spec. simpl. tauto. Qed.

Lemma candidate_nil (tagName : string) :
  candidate (byName []) tagName = synthesized tagName.
Proof. unfold candidate, byName. cbn [foldl]. now rewrite lookup_empty. Qed.

Lemma incompatible_distinct (dictionaries : list Dictionary.t) (args : Args.t)
    (ns : gmap string Tag.t) (dictionaries' : list Dictionary.t)
    (dict1 dict1' dict2 dict2' : Dictionary.t) (x y1 y2 : string) :
  mergeTags dictionaries args = Some (ns, dictionaries') ->
  In (dict1, dict1') (combine dictionaries dictionaries') ->
  In (dict2, dict2') (combine dictionaries dictionaries') ->
  rewritten_ref dict1 dict1' x y1 -> rewritten_ref dict2 dict2' x y2 ->
  canMerge (candidate (byName (Dictionary.tags dict1)) x)
    (candidate (byName (Dictionary.tags dict2)) x) = false ->
  y1 <> y2.
Proof.
  intros Hm Hd1 Hd2 Hr1 Hr2 Hcm.
  destruct (mergeTags_result dictionaries args) as (ns0 & ds0 & Hm0 & _ & Hall).
  rewrite Hm in Hm0. injection Hm0 as <- <-.
  assert (Ht1 : Dictionary.tags dict1 <> []).
  { intros E. now rewrite E, candidate_nil, canMerge_synthesized in Hcm. }
  assert (Ht2 : Dictionary.tags dict2 <> []).
  { intros E. now rewrite E, candidate_nil, canMerge_synthesized_r in Hcm. }
  pose proof (dict_rewritten_ref _ _ _ _ _ _
                (Forall2_combine_In _ _ _ _ _ Hall Hd1) Ht1 Hr1) as H1.
  pose proof (dict_rewritten_ref _ _ _ _ _ _
                (Forall2_combine_In _ _ _ _ _ Hall Hd2) Ht2 Hr2) as H2.
  intros <-. rewrite (shared_id_compatible _ _ _ _ _ _ H1 H2) in Hcm. discriminate.
Qed.

(** C3, as the code has it.  A name not yet resolved in its dictionary is
    resolved against the shared namespace by the rule: the ids tried are
    the name, then the name with -2, -3 and so on; the tag shares the first
    of them that is free or holds a compatible tag, and every id before
    that one holds an incompatible tag.  Compatible is said of the tag and
    the occupant as it stands, with what earlier tags have filled in.  So
    where the name itself is taken, the tag lands on it exactly when it is
    compatible with the occupant.  Across a batch, two dictionaries that
    define a name incompatibly never have a reference to it rewritten to
    the same id.  Of two dictionaries that define and use one name, the
    second shares the id of the first exactly when its tag is compatible,
    and gets the name with -2 otherwise: v5 for two compatible v5, v5 and
    v5-2 for the categories verb and noun.  Of three that define v5 with no
    category, as a verb and as a noun, the third gets v5-2, compatible
    though it is with the first. *)
Theorem tag_collisions_resolved :
  (forall names tagName used s,
     St.mapped s !! tagName = None ->
     exists id s',
       mapTag names tagName used s = Some (id, s')
       /\ resolves (candidate names tagName) tagName (St.tags s) 1 id (St.tags s')
       /\ (exists k, (1 <= k)%nat /\ id = probeId tagName k
             /\ forall j, (1 <= j < k)%nat ->
                  exists occupant,
                    St.tags s !! probeId tagName j = Some occupant
                    /\ canMerge (candidate names tagName) occupant = false)
       /\ (forall occupant,
             St.tags s !! tagName = Some occupant ->
             (id = tagName <-> canMerge (candidate names tagName) occupant = true)))
  /\ (forall dictionaries args ns dictionaries' dict1 dict1' dict2 dict2' x y1 y2,
        mergeTags dictionaries args = Some (ns, dictionaries') ->
        In (dict1, dict1') (combine dictionaries dictionaries') ->
        In (dict2, dict2') (combine dictionaries dictionaries') ->
        rewritten_ref dict1 dict1' x y1 -> rewritten_ref dict2 dict2' x y2 ->
        canMerge (candidate (byName (Dictionary.tags dict1)) x)
          (candidate (byName (Dictionary.tags dict2)) x) = false ->
        y1 <> y2)
  /\ (forall t1 t2,
        Tag.name t2 = Tag.name t1 -> Tag.name t1 <> "" ->
        mergeTags
          [sample_dict "a" [t1] [Tag.name t1]; sample_dict "b" [t2] [Tag.name t1]]
          Args.default
        = Some (if canMerge t2 t1
                then {[ Tag.name t1 := merge t1 t2 ]}
                else <[Tag.name t1 +:+ "-2" := t2]> {[ Tag.name t1 := t1 ]},
                [sample_dict "a" [t1] [Tag.name t1];
                 sample_dict "b" [t2]
                   [if canMerge t2 t1 then Tag.name t1 else Tag.name t1 +:+ "-2"]]))
  /\ (exists tags dictionaries,
        mergeTags [sample_dict "a" [v5_verb] ["v5"]; sample_dict "b" [v5_verb_bare] ["v5"]]
          Args.default = Some (tags, dictionaries)
        /\ map_to_list tags = [("v5", Tag.mk "v5" "verb" 1 "Godan verb" 3)]
        /\ List.map rules_of dictionaries = [[["v5"]]; [["v5"]]])
  /\ (exists tags dictionaries,
        mergeTags [sample_dict "a" [v5_verb] ["v5"]; sample_dict "c" [v5_noun] ["v5"]]
          Args.default = Some (tags, dictionaries)
        /\ tags !! "v5" = Some v5_verb /\ tags !! "v5-2" = Some v5_noun
        /\ size tags = 2%nat
        /\ List.map rules_of dictionaries = [[["v5"]]; [["v5-2"]]])
  /\ (exists tags dictionaries,
        mergeTags [sample_dict "a" [v5_bare] ["v5"]; sample_dict "b" [v5_verb] ["v5"];
                   sample_dict "c" [v5_noun] ["v5"]]
          Args.default = Some (tags, dictionaries)
        /\ canMerge v5_noun v5_bare = true
        /\ tags !! "v5" = Some v5_verb /\ tags !! "v5-2" = Some v5_noun
        /\ List.map rules_of dictionaries = [[["v5"]]; [["v5"]]; [["v5-2"]]]).
Proof.
  split; [|split; [exact incompatible_distinct
                  |split; [exact two_dictionaries|split; [|split]]]].
  - intros names tagName used s Hfresh.
    destruct (mapTag_total names tagName used s) as [[id s'] Hm].
    exists id, s'. split; [exact Hm|].
    apply mapTag_cases in Hm as (_ & [(Hc & _) | (_ & Hr & _)]); [congruence|].
    split; [exact Hr|]. split; [exact (resolves_counter _ _ _ _ _ _ Hr)|].
    intros occupant Hocc.
    destruct (resolves_counter _ _ _ _ _ _ Hr) as (k & Hk & -> & Hbefore).
    split.
    + intros Heq. change tagName with (probeId tagName 1) in Heq at 2.
      apply probeId_inj in Heq; [subst k | lia | lia].
      apply resolves_outcome in Hr as [(Hnone & _) | (o & Ho & Hcm & _)].
      * simpl in Hnone. congruence.
      * simpl in Ho. congruence.
    + intros Hcm. destruct (Nat.eq_dec k 1%nat) as [->|Hk1]; [reflexivity|].
      destruct (Hbefore 1%nat ltac:(lia)) as (o & Ho & Hno).
      simpl in Ho. congruence.
  - eexists _, _. split; [vm_compute; reflexivity|]. now vm_compute.
  - eexists _, _. split; [vm_compute; reflexivity|]. now vm_compute.
  - eexists _, _. split; [vm_compute; reflexivity|]. now vm_compute.
Qed.

(** C3, as the specification has it, fails: tags of one name that are
    compatible need not share an id.  Three dictionaries define v5, the
    first with no category, the second as a verb, the third as a noun.  The
    verb is merged into the entry of the first, which is a verb from then
    on; the noun, compatible with the first as its dictionary defines it
    and as it was when it was entered, finds a verb and goes to v5-2. *)
Lemma compatible_tags_kept_apart :
  canMerge v5_noun v5_bare = true
  /\ canMerge v5_bare v5_noun = true
  /\ exists tags dictionaries,
       mergeTags [sample_dict "a" [v5_bare] ["v5"]; sample_dict "b" [v5_verb] ["v5"];
                  sample_dict "c" [v5_noun] ["v5"]]
         Args.default = Some (tags, dictionaries)
       /\ List.map rules_of dictionaries = [[["v5"]]; [["v5"]]; [["v5-2"]]]
       /\ tags !! "v5" = Some v5_verb
       /\ tags !! "v5-2" = Some v5_noun.
Proof.
  split; [reflexivity|]. split; [reflexivity|].
  eexists _, _. split; [vm_compute; reflexivity|]. now vm_compute.
Qed.

Lemma tag_collisions_resolved_witness :
  (exists id s',
     mapTag (byName [v5_noun]) "v5" true state_v5 = Some (id, s')
     /\ (id = "v5" <-> canMerge v5_noun v5_verb = true))
  /\ mergeTags [sample_dict "a" [v5_verb] ["v5"]; sample_dict "b" [v5_noun] ["v5"]]
       Args.default
     = Some (<["v5-2" := v5_noun]> {[ "v5" := v5_verb ]},
             [sample_dict "a" [v5_verb] ["v5"]; sample_dict "b" [v5_noun] ["v5-2"]]).
Proof.
  split.
  - destruct (proj1 tag_collisions_resolved (byName [v5_noun]) "v5" true state_v5 eq_refl)
      as (id & s' & Hm & _ & _ & Hiff).
    exists id, s'. split; [exact Hm | apply Hiff; reflexivity].
  - exact (proj1 (proj2 (proj2 tag_collisions_resolved)) v5_verb v5_noun
             eq_refl ltac:(discriminate)).
Defined.

(* ================================================================= *)
(** * Part VII: further properties of the code *)

(** ** What an import reads *)

Lemma bankFiles_listed (source : Source.t) (b : Bank.t) :
  In b (bankFiles source) ->
  In (Bank.file b) (obj_keys (Source.list source))
  /\ splitName (Bank.file b) = Some b /\ In (Bank.kind b) KINDS.
Proof.
  intros Hin. pose proof (bankFiles_splitName source b Hin) as Hs.
  apply list_elem_of_In in Hin. unfold bankFiles in Hin. rewrite <- sort_perm in Hin.
  apply list_elem_of_omap in Hin as (name & Hname & Hsplit).
  pose proof Hsplit as Hp. apply splitName_pattern in Hp as (kind & digits & (Hk & _) & ->).
  split; [now apply list_elem_of_In|]. split; [exact Hs | exact Hk].
Qed.

Lemma importBank_ext (a b : Source.t) (dict : Raw.Dictionary.t) (it : Bank.t) :
  Source.file a (Bank.file it) = Source.file b (Bank.file it) ->
  importBank a dict it = importBank b dict it.
Proof. intros H. unfold importBank, read. now rewrite H. Qed.

(** X1. [importSource] reads the index and the listed files that match the
    bank pattern, and nothing else: two archives that agree on those give
    the same result. *)
Theorem importSource_reads_only_banks
    (sortTags : list Raw.Tag.t -> result (list Raw.Tag.t)) (a b : Source.t) :
  same_banks a b -> importSource sortTags a = importSource sortTags b.
Proof.
  intros (Hname & Hlist & Hindex & Hfiles). unfold importSource, err, bankFiles.
  rewrite <- Hname, <- Hlist, <- Hindex.
  destruct (negb (truthy (obj_get (Source.list a) INDEX_NAME))); [reflexivity|].
  destruct (Source.file a INDEX_NAME) as [index|e]; simpl; [|reflexivity].
  destruct (index_format index) as [format|e]; simpl; [|reflexivity].
  destruct (negb _); [reflexivity|].
  rewrite (rfold_ext_in (importBank a) (importBank b)); [reflexivity|].
  intros it acc Hin. apply importBank_ext.
  destruct (bankFiles_listed a it Hin) as (Hkey & Hsplit & _).
  apply Hfiles; [exact Hkey | congruence].
Qed.

Lemma importSource_reads_only_banks_witness :
  importSource sortTags_codeunit (archive_with_notes (VStr "first"))
  = importSource sortTags_codeunit (archive_with_notes VNull).
Proof.
  apply importSource_reads_only_banks.
  split; [reflexivity|]. split; [reflexivity|]. split; [reflexivity|].
  intros name [<-|[<-|[<-|[]]]] Hs; try reflexivity. now contradiction Hs.
Defined.

Lemma rfold_throws {A B} (f : B -> A -> result B) (xs : list A) (x : A) (acc : B) :
  In x xs -> (forall acc', exists e, f acc' x = Throw e) ->
  exists e, rfold f xs acc = Throw e.
Proof.
  intros Hin Hx. revert acc. induction xs as [|y xs IH]; intros acc; [destruct Hin|].
  simpl. destruct Hin as [->|Hin].
  - destruct (Hx acc) as (e & ->). now exists e.
  - destruct (f acc y) as [acc'|e]; simpl; [now apply IH | now exists e].
Qed.

Lemma importBank_read_throws (source : Source.t) (dict : Raw.Dictionary.t)
    (it : Bank.t) (e : exn) :
  In (Bank.kind it) KINDS -> read source it = Throw e ->
  importBank source dict it = Throw e.
Proof.
  intros Hk Hr. destruct dict. unfold importBank. rewrite Hr.
  unfold KINDS in Hk. simpl in Hk.
  destruct Hk as [<-|[<-|[<-|[<-|[<-|[]]]]]]; reflexivity.
Qed.

(** X2. An import fails as a whole: a single bank file of the listing
    that cannot be read, parsed or gone through row by row makes
    [importSource] throw, whatever the index and the other banks hold. *)
Theorem importSource_fails_with_any_bank
    (sortTags : list Raw.Tag.t -> result (list Raw.Tag.t)) (source : Source.t)
    (it : Bank.t) (e : exn) :
  In it (bankFiles source) -> read source it = Throw e ->
  exists e', importSource sortTags source = Throw e'.
Proof.
  intros Hin Hread. unfold importSource.
  destruct (negb (truthy _)); [eexists; reflexivity|].
  destruct (Source.file source INDEX_NAME) as [index|e0]; simpl; [|eexists; reflexivity].
  destruct (index_format index) as [format|e0]; simpl; [|eexists; reflexivity].
  destruct (negb _); [destruct (toString format); eexists; reflexivity|].
  destruct (rfold_throws (importBank source) (bankFiles source) it
              (Raw.Dictionary.mk index [] [] [] [] []) Hin) as (e' & ->).
  - intros acc. exists e. apply importBank_read_throws; [|exact Hread].
    now destruct (bankFiles_listed source it Hin) as (_ & _ & ?).
  - exists e'. reflexivity.
Qed.

Lemma importSource_fails_with_any_bank_witness :
  exists e', importSource sortTags_codeunit archive_broken_bank = Throw e'.
Proof.
  apply importSource_fails_with_any_bank
    with (it := Bank.mk "term" "term_bank_1.json" 1) (e := TypeError).
  - vm_compute. auto.
  - reflexivity.
Defined.

(** X3. What goes wrong with the index comes out as it is: an error of the
    read or the parse is rethrown unchanged, and an index that is [null]
    gives the engine's [TypeError], not the error for a wrong format. *)
Theorem importSource_index_read_errors
    (sortTags : list Raw.Tag.t -> result (list Raw.Tag.t)) (source : Source.t) :
  truthy (obj_get (Source.list source) INDEX_NAME) = true ->
  (forall e, Source.file source INDEX_NAME = Throw e ->
             importSource sortTags source = Throw e)
  /\ (Source.file source INDEX_NAME = Ok VNull ->
      importSource sortTags source = Throw TypeError).
Proof.
  intros Hlist. unfold importSource. rewrite Hlist. simpl.
  split; [intros e -> | intros ->]; reflexivity.
Qed.

Lemma importSource_index_read_errors_witness :
  importSource sortTags_codeunit
    (archive "null.zip" [("index.json", VNull)]) = Throw TypeError.
Proof.
  refine (proj2 (importSource_index_read_errors sortTags_codeunit
                   (archive "null.zip" [("index.json", VNull)]) _) _); reflexivity.
Defined.

(** ** What an import holds *)

Section BankFold.
Context {A : Type} (decode : value -> result A) (source : Source.t).

Lemma rfold_rows_acc (l : list Bank.t) (acc : list A) :
  rfold (bankStep decode source) l acc
  = let* r := rfold (bankStep decode source) l [] in Ok (acc ++ r)%list.
Proof.
  revert acc. induction l as [|it l IH]; intros acc; simpl.
  - now rewrite app_nil_r.
  - unfold bankStep at 1 3. destruct (read source it) as [rows|e]; simpl; [|reflexivity].
    destruct (rmap decode rows) as [new|e]; simpl; [|reflexivity].
    rewrite (IH (acc ++ new)%list), (IH new).
    destruct (rfold (bankStep decode source) l []) as [r|e]; simpl; [|reflexivity].
    now rewrite app_assoc.
Qed.

Variables (get : Raw.Dictionary.t -> list A) (kind : string).

Hypothesis same_kind : forall dict it dict',
  Bank.kind it = kind -> importBank source dict it = Ok dict' ->
  exists rows new,
    read source it = Ok rows /\ rmap decode rows = Ok new
    /\ get dict' = (get dict ++ new)%list.

Hypothesis other_kind : forall dict it dict',
  Bank.kind it <> kind -> importBank source dict it = Ok dict' ->
  get dict' = get dict.

Lemma rfold_importBank_kind (l : list Bank.t) (dict dict' : Raw.Dictionary.t) :
  rfold (importBank source) l dict = Ok dict' ->
  exists rows,
    rfold (bankStep decode source)
      (List.filter (fun it => String.eqb (Bank.kind it) kind) l) [] = Ok rows
    /\ get dict' = (get dict ++ rows)%list.
Proof.
  revert dict. induction l as [|it l IH]; intros dict; simpl.
  - intros [= <-]. exists []. now rewrite app_nil_r.
  - destruct (importBank source dict it) as [dict1|e] eqn:Hit; simpl; [|discriminate].
    intros Hl. destruct (IH dict1 Hl) as (rows1 & Hrows1 & Hget1).
    destruct (String.eqb_spec (Bank.kind it) kind) as [Hk|Hk].
    + destruct (same_kind dict it dict1 Hk Hit) as (rows & new & Hr & Hd & Hget).
      exists (new ++ rows1)%list. split.
      * cbn [rfold]. unfold bankStep at 1. rewrite Hr. cbn [rbind]. rewrite Hd. cbn [rbind].
        rewrite rfold_rows_acc, Hrows1. reflexivity.
      * now rewrite Hget1, Hget, app_assoc.
    + exists rows1. split; [exact Hrows1|].
      now rewrite Hget1, (other_kind dict it dict1 Hk Hit).
Qed.
End BankFold.

Ltac importBank_cases H :=
  unfold importBank in H;
  repeat match type of H with
    | context [String.eqb ?a ?b] => destruct (String.eqb_spec a b)
    | context [read ?s ?it] => destruct (read s it) eqn:?; simpl in H
    | context [rmap ?d ?rows] => destruct (rmap d rows) eqn:?; simpl in H
    end;
  try discriminate; try congruence.

Lemma importBank_terms (source : Source.t) (l : list Bank.t) (dict dict' : Raw.Dictionary.t) :
  rfold (importBank source) l dict = Ok dict' ->
  exists rows,
    rfold (bankStep decodeTerm source)
      (List.filter (fun it => String.eqb (Bank.kind it) "term") l) [] = Ok rows
    /\ Raw.Dictionary.terms dict' = (Raw.Dictionary.terms dict ++ rows)%list.
Proof.
  apply (rfold_importBank_kind decodeTerm source Raw.Dictionary.terms "term").
  - intros [] it d' Hk H. importBank_cases H. injection H as <-.
    simpl. eexists _, _. split; [reflexivity|]. split; [eassumption | reflexivity].
  - intros [] it d' Hk H. importBank_cases H; injection H as <-; reflexivity.
Qed.

Lemma importBank_kanji (source : Source.t) (l : list Bank.t) (dict dict' : Raw.Dictionary.t) :
  rfold (importBank source) l dict = Ok dict' ->
  exists rows,
    rfold (bankStep decodeKanji source)
      (List.filter (fun it => String.eqb (Bank.kind it) "kanji") l) [] = Ok rows
    /\ Raw.Dictionary.kanji dict' = (Raw.Dictionary.kanji dict ++ rows)%list.
Proof.
  apply (rfold_importBank_kind decodeKanji source Raw.Dictionary.kanji "kanji").
  - intros [] it d' Hk H. importBank_cases H. injection H as <-.
    simpl. eexists _, _. split; [reflexivity|]. split; [eassumption | reflexivity].
  - intros [] it d' Hk H. importBank_cases H; injection H as <-; reflexivity.
Qed.

Lemma importBank_tags (source : Source.t) (l : list Bank.t) (dict dict' : Raw.Dictionary.t) :
  rfold (importBank source) l dict = Ok dict' ->
  exists rows,
    rfold (bankStep decodeTag source)
      (List.filter (fun it => String.eqb (Bank.kind it) "tag") l) [] = Ok rows
    /\ Raw.Dictionary.tags dict' = (Raw.Dictionary.tags dict ++ rows)%list.
Proof.
  apply (rfold_importBank_kind decodeTag source Raw.Dictionary.tags "tag").
  - intros [] it d' Hk H. importBank_cases H. injection H as <-.
    simpl. eexists _, _. split; [reflexivity|]. split; [eassumption | reflexivity].
  - intros [] it d' Hk H. importBank_cases H; injection H as <-; reflexivity.
Qed.

Lemma importBank_terms_meta (source : Source.t) (l : list Bank.t)
    (dict dict' : Raw.Dictionary.t) :
  rfold (importBank source) l dict = Ok dict' ->
  exists rows,
    rfold (bankStep decodeMeta source)
      (List.filter (fun it => String.eqb (Bank.kind it) "term_meta") l) [] = Ok rows
    /\ Raw.Dictionary.terms_meta dict' = (Raw.Dictionary.terms_meta dict ++ rows)%list.
Proof.
  apply (rfold_importBank_kind decodeMeta source Raw.Dictionary.terms_meta "term_meta").
  - intros [] it d' Hk H. importBank_cases H. injection H as <-.
    simpl. eexists _, _. split; [reflexivity|]. split; [eassumption | reflexivity].
  - intros [] it d' Hk H. importBank_cases H; injection H as <-; reflexivity.
Qed.

Lemma importBank_kanji_meta (source : Source.t) (l : list Bank.t)
    (dict dict' : Raw.Dictionary.t) :
  rfold (importBank source) l dict = Ok dict' ->
  exists rows,
    rfold (bankStep decodeMeta source)
      (List.filter (fun it => String.eqb (Bank.kind it) "kanji_meta") l) [] = Ok rows
    /\ Raw.Dictionary.kanji_meta dict' = (Raw.Dictionary.kanji_meta dict ++ rows)%list.
Proof.
  apply (rfold_importBank_kind decodeMeta source Raw.Dictionary.kanji_meta "kanji_meta").
  - intros [] it d' Hk H. importBank_cases H. injection H as <-.
    simpl. eexists _, _. split; [reflexivity|]. split; [eassumption | reflexivity].
  - intros [] it d' Hk H. importBank_cases H; injection H as <-; reflexivity.
Qed.

(** X4. A dictionary that [importSource] returns holds the parsed index
    and, list by list, the records of the banks of the matching kind and of
    no other: the rows of those banks in the order of the bank indices, row
    after row.  Term frequencies come from the [term_meta] banks, kanji
    frequencies from the [kanji_meta] banks, and the tags are what the sort
    makes of the rows of the tag banks. *)
Theorem importSource_contents
    (sortTags : list Raw.Tag.t -> result (list Raw.Tag.t)) (source : Source.t)
    (dict : Raw.Dictionary.t) :
  importSource sortTags source = Ok dict ->
  Source.file source INDEX_NAME = Ok (Raw.Dictionary.index dict)
  /\ decodeBanks decodeTerm source "term" = Ok (Raw.Dictionary.terms dict)
  /\ decodeBanks decodeKanji source "kanji" = Ok (Raw.Dictionary.kanji dict)
  /\ decodeBanks decodeMeta source "term_meta" = Ok (Raw.Dictionary.terms_meta dict)
  /\ decodeBanks decodeMeta source "kanji_meta" = Ok (Raw.Dictionary.kanji_meta dict)
  /\ exists tags,
       decodeBanks decodeTag source "tag" = Ok tags
       /\ sortTags tags = Ok (Raw.Dictionary.tags dict).
Proof.
  unfold importSource, decodeBanks.
  destruct (negb (truthy _)); [discriminate|].
  destruct (Source.file source INDEX_NAME) as [index|e]; simpl; [|discriminate].
  destruct (index_format index) as [format|e]; simpl; [|discriminate].
  destruct (negb _); [destruct (toString format); discriminate|].
  destruct (rfold (importBank source) (bankFiles source) _) as [d|e] eqn:Hfold;
    simpl; [|discriminate].
  destruct (sortTags (Raw.Dictionary.tags d)) as [tags|e] eqn:Hsort; simpl; [|discriminate].
  intros [= <-]. simpl.
  destruct (importBank_terms _ _ _ _ Hfold) as (r1 & -> & H1).
  destruct (importBank_kanji _ _ _ _ Hfold) as (r2 & -> & H2).
  destruct (importBank_tags _ _ _ _ Hfold) as (r3 & -> & H3).
  destruct (importBank_terms_meta _ _ _ _ Hfold) as (r4 & -> & H4).
  destruct (importBank_kanji_meta _ _ _ _ Hfold) as (r5 & -> & H5).
  simpl in *. subst.
  assert (Hindex : Raw.Dictionary.index d = index).
  { clear -Hfold. revert Hfold. generalize (bankFiles source).
    assert (H : Raw.Dictionary.index (Raw.Dictionary.mk index [] [] [] [] []) = index)
      by reflexivity.
    revert H. generalize (Raw.Dictionary.mk index [] [] [] [] []).
    intros d0 H l. revert d0 H. induction l as [|it l IH]; intros d0 H; simpl.
    - now intros [= <-].
    - destruct (importBank source d0 it) as [d1|e] eqn:Hit; simpl; [|discriminate].
      apply IH. rewrite <- H. clear -Hit. destruct d0.
      importBank_cases Hit; injection Hit as <-; reflexivity. }
  rewrite Hindex. repeat split; try reflexivity.
  exists (Raw.Dictionary.tags d). now split.
Qed.

Lemma importSource_contents_witness :
  importSource sortTags_codeunit archive_odd_rows
  = Ok (Raw.Dictionary.mk (VObj [("format", VNum 3)]) [] []
          [Raw.Tag.mk (VStr "v1") VUndefined VUndefined VUndefined VUndefined]
          [Raw.Meta.mk (VStr "neko") (VStr "freq") (VNum 7)] [])
  /\ decodeBanks decodeMeta archive_odd_rows "term_meta"
     = Ok [Raw.Meta.mk (VStr "neko") (VStr "freq") (VNum 7)].
Proof.
  split; [reflexivity|].
  exact (proj1 (proj2 (proj2 (proj2
           (importSource_contents sortTags_codeunit archive_odd_rows _ eq_refl))))).
Defined.

(** ** The order of the banks *)

Lemma bankFiles_sorted (source : Source.t) : StronglySorted bank_le (bankFiles source).
Proof.
  apply (@Sorted_StronglySorted _ bank_le bank_le_trans).
  eapply Sorted_ind with (P := Sorted bank_le);
    [constructor | | apply (sort_sorted compareFiles compareFiles_total)].
  intros a l _ IH Hhd. constructor; [exact IH|].
  destruct Hhd; constructor. now apply compareFiles_le.
Qed.

Lemma bank_le_same_slot (x y : Bank.t) :
  bank_le x y -> bank_le y x ->
  Bank.kind x = Bank.kind y /\ Bank.index x = Bank.index y.
Proof.
  intros [Hxy|[Exy Ixy]] [Hyx|[Eyx Iyx]].
  - rewrite String.compare_antisym, Hyx in Hxy. discriminate.
  - rewrite Eyx, string_compare_refl in Hxy. discriminate.
  - rewrite Exy, string_compare_refl in Hyx. discriminate.
  - split; [exact Exy | lia].
Qed.

(** X5. The order in which the banks are gone through does not depend on
    the order of the listing, as long as no two files of the listing have
    the same kind and the same bank index. *)
Theorem bankFiles_listing_order (a b : Source.t) :
  Permutation (obj_keys (Source.list a)) (obj_keys (Source.list b)) ->
  (forall x y, In x (bankFiles a) -> In y (bankFiles a) ->
               Bank.kind x = Bank.kind y -> Bank.index x = Bank.index y -> x = y) ->
  bankFiles a = bankFiles b.
Proof.
  intros Hperm Hslots.
  assert (Hab : Permutation (bankFiles a) (bankFiles b)).
  { unfold bankFiles. rewrite <- !sort_perm. now apply omap_Permutation. }
  apply (StronglySorted_unique_strong bank_le);
    [|apply bankFiles_sorted|apply bankFiles_sorted|exact Hab].
  intros x y Hx Hy Hxy Hyx. rewrite <- Hab in Hy.
  destruct (bank_le_same_slot x y Hxy Hyx).
  apply Hslots; [now apply list_elem_of_In | now apply list_elem_of_In | |]; assumption.
Qed.

Lemma bankFiles_listing_order_witness :
  bankFiles (listing ["tag_bank_2.json"; "index.json"; "tag_bank_1.json"; "term_bank_1.json"])
  = bankFiles (listing ["term_bank_1.json"; "tag_bank_1.json"; "tag_bank_2.json"; "index.json"]).
Proof.
  apply bankFiles_listing_order.
  - simpl.
    change (Permutation
              (["tag_bank_2.json"; "index.json"] ++ ["tag_bank_1.json"; "term_bank_1.json"])
              (["term_bank_1.json"; "tag_bank_1.json"] ++ ["tag_bank_2.json"; "index.json"])).
    rewrite Permutation_app_comm. apply Permutation_app; [apply perm_swap | reflexivity].
  - intros x y Hx Hy Hk Hi. vm_compute in Hx, Hy.
    destruct Hx as [<-|[<-|[<-|[]]]]; destruct Hy as [<-|[<-|[<-|[]]]];
      first [reflexivity | discriminate Hk | discriminate Hi].
Defined.

Section SortStable.
Context {A : Type} (cmp : A -> A -> Z) (P : A -> bool).
Hypothesis together : forall x y, P x = true -> P y = true -> cmp x y <= 0.

Lemma sort_insert_filter (x : A) (l : list A) :
  List.filter P (sort_insert cmp x l)
  = if P x then x :: List.filter P l else List.filter P l.
Proof.
  induction l as [|y l IH]; simpl; [reflexivity|].
  destruct (Z.leb_spec (cmp x y) 0) as [Hle|Hgt]; simpl.
  - destruct (P x); reflexivity.
  - rewrite IH. destruct (P x) eqn:Hx, (P y) eqn:Hy; try reflexivity.
    specialize (together x y Hx Hy). lia.
Qed.

Lemma sort_filter (l : list A) : List.filter P (sort cmp l) = List.filter P l.
Proof.
  induction l as [|x l IH]; simpl; [reflexivity|].
  rewrite sort_insert_filter, IH. reflexivity.
Qed.
End SortStable.

(** X6. The sort of the banks is stable: files of the same kind and the
    same bank index (as [tag_bank_1.json] and [tag_bank_01.json]) are gone
    through in the order of the listing. *)
Theorem bankFiles_ties_in_listing_order (source : Source.t) (kind : string) (index : Z) :
  List.filter (same_slot kind index) (bankFiles source)
  = List.filter (same_slot kind index) (omap splitName (obj_keys (Source.list source))).
Proof.
  apply sort_filter. intros x y Hx Hy. unfold same_slot in *.
  apply andb_true_iff in Hx as [Kx Ix], Hy as [Ky Iy].
  apply String.eqb_eq in Kx, Ky. apply Z.eqb_eq in Ix, Iy.
  apply compareFiles_le. right. split; [congruence | lia].
Qed.

(** ** More on tag lists *)

Lemma split_app_space (a b : string) :
  split (a +:+ " " +:+ b) = (split a ++ split b)%list.
Proof.
  induction a as [|c a IH]; [reflexivity|].
  rewrite append_cons. cbn [split]. rewrite IH.
  destruct (Ascii.eqb c " "%char); [reflexivity|].
  pose proof (split_not_nil a). destruct (split a); [contradiction | reflexivity].
Qed.

(** X7. Splitting goes through a space: the tokens of two strings put
    together with a space between them are the tokens of the first
    followed by the tokens of the second.  Only the space separates: a
    string without one, whatever else it has (a tab, a line break), is one
    token. *)
Theorem csv_of_joined (a b : string) :
  csv (a +:+ " " +:+ b) = (csv a ++ csv b)%list
  /\ (no_space a -> a <> "" -> csv a = [a]).
Proof.
  split.
  - unfold csv. now rewrite split_app_space, List.filter_app.
  - intros Hsp Hne. unfold csv. rewrite (split_piece a Hsp). simpl.
    apply nonempty_true in Hne. now rewrite Hne.
Qed.

Lemma csv_of_joined_witness :
  csv ("v1" +:+ " " +:+ "vt  P") = ["v1"; "vt"; "P"]
  /\ csv (String "009"%char "news") = [String "009"%char "news"].
Proof.
  split.
  - rewrite (proj1 (csv_of_joined "v1" "vt  P")). reflexivity.
  - apply (proj2 (csv_of_joined (String "009"%char "news") "")); [|discriminate].
    simpl. repeat split; discriminate.
Defined.

(** ** Bank indices *)

(** X8. A bank index is what the digits of the name spell in base ten,
    taken as a Number: [kind_bank_N.json] with [N] the decimal numeral of
    a number has the Number for it as index, which is the number itself
    below 2^53 and can be a neighbour from there on (9007199254740992 for
    9007199254740993).  Zeros in front do not count, and no index is
    negative. *)
Theorem bank_index_in_base_ten (kind : string) :
  In kind KINDS ->
  (forall n, 0 <= n ->
     splitName (kind +:+ "_bank_" +:+ pretty n +:+ ".json")
     = Some (Bank.mk kind (kind +:+ "_bank_" +:+ pretty n +:+ ".json") (Number_of_nat n))
     /\ (n < 2 ^ 53 -> Number_of_nat n = n))
  /\ (forall digits, digits <> "" -> all_digits digits ->
        exists index,
          0 <= index
          /\ splitName (kind +:+ "_bank_" +:+ digits +:+ ".json")
             = Some (Bank.mk kind (kind +:+ "_bank_" +:+ digits +:+ ".json") index)
          /\ splitName (kind +:+ "_bank_" +:+ "0" +:+ digits +:+ ".json")
             = Some (Bank.mk kind (kind +:+ "_bank_" +:+ "0" +:+ digits +:+ ".json")
                       index))
  /\ Number_of_nat 9007199254740993 = 9007199254740992
  /\ Number_of_nat 9007199254740995 = 9007199254740996.
Proof.
  intros Hk. split; [|split; [|split; reflexivity]].
  - intros n Hn. destruct (pretty_parse n Hn) as (Hne & Hd & Hval). split.
    + apply splitName_pattern. exists kind, (pretty n).
      split; [now repeat split|]. unfold parseInt. now rewrite Hval.
    + intros Hsmall. unfold Number_of_nat.
      now destruct (Z.ltb_spec n (2 ^ 53)); [|lia].
  - intros digits Hne Hd. exists (parseInt digits). split; [|split].
    + apply Number_of_nat_nonneg. now apply parseInt_from_nonneg.
    + apply splitName_pattern. exists kind, digits. now repeat split.
    + apply splitName_pattern. exists kind, (String "0"%char digits). split.
      * split; [exact Hk|]. split; [discriminate|]. split; [now split|reflexivity].
      * reflexivity.
Qed.

Lemma bank_index_in_base_ten_witness :
  splitName "tag_bank_42.json" = Some (Bank.mk "tag" "tag_bank_42.json" 42)
  /\ splitName "tag_bank_9007199254740993.json"
     = Some (Bank.mk "tag" "tag_bank_9007199254740993.json" 9007199254740992).
Proof.
  pose proof (proj1 (bank_index_in_base_ten "tag" ltac:(simpl; tauto))) as H.
  split.
  - exact (proj1 (H 42 ltac:(lia))).
  - exact (proj1 (H 9007199254740993 ltac:(lia))).
Defined.

(** ** The order of the tags *)

Lemma compareTagsWith_le (collate : string -> string -> Z) (a b : Raw.Tag.t) :
  well_typed_tag a = true -> well_typed_tag b = true ->
  default 0 (compareTagsWith collate a b) <= 0 <-> tag_le collate a b.
Proof.
  unfold well_typed_tag, compareTagsWith, tag_le.
  destruct (Raw.Tag.order a) as [| | |oa| | |]; try discriminate.
  destruct (Raw.Tag.name a) as [| | | |na| |]; try discriminate.
  destruct (Raw.Tag.order b) as [| | |ob| | |]; try discriminate.
  destruct (Raw.Tag.name b) as [| | | |nb| |]; try discriminate.
  intros _ _. simpl. destruct (Z.eqb_spec oa ob); simpl; [|lia].
  split; [intros; right; now split | intros [?|[_ ?]]; [lia | assumption]].
Qed.

Section SortOn.
Context {A : Type} (cmp : A -> A -> Z) (W : A -> Prop).
Hypothesis cmp_total_on : forall x y, W x -> W y -> ~ cmp x y <= 0 -> cmp y x <= 0.

Lemma sort_insert_sorted_on (x : A) (l : list A) :
  W x -> Forall W l ->
  Sorted (fun a b => cmp a b <= 0) l ->
  Sorted (fun a b => cmp a b <= 0) (sort_insert cmp x l).
Proof.
  intros Hx Hall Hl. induction Hl as [|y l Hl IH Hy]; cbn [sort_insert].
  - repeat constructor.
  - apply Forall_cons in Hall as [Hyw Hall].
    destruct (Z.leb_spec (cmp x y) 0) as [Hxy|Hxy].
    + repeat constructor; assumption.
    + constructor; [now apply IH|].
      destruct l as [|z l]; cbn [sort_insert].
      * constructor. apply cmp_total_on; [assumption..|lia].
      * destruct (cmp x z <=? 0); constructor;
          [apply cmp_total_on; [assumption..|lia] | now inversion Hy].
Qed.

Lemma sort_sorted_on (l : list A) :
  Forall W l -> Sorted (fun a b => cmp a b <= 0) (sort cmp l).
Proof.
  induction 1 as [|x l Hx Hall IH]; cbn [sort]; [constructor|].
  apply sort_insert_sorted_on; [exact Hx | now rewrite <- (sort_perm cmp l) | exact IH].
Qed.
End SortOn.

Lemma compareTagsWith_total (collate : string -> string -> Z) (a b : Raw.Tag.t) :
  (forall x y, ~ collate x y <= 0 -> collate y x <= 0) ->
  well_typed_tag a = true -> well_typed_tag b = true ->
  ~ default 0 (compareTagsWith collate a b) <= 0 ->
  default 0 (compareTagsWith collate b a) <= 0.
Proof.
  intros Htotal. unfold well_typed_tag, compareTagsWith.
  destruct (Raw.Tag.order a) as [| | |oa| | |]; try discriminate.
  destruct (Raw.Tag.name a) as [| | | |na| |]; try discriminate.
  destruct (Raw.Tag.order b) as [| | |ob| | |]; try discriminate.
  destruct (Raw.Tag.name b) as [| | | |nb| |]; try discriminate.
  intros _ _. simpl. rewrite (Z.eqb_sym ob oa).
  destruct (Z.eqb_spec oa ob); simpl; [apply Htotal | lia].
Qed.

Lemma sortTagsWith_sorted (collate : string -> string -> Z) (tags sorted : list Raw.Tag.t) :
  (forall a b, ~ collate a b <= 0 -> collate b a <= 0) ->
  sortTagsWith collate tags = Ok sorted ->
  Forall (fun t => well_typed_tag t = true) sorted ->
  Permutation tags sorted
  /\ Sorted (tag_le collate) sorted
  /\ forall order name,
       List.filter (same_key order name) sorted = List.filter (same_key order name) tags.
Proof.
  intros Htotal Hsort Htyped.
  set (cmp := fun a b => default 0 (compareTagsWith collate a b)).
  assert (Hcases : (length tags <= 1)%nat /\ sorted = tags \/ sorted = sort cmp tags).
  { unfold sortTagsWith in Hsort. destruct tags as [|t [|t' tags]];
      [left; simpl; split; [lia | congruence] | left; simpl; split; [lia | congruence]|].
    destruct (_ || _); [right; now injection Hsort as <- | discriminate]. }
  assert (Hrefl : forall n, collate n n <= 0).
  { intros n. destruct (Z.le_gt_cases (collate n n) 0) as [H|H]; [exact H|].
    apply Htotal. lia. }
  assert (Hperm : Permutation tags sorted).
  { destruct Hcases as [[_ ->]| ->]; [reflexivity | apply sort_perm]. }
  split; [exact Hperm|]. split.
  - destruct Hcases as [[Hlen ->]| ->].
    + destruct tags as [|t [|t' tags]]; [constructor | repeat constructor | simpl in Hlen; lia].
    + assert (Hs : Sorted (fun a b => cmp a b <= 0) (sort cmp tags)).
      { apply (sort_sorted_on cmp (fun t => well_typed_tag t = true)).
        - intros x y Hx Hy. now apply compareTagsWith_total.
        - now rewrite Hperm. }
      clear -Hs Htyped. induction Hs as [|x l Hl IH Hx]; [constructor|].
      apply Forall_cons in Htyped as [Hxt Hall]. constructor; [now apply IH|].
      destruct Hx as [|y l Hxy]; constructor.
      apply Forall_cons in Hall as [Hyt _]. now apply compareTagsWith_le.
  - intros order name. destruct Hcases as [[_ ->]| ->]; [reflexivity|].
    apply sort_filter. intros x y Hx Hy. unfold cmp, same_key in *.
    unfold compareTagsWith.
    destruct (Raw.Tag.order x) as [| | |ox| | |]; try discriminate.
    destruct (Raw.Tag.name x) as [| | | |nx| |]; try discriminate.
    destruct (Raw.Tag.order y) as [| | |oy| | |]; try discriminate.
    destruct (Raw.Tag.name y) as [| | | |ny| |]; try discriminate.
    apply andb_true_iff in Hx as [Ox Nx], Hy as [Oy Ny].
    apply Z.eqb_eq in Ox, Oy. apply String.eqb_eq in Nx, Ny. subst.
    simpl. rewrite Z.eqb_refl. simpl. apply Hrefl.
Qed.

(** X9. The tags of an imported dictionary, when each has a number for
    [order] and a string for name, come in ascending [order], and by name
    in the collation of the host among tags of the same [order]; they are
    the rows of the tag banks, each as often as it is there, and tags of
    the same [order] and name keep the order of their rows. *)
Theorem imported_tags_in_order (collate : string -> string -> Z) (source : Source.t)
    (dict : Raw.Dictionary.t) :
  (forall a b, ~ collate a b <= 0 -> collate b a <= 0) ->
  importSource (sortTagsWith collate) source = Ok dict ->
  Forall (fun t => well_typed_tag t = true) (Raw.Dictionary.tags dict) ->
  Sorted (tag_le collate) (Raw.Dictionary.tags dict)
  /\ exists rows,
       decodeBanks decodeTag source "tag" = Ok rows
       /\ Permutation rows (Raw.Dictionary.tags dict)
       /\ forall order name,
            List.filter (same_key order name) (Raw.Dictionary.tags dict)
            = List.filter (same_key order name) rows.
Proof.
  intros Htotal Himport Htyped.
  assert (Hrows : exists rows,
             decodeBanks decodeTag source "tag" = Ok rows
             /\ sortTagsWith collate rows = Ok (Raw.Dictionary.tags dict)).
  { unfold importSource in Himport. unfold decodeBanks.
    destruct (negb (truthy _)); [discriminate|].
    destruct (Source.file source INDEX_NAME) as [index|e]; simpl in Himport; [|discriminate].
    destruct (index_format index) as [format|e]; simpl in Himport; [|discriminate].
    destruct (negb _); [destruct (toString format); discriminate|].
    destruct (rfold (importBank source) (bankFiles source) _) as [d|e] eqn:Hfold;
      simpl in Himport; [|discriminate].
    destruct (sortTagsWith collate (Raw.Dictionary.tags d)) as [tags|e] eqn:Hsort;
      simpl in Himport; [|discriminate].
    injection Himport as <-. simpl.
    destruct (importBank_tags _ _ _ _ Hfold) as (rows & Hr & Htags).
    simpl in Htags. rewrite <- Htags in Hr. exists (Raw.Dictionary.tags d). now split. }
  destruct Hrows as (rows & Hdecode & Hsort).
  destruct (sortTagsWith_sorted collate rows _ Htotal Hsort Htyped) as (Hperm & Hs & Hst).
  split; [exact Hs|]. exists rows.
  split; [exact Hdecode|]. split; [exact Hperm | exact Hst].
Qed.

Lemma localeCompare_total (a b : string) :
  ~ localeCompare a b <= 0 -> localeCompare b a <= 0.
Proof.
  unfold localeCompare. rewrite (String.compare_antisym b a).
  destruct (String.compare a b); simpl; lia.
Qed.

Lemma imported_tags_in_order_witness :
  exists dict,
    importSource (sortTagsWith localeCompare) archive_tags = Ok dict
    /\ List.map Raw.Tag.name (Raw.Dictionary.tags dict) = [VStr "adj"; VStr "n"; VStr "v5"]
    /\ Sorted (tag_le localeCompare) (Raw.Dictionary.tags dict).
Proof.
  eexists. split; [reflexivity|]. split; [reflexivity|].
  apply (imported_tags_in_order localeCompare archive_tags _ localeCompare_total eq_refl).
  repeat constructor.
Defined.

(** ** Asking twice *)

Lemma or_str_idem (x y : string) : or_str (or_str x y) y = or_str x y.
Proof. unfold or_str. destruct (String.eqb_spec x ""); [|now destruct (String.eqb_spec x "")].
  destruct (String.eqb_spec y ""); congruence. Qed.

Lemma or_num_idem (x y : Z) : or_num (or_num x y) y = or_num x y.
Proof. unfold or_num. destruct (Z.eqb_spec x 0); [|now destruct (Z.eqb_spec x 0)].
  destruct (Z.eqb_spec y 0); congruence. Qed.

Lemma merge_again (occupant tag : Tag.t) :
  merge (merge occupant tag) tag = merge occupant tag.
Proof. unfold merge. simpl. now rewrite !or_str_idem, !or_num_idem. Qed.

Lemma merge_self (tag : Tag.t) : merge tag tag = tag.
Proof.
  destruct tag as [n c o d sc]. unfold merge, or_str, or_num. simpl.
  destruct (String.eqb c ""), (o =? 0), (String.eqb d ""), (sc =? 0); reflexivity.
Qed.

Lemma canMerge_refl (tag : Tag.t) : canMerge tag tag = true.
Proof. apply canMerge_spec. split; now left. Qed.

Lemma canMerge_merge (occupant tag : Tag.t) :
  canMerge tag occupant = true -> canMerge tag (merge occupant tag) = true.
Proof.
  rewrite !canMerge_spec. unfold merge. simpl. intros [Hc Hd]. split.
  - destruct (or_str_spec (Tag.category occupant) (Tag.category tag)) as [Hs He].
    destruct (String.eqb_spec (Tag.category occupant) "") as [E|N];
      [rewrite (He E); now left | rewrite (Hs N)].
    destruct Hc as [?|[?|?]]; [now left | right; now left | contradiction].
  - destruct (or_str_spec (Tag.description occupant) (Tag.description tag)) as [Hs He].
    destruct (String.eqb_spec (Tag.description occupant) "") as [E|N];
      [rewrite (He E); now left | rewrite (Hs N)].
    destruct Hd as [?|[?|?]]; [now left | right; now left | contradiction].
Qed.

(** X10. Asking for the id of the same name again, in the same dictionary,
    gives the same id and leaves the namespace and the ids of the
    dictionary as they are; only the usage count can go up.  This holds for
    the empty name too, whose id is looked for anew each time. *)
Theorem mapTag_again (names : gmap string Tag.t) (tagName : string)
    (used used' : bool) (s : St.t) :
  exists id s1,
    mapTag names tagName used s = Some (id, s1)
    /\ mapTag names tagName used' s1
       = Some (id, St.mk (St.tags s1) (bump used' id (St.tagUsage s1)) (St.mapped s1)).
Proof.
  destruct (mapTag_total names tagName used s) as [[id s1] Hm].
  exists id, s1. split; [exact Hm|].
  assert (Hmapped : St.mapped s1 !! tagName = Some id).
  { apply mapTag_cases in Hm as (_ & [(H & _ & _ & ->) | (_ & _ & ->)]);
      [exact H | apply lookup_insert_eq]. }
  destruct (nonempty id) eqn:Hne; [now apply mapTag_cached|].
  apply mapTag_cases in Hm as (_ & [(_ & H & _) | (_ & Hr & Hmap)]); [congruence|].
  assert (Hid : id = "" /\ tagName = "").
  { apply resolves_counter in Hr as (k & Hk & -> & _).
    destruct (Nat.le_gt_cases 2 k) as [H2|H2];
      [rewrite probeId_nonempty in Hne by exact H2; discriminate|].
    replace k with 1%nat in * by lia. simpl in *.
    unfold nonempty in Hne. destruct (String.eqb_spec tagName ""); [auto|discriminate]. }
  destruct Hid as [-> ->].
  assert (Hentry : exists entry,
             St.tags s1 !! "" = Some entry
             /\ canMerge (candidate names "") entry = true
             /\ merge entry (candidate names "") = entry).
  { apply resolves_outcome in Hr as [(_ & ->) | (o & _ & Hcm & ->)].
    - exists (candidate names ""). rewrite lookup_insert_eq.
      split; [reflexivity|]. split; [apply canMerge_refl | apply merge_self].
    - exists (merge o (candidate names "")). rewrite lookup_insert_eq.
      split; [reflexivity|]. split; [now apply canMerge_merge | apply merge_again]. }
  destruct Hentry as (entry & He & Hcm & Hmerge).
  unfold mapTag. rewrite Hmapped. cbn [nonempty String.eqb negb probe].
  rewrite He. fold (candidate names ""). rewrite Hcm, Hmerge.
  unfold bind, store, useIf, useTag, ret, bump.
  destruct used'; cbn [St.tags St.tagUsage St.mapped];
    rewrite (insert_id _ _ _ He), (insert_id _ _ _ Hmapped); reflexivity.
Qed.

(** ** Tags of the same name in one dictionary *)

Lemma byName_app (tags : list Tag.t) (t : Tag.t) :
  byName (tags ++ [t]) = <[Tag.name t := t]> (byName tags).
Proof. unfold byName. now rewrite foldl_app. Qed.

Lemma byName_lookup (tags : list Tag.t) (n : string) :
  byName tags !! n = last (List.filter (named n) tags).
Proof.
  induction tags as [|t tags IH] using rev_ind; [reflexivity|].
  rewrite byName_app, List.filter_app. simpl. unfold named at 2.
  destruct (String.eqb_spec (Tag.name t) n) as [->|Hne].
  - now rewrite lookup_insert_eq, last_snoc.
  - now rewrite lookup_insert_ne, app_nil_r.
Qed.

(** X11. Of the tags of one dictionary that have the same name, the one
    that comes last in the tag list stands for the name. *)
Theorem byName_last (tags : list Tag.t) (n : string) :
  byName tags !! n = last (List.filter (named n) tags)
  /\ candidate (byName tags) n
     = default (synthesized n) (last (List.filter (named n) tags)).
Proof.
  split; [apply byName_lookup|]. unfold candidate. now rewrite byName_lookup.
Qed.

(** ** Batches *)

Lemma mapM_app {A B} (f : A -> M B) (xs ys : list A) (s : St.t) :
  mapM f (xs ++ ys) s
  = match mapM f xs s with
    | Some (xs', s1) =>
        match mapM f ys s1 with
        | Some (ys', s2) => Some ((xs' ++ ys')%list, s2)
        | None => None
        end
    | None => None
    end.
Proof.
  revert s. induction xs as [|x xs IH]; intros s; cbn [mapM app].
  - unfold ret. now destruct (mapM f ys s) as [[ys' s2]|].
  - unfold bind, ret. destruct (f x s) as [[y s0]|]; [|reflexivity].
    rewrite IH. destruct (mapM f xs s0) as [[xs' s1]|]; [|reflexivity].
    now destruct (mapM f ys s1) as [[ys' s2]|].
Qed.

Lemma mapM_length {A B} (f : A -> M B) (xs : list A) (s : St.t) (ys : list B) (s' : St.t) :
  mapM f xs s = Some (ys, s') -> length ys = length xs.
Proof.
  revert s ys. induction xs as [|x xs IH]; intros s ys; cbn [mapM].
  - now intros [= <- _].
  - unfold bind, ret. destruct (f x s) as [[y s0]|]; [|discriminate].
    destruct (mapM f xs s0) as [[ys' s1]|] eqn:E; [|discriminate].
    intros [= <- <-]. simpl. f_equal. exact (IH s0 ys' E).
Qed.

Lemma mergeDict_tags (dict : Dictionary.t) (s : St.t) (dict' : Dictionary.t) (s' : St.t) :
  mergeDict dict s = Some (dict', s') -> Dictionary.tags dict' = Dictionary.tags dict.
Proof.
  unfold mergeDict. destruct (Dictionary.tags dict) as [|t ts] eqn:E.
  - now intros [= <- _].
  - unfold bind, ret.
    repeat match goal with
           | |- context [match ?m with Some _ => _ | None => _ end] =>
               destruct m as [[? ?]|]; [|discriminate]
           end.
    intros [= <- _]. reflexivity.
Qed.

Lemma mergeDict_tagless (dict : Dictionary.t) (s : St.t) :
  has_tags dict = false -> mergeDict dict s = Some (dict, s).
Proof.
  unfold has_tags, mergeDict. now destruct (Dictionary.tags dict).
Qed.

Lemma mapM_mergeDict_filter (ds : list Dictionary.t) (s : St.t)
    (ds' : list Dictionary.t) (s' : St.t) :
  mapM mergeDict ds s = Some (ds', s') ->
  mapM mergeDict (List.filter has_tags ds) s = Some (List.filter has_tags ds', s')
  /\ Forall2 (fun d d' => has_tags d = false -> d' = d) ds ds'.
Proof.
  revert s ds'. induction ds as [|d ds IH]; intros s ds'; cbn [mapM List.filter].
  - intros [= <- <-]. split; [reflexivity | constructor].
  - unfold bind, ret. destruct (mergeDict d s) as [[d' s0]|] eqn:Hd; [|discriminate].
    destruct (mapM mergeDict ds s0) as [[ds0 s1]|] eqn:Hds; [|discriminate].
    intros [= <- <-]. destruct (IH _ _ Hds) as [Hf Hsame].
    assert (Htags : has_tags d' = has_tags d)
      by (unfold has_tags; now rewrite (mergeDict_tags _ _ _ _ Hd)).
    cbn [List.filter]. rewrite Htags. destruct (has_tags d) eqn:Hhas.
    + split; [|constructor; [intros ?; congruence | exact Hsame]].
      cbn [mapM]. unfold bind, ret. now rewrite Hd, Hf.
    + rewrite (mergeDict_tagless d s Hhas) in Hd. injection Hd as <- <-.
      split; [exact Hf|]. constructor; [reflexivity | exact Hsame].
Qed.

(** X12. Dictionaries without tags take no part: leaving them out of the
    batch gives the same namespace and the same rewritten dictionaries, and
    they come back as they went in. *)
Theorem tagless_dictionaries_skipped (dictionaries : list Dictionary.t) (args : Args.t) :
  exists ns dictionaries',
    mergeTags dictionaries args = Some (ns, dictionaries')
    /\ mergeTags (List.filter has_tags dictionaries) args
       = Some (ns, List.filter has_tags dictionaries')
    /\ Forall2 (fun d d' => has_tags d = false -> d' = d) dictionaries dictionaries'.
Proof.
  destruct (mergeTags_result dictionaries args) as (ns & ds' & Hm & _).
  exists ns, ds'. split; [exact Hm|]. unfold mergeTags in *.
  destruct (mapM mergeDict dictionaries (St.mk ∅ ∅ ∅)) as [[ds0 s]|] eqn:Hrun;
    [|discriminate].
  injection Hm as <- <-. apply mapM_mergeDict_filter in Hrun as [-> Hsame].
  now split.
Qed.

Lemma namespace_ok_mono (P Q : string -> Prop) (tags : gmap string Tag.t) :
  (forall n, P n -> Q n) -> namespace_ok P tags -> namespace_ok Q tags.
Proof. intros HPQ Hns id e He. destruct (Hns id e He). auto. Qed.

Lemma run_extends (ds : list Dictionary.t) (s : St.t) (P : string -> Prop) :
  run_inv P s ->
  exists ds' s', mapM mergeDict ds s = Some (ds', s') /\ extends s s'
                 /\ forall id, 0 <= usage s' id.
Proof.
  intros [Hns Hpos].
  destruct (mapM_step mergeDict (run_inv (fun _ => True)) (fun _ _ _ => True) ds s)
    as (ds' & s' & Hm & [_ Hpos'] & Hext & _).
  - auto.
  - intros d s0 _ Hs0.
    destruct (mergeDict_step (fun _ => True) d s0 Hs0) as (d' & s1 & ? & ? & ? & _);
      [auto|]. exists d', s1. auto.
  - split; [|exact Hpos]. eapply namespace_ok_mono; [|exact Hns]. auto.
  - exists ds', s'. auto.
Qed.

Lemma isEmpty_false (t : Tag.t) :
  isEmpty t = false <->
  Tag.category t <> "" \/ Tag.description t <> "" \/ Tag.order t <> 0 \/ Tag.score t <> 0.
Proof.
  unfold isEmpty, nonempty.
  destruct (String.eqb_spec (Tag.category t) ""), (String.eqb_spec (Tag.description t) ""),
    (Z.eqb_spec (Tag.order t) 0), (Z.eqb_spec (Tag.score t) 0); simpl;
    (split; [intros H; try discriminate H; tauto | intros; try reflexivity; tauto]).
Qed.

Lemma isEmpty_fills (entry entry' : Tag.t) :
  fills entry entry' -> isEmpty entry = false -> isEmpty entry' = false.
Proof.
  intros (_ & Hc & Hd & Ho & Hs). rewrite !isEmpty_false.
  intros [H|[H|[H|H]]].
  - left. now rewrite (Hc H).
  - right; left. now rewrite (Hd H).
  - right; right; left. now rewrite (Ho H).
  - right; right; right. now rewrite (Hs H).
Qed.

(** X13. Dictionaries put at the end of a batch change nothing for the
    ones before them: those are rewritten as they are without the new
    ones, and every entry of the namespace they gave is still there under
    the same id, with gaps filled at most.  This holds whatever the flags
    are. *)
Theorem earlier_dictionaries_stable (before after : list Dictionary.t) (args : Args.t) :
  exists ns1 before' ns after',
    mergeTags before args = Some (ns1, before')
    /\ mergeTags (before ++ after)%list args = Some (ns, (before' ++ after')%list)
    /\ length before' = length before
    /\ forall id entry,
         ns1 !! id = Some entry ->
         exists entry', ns !! id = Some entry' /\ fills entry entry'.
Proof.
  destruct (merge_run before) as (before' & s1 & Hm1 & Hinv1 & _).
  destruct (run_extends after s1 _ Hinv1) as (after' & s2 & Hm2 & [Hent Huse] & Hpos2).
  exists (cleanup args s1), before', (cleanup args s2), after'.
  unfold mergeTags. rewrite mapM_app, Hm1, Hm2.
  split; [reflexivity|]. split; [reflexivity|].
  split; [eapply mapM_length; exact Hm1|].
  intros id entry He. apply cleanup_lookup in He as [He Hkept].
  destruct (Hent id entry He) as (entry' & He' & Hfills).
  exists entry'. split; [|exact Hfills]. apply cleanup_lookup. split; [exact He'|].
  unfold deleted in *. simpl in *.
  apply orb_false_iff in Hkept as [Hempty Hunused]. apply orb_false_iff. split.
  - destruct (Args.deleteEmpty args); [|reflexivity]. simpl in *.
    now apply (isEmpty_fills entry).
  - destruct (Args.deleteUnused args); [|reflexivity]. simpl in *.
    unfold isUnused in *. fold (usage s1 id) in Hunused. fold (usage s2 id).
    apply Z.eqb_neq in Hunused. apply Z.eqb_neq.
    destruct Hinv1 as [_ Hpos1]. specialize (Hpos1 id). specialize (Huse id). lia.
Qed.

(** ** The first dictionary *)

Lemma usage_bump_eq (used : bool) (id : string) (s s' : St.t) (i : string) :
  St.tagUsage s' = bump used id (St.tagUsage s) ->
  usage s' i = usage s i + (if used && bool_decide (i = id) then 1 else 0).
Proof.
  intros H. unfold usage. rewrite H. unfold bump. destruct used; simpl; [|lia].
  destruct (decide (i = id)) as [->|Hne].
  - rewrite lookup_insert_eq, bool_decide_eq_true_2 by reflexivity. reflexivity.
  - rewrite lookup_insert_ne, bool_decide_eq_false_2 by congruence. lia.
Qed.

Lemma usage_bump_iff (used : bool) (id : string) (s s' : St.t) (i : string) :
  St.tagUsage s' = bump used id (St.tagUsage s) -> 0 <= usage s i ->
  (0 <= usage s' i)
  /\ (usage s' i <> 0 <-> usage s i <> 0 \/ (used = true /\ i = id)).
Proof.
  intros H Hpos. rewrite (usage_bump_eq used id s s' i H).
  destruct used; simpl.
  - destruct (decide (i = id)) as [->|Hne].
    + rewrite bool_decide_eq_true_2 by reflexivity. split; [lia|]. split; [auto|lia].
    + rewrite bool_decide_eq_false_2 by exact Hne. split; [lia|].
      split; [intros; left; lia | intros [?|[_ ?]]; [lia | contradiction]].
  - split; [lia|]. split; [intros; left; lia | intros [?|[Hf _]]; [lia | discriminate Hf]].
Qed.

Lemma probe_own (fuel : nat) (tag : Tag.t) (tagName : string) (used : bool) (s : St.t) :
  (forall entry, St.tags s !! tagName = Some entry -> entry = tag) ->
  probe (S fuel) tag tagName used 1 tagName s
  = Some (tagName,
          St.mk (<[tagName := tag]> (St.tags s)) (bump used tagName (St.tagUsage s))
            (<[tagName := tagName]> (St.mapped s))).
Proof.
  intros Hown. cbn [probe]. destruct (St.tags s !! tagName) as [entry|] eqn:He.
  - rewrite (Hown entry eq_refl), canMerge_refl, merge_self. destruct used; reflexivity.
  - destruct used; reflexivity.
Qed.

Lemma owns_refl (names : gmap string Tag.t) (Q U : string -> Prop) (s : St.t) :
  own_names names s -> (forall id, ~ Q id) -> (forall id, ~ U id) -> owns names Q U s s.
Proof.
  intros Hs HQ HU. split; [exact Hs|].
  split; intros id; (split; [auto | intros [?|?]; [assumption|]]).
  - now destruct (HQ id).
  - now destruct (HU id).
Qed.

Lemma owns_seq (names : gmap string Tag.t) (Q1 U1 Q2 U2 Q U : string -> Prop)
    (s s1 s2 : St.t) :
  owns names Q1 U1 s s1 -> owns names Q2 U2 s1 s2 ->
  (forall id, Q id <-> Q1 id \/ Q2 id) -> (forall id, U id <-> U1 id \/ U2 id) ->
  owns names Q U s s2.
Proof.
  intros (_ & Ht1 & Hu1) (Hs2 & Ht2 & Hu2) HQ HU. split; [exact Hs2|].
  split; intros id.
  - rewrite Ht2, Ht1, HQ. tauto.
  - rewrite Hu2, Hu1, HU. tauto.
Qed.

Lemma owns_own (names : gmap string Tag.t) (Q U : string -> Prop) (s s' : St.t) :
  owns names Q U s s' -> own_names names s'.
Proof. now intros [? _]. Qed.

Lemma owns_iff (names : gmap string Tag.t) (Q U Q' U' : string -> Prop) (s s' : St.t) :
  owns names Q U s s' ->
  (forall id, Q' id <-> Q id) -> (forall id, U' id <-> U id) ->
  owns names Q' U' s s'.
Proof.
  intros (Hs & Ht & Hu) HQ HU. split; [exact Hs|].
  split; intros id; [rewrite Ht, HQ | rewrite Hu, HU]; reflexivity.
Qed.

Lemma owns_app (names : gmap string Tag.t) (xs ys : list string) (s s1 s2 : St.t) :
  owns names (fun id => In id xs) (fun id => In id xs) s s1 ->
  owns names (fun id => In id ys) (fun id => In id ys) s1 s2 ->
  owns names (fun id => In id (xs ++ ys)) (fun id => In id (xs ++ ys)) s s2.
Proof.
  intros H1 H2.
  apply (owns_seq names _ _ _ _ _ _ s s1 s2 H1 H2); intros id; apply in_app_iff.
Qed.

Lemma mapTag_own (names : gmap string Tag.t) (tagName : string) (used : bool) (s : St.t) :
  own_names names s ->
  exists s',
    mapTag names tagName used s = Some (tagName, s')
    /\ owns names (fun id => id = tagName) (fun id => used = true /\ id = tagName) s s'.
Proof.
  intros (Hent & Hmap & Hpos).
  assert (Hprobe : forall fuel,
    exists s', probe (S fuel) (candidate names tagName) tagName used 1 tagName s
               = Some (tagName, s')
      /\ owns names (fun id => id = tagName) (fun id => used = true /\ id = tagName) s s').
  { intros fuel. eexists. split; [apply probe_own; intros e He; exact (Hent _ _ He)|].
    split; [split; [|split]|split]; cbn [St.tags St.tagUsage St.mapped].
    - intros id e. destruct (decide (tagName = id)) as [<-|Hne].
      + rewrite lookup_insert_eq. congruence.
      + rewrite lookup_insert_ne by exact Hne. apply Hent.
    - intros n id. destruct (decide (tagName = n)) as [<-|Hne].
      + rewrite !lookup_insert_eq. intros [= <-]. split; [reflexivity | now eexists].
      + rewrite lookup_insert_ne by exact Hne. intros H.
        destruct (Hmap n id H) as [-> Hsome]. split; [reflexivity|].
        rewrite lookup_insert_ne by exact Hne. exact Hsome.
    - intros id. now apply (usage_bump_iff used tagName s _ id).
    - intros id. rewrite lookup_insert_is_Some.
      destruct (decide (tagName = id)); [subst; tauto|]. split; [tauto|].
      intros [?|?]; [tauto | congruence].
    - intros id. now apply (usage_bump_iff used tagName s _ id). }
  destruct (St.mapped s !! tagName) as [id|] eqn:Hm.
  - destruct (Hmap _ _ Hm) as [-> Hsome].
    destruct (nonempty tagName) eqn:Hne.
    + rewrite (mapTag_cached names tagName used s tagName Hm Hne). eexists.
      split; [reflexivity|].
      split; [split; [|split]|split]; cbn [St.tags St.tagUsage St.mapped].
      * exact Hent.
      * exact Hmap.
      * intros id. now apply (usage_bump_iff used tagName s _ id).
      * intros id. split; [auto | intros [?| ->]; assumption].
      * intros id. now apply (usage_bump_iff used tagName s _ id).
    + unfold mapTag. rewrite Hm, Hne. apply Hprobe.
  - unfold mapTag. rewrite Hm. apply Hprobe.
Qed.

Section FirstDictionary.
Variable names : gmap string Tag.t.

Lemma mapM_own {A B} (f : A -> M B) (h : A -> B) (q u : A -> string -> Prop)
    (xs : list A) (s : St.t) :
  (forall x s, In x xs -> own_names names s ->
     exists s', f x s = Some (h x, s') /\ owns names (q x) (u x) s s') ->
  own_names names s ->
  exists s',
    mapM f xs s = Some (List.map h xs, s')
    /\ owns names (fun id => exists x, In x xs /\ q x id)
         (fun id => exists x, In x xs /\ u x id) s s'.
Proof.
  revert s. induction xs as [|x xs IH]; intros s Hf Hs.
  - exists s. split; [reflexivity|].
    apply owns_refl; [exact Hs | |]; intros id (x & Hx & _); destruct Hx.
  - destruct (Hf x s (or_introl eq_refl) Hs) as (s1 & Hx & Ho1).
    destruct (IH s1) as (s2 & Hxs & Ho2).
    { intros y s0 Hy. apply Hf. now right. }
    { exact (owns_own _ _ _ _ _ Ho1). }
    exists s2. cbn [mapM List.map]. unfold bind, ret. rewrite Hx, Hxs.
    split; [reflexivity|].
    eapply owns_seq; [exact Ho1 | exact Ho2 | |]; intros id; simpl; split.
    + intros (y & [<-|Hy] & Hq); [now left | right; now exists y].
    + intros [Hq|(y & Hy & Hq)]; [exists x; auto | exists y; auto].
    + intros (y & [<-|Hy] & Hq); [now left | right; now exists y].
    + intros [Hq|(y & Hy & Hq)]; [exists x; auto | exists y; auto].
Qed.

Lemma mapRefs_own (xs : list string) (s : St.t) :
  own_names names s ->
  exists s',
    mapM (fun x => mapTag names x true) xs s = Some (xs, s')
    /\ owns names (fun id => In id xs) (fun id => In id xs) s s'.
Proof.
  intros Hs.
  destruct (mapM_own (fun x => mapTag names x true) (fun x => x)
              (fun x id => id = x) (fun x id => true = true /\ id = x) xs s)
    as (s' & Hm & Ho & Ht & Hu).
  - intros x s0 _ Hs0. now apply mapTag_own.
  - exact Hs.
  - exists s'. rewrite List.map_id in Hm. split; [exact Hm|]. split; [exact Ho|].
    split; intros id.
    + rewrite Ht. split; (intros [?|H]; [now left | right]).
      * now destruct H as (x & Hx & ->).
      * now exists id.
    + rewrite Hu. split; (intros [?|H]; [now left | right]).
      * now destruct H as (x & Hx & _ & ->).
      * now exists id.
Qed.

Lemma mapTerm_own (it : Term.t) (s : St.t) :
  own_names names s ->
  exists s',
    mapTerm names it s = Some (it, s')
    /\ owns names (fun id => In id (term_refs it)) (fun id => In id (term_refs it)) s s'.
Proof.
  intros Hs. unfold mapTerm, bind, ret.
  destruct (mapRefs_own (Term.term_tags it) s Hs) as (s1 & -> & Ho1).
  destruct (mapRefs_own (Term.definition_tags it) s1 (owns_own _ _ _ _ _ Ho1))
    as (s2 & -> & Ho2).
  destruct (mapRefs_own (Term.rules it) s2 (owns_own _ _ _ _ _ Ho2)) as (s3 & -> & Ho3).
  exists s3. split; [now destruct it|].
  unfold term_refs. exact (owns_app _ _ _ _ _ _ Ho1 (owns_app _ _ _ _ _ _ Ho2 Ho3)).
Qed.

Lemma mapStats_own (stats mappedStats : list (string * string)) (s : St.t) :
  own_names names s ->
  exists s',
    mapStats names stats mappedStats s = Some (restats mappedStats stats, s')
    /\ owns names (fun id => In id (obj_keys stats)) (fun id => In id (obj_keys stats)) s s'.
Proof.
  revert mappedStats s. induction stats as [|[key v] stats IH]; intros acc s Hs.
  - exists s. split; [reflexivity|]. now apply owns_refl.
  - cbn [mapStats]. unfold bind.
    destruct (mapTag_own names key true s Hs) as (s1 & -> & Ho1).
    destruct (IH (obj_set key v acc) s1 (owns_own _ _ _ _ _ Ho1)) as (s2 & -> & Ho2).
    exists s2. split; [reflexivity|].
    apply (owns_app names [key] (obj_keys stats) s s1 s2); [|exact Ho2].
    apply (owns_iff _ _ _ _ _ _ _ Ho1); intros id; simpl;
      (split; [intros [<-|Hf]; [auto | destruct Hf] | intros H; left; symmetry; apply H]).
Qed.

Lemma mapKanji_own (it : Kanji.t) (s : St.t) :
  own_names names s ->
  exists s',
    mapKanji names it s = Some (restat it, s')
    /\ owns names (fun id => In id (kanji_refs it)) (fun id => In id (kanji_refs it)) s s'.
Proof.
  intros Hs. unfold mapKanji, bind, ret.
  destruct (mapRefs_own (Kanji.tags it) s Hs) as (s1 & -> & Ho1).
  destruct (mapStats_own (Kanji.stats it) [] s1 (owns_own _ _ _ _ _ Ho1))
    as (s2 & -> & Ho2).
  exists s2. split; [reflexivity|].
  unfold kanji_refs. exact (owns_app _ _ _ _ _ _ Ho1 Ho2).
Qed.
End FirstDictionary.

Lemma restats_plain (mappedStats stats : list (string * string)) :
  plain_keys stats ->
  (forall key, In key (obj_keys stats) -> ~ In key (obj_keys mappedStats)) ->
  restats mappedStats stats = (mappedStats ++ stats)%list.
Proof.
  revert mappedStats. induction stats as [|[key v] stats IH]; intros acc [Hnd Hplain] Hnew.
  - now rewrite app_nil_r.
  - simpl in Hnd, Hplain. apply NoDup_cons in Hnd as [Hkey Hnd].
    apply Forall_cons in Hplain as [[Hproto Hindex] Hplain].
    unfold restats. cbn [foldl]. fold (restats (obj_set key v acc) stats).
    assert (Hset : obj_set key v acc = (acc ++ [(key, v)])%list).
    { unfold obj_set. cbn [fst snd]. rewrite Hindex.
      destruct (String.eqb_spec key "__proto__"); [contradiction|].
      destruct (obj_has key acc) eqn:Hhas; [|reflexivity].
      apply obj_has_In in Hhas. destruct (Hnew key); [now left | exact Hhas]. }
    cbn [fst snd]. rewrite Hset, IH; [now rewrite <- app_assoc | now split |].
    intros k Hk. unfold obj_keys. rewrite List.map_app, in_app_iff. simpl.
    intros [Hacc|[<-|Hf]]; [| |destruct Hf].
    + apply (Hnew k); [now right | exact Hacc].
    + apply Hkey. now apply list_elem_of_In.
Qed.

Lemma restat_plain (it : Kanji.t) : plain_keys (Kanji.stats it) -> restat it = it.
Proof.
  intros Hplain. unfold restat. rewrite restats_plain; [now destruct it | exact Hplain|].
  intros key _ Hf. destruct Hf.
Qed.

Lemma own_names_empty (names : gmap string Tag.t) : own_names names (St.mk ∅ ∅ ∅).
Proof.
  split; [|split]; cbn [St.tags St.mapped].
  - intros id e H. now rewrite lookup_empty in H.
  - intros n id H. now rewrite lookup_empty in H.
  - intros id. unfold usage. cbn [St.tagUsage]. now rewrite lookup_empty.
Qed.

(** The first dictionary with tags of a batch. *)
Lemma mergeDict_first (dict : Dictionary.t) :
  Dictionary.tags dict <> [] ->
  exists s',
    mergeDict dict (St.mk ∅ ∅ ∅)
    = Some (Dictionary.mk (Dictionary.index dict) (Dictionary.terms dict)
              (List.map restat (Dictionary.kanji dict)) (Dictionary.tags dict)
              (Dictionary.terms_meta dict) (Dictionary.kanji_meta dict), s')
    /\ owns (byName (Dictionary.tags dict)) (mentions dict)
         (fun id => In id (references dict)) (St.mk ∅ ∅ ∅) s'.
Proof.
  intros Htags. unfold mergeDict.
  destruct (Dictionary.tags dict) as [|t ts] eqn:Etags; [contradiction|].
  set (names := byName (t :: ts)). cbn [St.tags St.tagUsage].
  destruct (mapM_own names (fun it => mapTag names (Tag.name it) false) Tag.name
              (fun it id => id = Tag.name it)
              (fun it id => false = true /\ id = Tag.name it) (t :: ts) (St.mk ∅ ∅ ∅))
    as (s1 & Hm1 & Ho1).
  { intros it s0 _ Hs0. now apply mapTag_own. }
  { apply own_names_empty. }
  destruct (mapM_own names (mapTerm names) (fun it => it)
              (fun it id => In id (term_refs it)) (fun it id => In id (term_refs it))
              (Dictionary.terms dict) s1)
    as (s2 & Hm2 & Ho2).
  { intros it s0 _ Hs0. now apply mapTerm_own. }
  { exact (owns_own _ _ _ _ _ Ho1). }
  destruct (mapM_own names (mapKanji names) restat
              (fun it id => In id (kanji_refs it)) (fun it id => In id (kanji_refs it))
              (Dictionary.kanji dict) s2)
    as (s3 & Hm3 & Ho3).
  { intros it s0 _ Hs0. now apply mapKanji_own. }
  { exact (owns_own _ _ _ _ _ Ho2). }
  exists s3. unfold bind, ret. rewrite Hm1, Hm2, Hm3, List.map_id.
  split; [reflexivity|].
  pose proof (owns_seq names _ _ _ _ _ _ s1 s2 s3 Ho2 Ho3
                (fun id => iff_refl _) (fun id => iff_refl _)) as Ho23.
  apply (owns_seq names _ _ _ _ _ _ _ s1 s3 Ho1 Ho23).
  - intros id. unfold mentions, references. rewrite Etags, in_app_iff, !in_flat_map.
    rewrite in_map_iff. split.
    + intros [(it & <- & Hit)|[H|H]]; [left; now exists it | right; now left | right; now right].
    + intros [(it & Hit & ->)|[H|H]]; [left; now exists it | right; now left | right; now right].
  - intros id. unfold references. rewrite in_app_iff, !in_flat_map. split.
    + intros [H|H]; right; [now left | now right].
    + intros [(it & _ & [=] & _)|[H|H]]; [now left | now right].
Qed.

Lemma mapM_mergeDict_tagless (ds : list Dictionary.t) (s : St.t) :
  Forall (fun d => has_tags d = false) ds -> mapM mergeDict ds s = Some (ds, s).
Proof.
  induction 1 as [|d ds Hd _ IH]; [reflexivity|].
  cbn [mapM]. unfold bind, ret. now rewrite (mergeDict_tagless d s Hd), IH.
Qed.

(** X14. The first dictionary of a batch that has tags keeps its names:
    every name it defines or refers to is its own id, so its terms, its
    tags and the tag lists of its kanji come back as they are.  The [stats]
    of a kanji are put together again key by key, which gives the same
    object when its keys are plain. *)
Theorem first_dictionary_keeps_names (before : list Dictionary.t) (dict : Dictionary.t)
    (after : list Dictionary.t) (args : Args.t) :
  Forall (fun d => has_tags d = false) before ->
  exists ns dict' after',
    mergeTags (before ++ dict :: after)%list args
    = Some (ns, (before ++ dict' :: after')%list)
    /\ length after' = length after
    /\ Dictionary.index dict' = Dictionary.index dict
    /\ Dictionary.terms dict' = Dictionary.terms dict
    /\ Dictionary.tags dict' = Dictionary.tags dict
    /\ Dictionary.terms_meta dict' = Dictionary.terms_meta dict
    /\ Dictionary.kanji_meta dict' = Dictionary.kanji_meta dict
    /\ List.map Kanji.tags (Dictionary.kanji dict')
       = List.map Kanji.tags (Dictionary.kanji dict)
    /\ (Forall (fun it => plain_keys (Kanji.stats it)) (Dictionary.kanji dict) ->
        dict' = dict).
Proof.
  intros Hbefore.
  assert (Hfirst : exists dict' s1,
    mergeDict dict (St.mk ∅ ∅ ∅) = Some (dict', s1)
    /\ (forall id, 0 <= usage s1 id)
    /\ (forall id e, St.tags s1 !! id = Some e -> id_of (Tag.name e) id)
    /\ Dictionary.index dict' = Dictionary.index dict
    /\ Dictionary.terms dict' = Dictionary.terms dict
    /\ Dictionary.tags dict' = Dictionary.tags dict
    /\ Dictionary.terms_meta dict' = Dictionary.terms_meta dict
    /\ Dictionary.kanji_meta dict' = Dictionary.kanji_meta dict
    /\ List.map Kanji.tags (Dictionary.kanji dict')
       = List.map Kanji.tags (Dictionary.kanji dict)
    /\ (Forall (fun it => plain_keys (Kanji.stats it)) (Dictionary.kanji dict) ->
        dict' = dict)).
  { destruct (has_tags dict) eqn:Hhas.
    - assert (Htags : Dictionary.tags dict <> [])
        by (unfold has_tags in Hhas; now destruct (Dictionary.tags dict)).
      destruct (mergeDict_first dict Htags) as (s1 & Hm & (Hent & _ & Hpos) & _).
      eexists _, s1. split; [exact Hm|]. cbn [Dictionary.index Dictionary.terms
        Dictionary.tags Dictionary.terms_meta Dictionary.kanji_meta Dictionary.kanji].
      split; [exact Hpos|]. split.
      { intros id e He. rewrite (Hent id e He).
        rewrite candidate_name by apply byName_names_ok. exists 1%nat. now split. }
      repeat (split; [reflexivity|]). split.
      + rewrite List.map_map. now apply List.map_ext.
      + intros Hplain. destruct dict as [ix terms kanji tags tm km]. simpl in *.
        f_equal. rewrite <- (List.map_id kanji) at 2. apply List.map_ext_in.
        intros it Hit. apply restat_plain. rewrite Forall_forall in Hplain.
        apply Hplain. now apply list_elem_of_In.
    - exists dict, (St.mk ∅ ∅ ∅). split; [now apply mergeDict_tagless|].
      split; [intros id; unfold usage; cbn [St.tagUsage]; now rewrite lookup_empty|].
      split; [intros id e H; cbn [St.tags] in H; now rewrite lookup_empty in H|].
      now repeat split. }
  destruct Hfirst as (dict' & s1 & Hm & Hpos & Hids & Hsame).
  destruct (run_extends after s1 (fun _ => True)) as (after' & s2 & Hafter & _).
  { split; [|exact Hpos]. intros id e He. split; [exact I | exact (Hids id e He)]. }
  exists (cleanup args s2), dict', after'. split.
  - unfold mergeTags. rewrite mapM_app, (mapM_mergeDict_tagless before _ Hbefore).
    cbn [mapM]. unfold bind, ret. now rewrite Hm, Hafter.
  - split; [eapply mapM_length; exact Hafter | exact Hsame].
Qed.

Lemma first_dictionary_keeps_names_witness :
  exists ns after',
    mergeTags [dict_no_tags; dict_kanji; sample_dict "b" [v5_noun] ["v5"]] Args.default
    = Some (ns, dict_no_tags :: dict_kanji :: after').
Proof.
  destruct (first_dictionary_keeps_names [dict_no_tags] dict_kanji
              [sample_dict "b" [v5_noun] ["v5"]] Args.default)
    as (ns & dict' & after' & Hm & _ & _ & _ & _ & _ & _ & _ & Hplain).
  - repeat constructor.
  - exists ns, after'. rewrite Hplain in Hm; [exact Hm|].
    constructor; [|constructor]. split.
    + apply NoDup_cons_2; [|apply NoDup_singleton].
      apply not_elem_of_cons. split; [discriminate | apply not_elem_of_nil].
    + constructor; [split; [discriminate | reflexivity]|].
      constructor; [split; [discriminate | reflexivity] | constructor].
Defined.

(** X15. What [mergeTags] gives for one dictionary that has tags: the
    namespace has, under each name the dictionary defines or refers to, the
    tag that stands for the name in the dictionary, but for the entries
    the flags take away: with [deleteEmpty] the ones without content, with
    [deleteUnused] the ones no term or kanji refers to.  It has nothing
    else. *)
Theorem single_dictionary_namespace (dict : Dictionary.t) (args : Args.t) :
  Dictionary.tags dict <> [] ->
  exists ns dict',
    mergeTags [dict] args = Some (ns, [dict'])
    /\ forall n entry,
         ns !! n = Some entry <->
         entry = candidate (byName (Dictionary.tags dict)) n
         /\ mentions dict n
         /\ (Args.deleteEmpty args = true -> isEmpty entry = false)
         /\ (Args.deleteUnused args = true -> In n (references dict)).
Proof.
  intros Htags.
  destruct (mergeDict_first dict Htags) as (s & Hm & (Hent & _ & _) & Hkeys & Huse).
  eexists (cleanup args s), _. split.
  { unfold mergeTags. cbn [mapM]. unfold bind, ret. rewrite Hm. reflexivity. }
  intros n entry. rewrite cleanup_lookup. unfold deleted, isUnused. cbn [fst snd].
  fold (usage s n). rewrite orb_false_iff, !andb_false_iff.
  specialize (Hkeys n). specialize (Huse n).
  cbn [St.tags] in Hkeys. rewrite lookup_empty in Hkeys.
  unfold usage at 2 in Huse. cbn [St.tagUsage] in Huse. rewrite lookup_empty in Huse.
  simpl in Huse. rewrite Z.eqb_neq.
  assert (Hused : usage s n <> 0 <-> In n (references dict)).
  { rewrite Huse. split; [intros [Hf|H]; [now destruct Hf | exact H] | now right]. }
  assert (Hkey : is_Some (St.tags s !! n) <-> mentions dict n).
  { rewrite Hkeys. split; [intros [[x Hx]|H]; [discriminate Hx | exact H] | now right]. }
  clear Hkeys Huse. split.
  - intros (He & Hempty & Hunused). split; [exact (Hent n entry He)|].
    split; [apply Hkey; now exists entry|]. split.
    + intros HdE. destruct Hempty as [H|H]; [congruence | exact H].
    + intros HdU. destruct Hunused as [H|H]; [congruence | now apply Hused].
  - intros (-> & Hmention & HdE & HdU).
    destruct (proj2 Hkey Hmention) as [e He].
    rewrite (Hent n e He) in He. split; [exact He|]. split.
    + destruct (Args.deleteEmpty args); [right; now apply HdE | now left].
    + destruct (Args.deleteUnused args); [right | now left].
      apply Hused. now apply HdU.
Qed.

Lemma single_dictionary_namespace_witness :
  exists ns dict',
    mergeTags [dict_kanji] (Args.mk true true) = Some (ns, [dict'])
    /\ ns !! "v1" = Some (Tag.mk "v1" "verb" 1 "Ichidan verb" 0)
    /\ ns !! "old" = None /\ ns !! "grade" = None.
Proof.
  destruct (single_dictionary_namespace dict_kanji (Args.mk true true))
    as (ns & dict' & Hm & Hns); [discriminate|].
  exists ns, dict'. split; [exact Hm|]. split; [|split].
  - apply Hns. split; [reflexivity|]. split; [left; simpl; tauto|].
    split; [reflexivity | intros _; simpl; tauto].
  - destruct (ns !! "old") as [e|] eqn:He; [|reflexivity].
    apply Hns in He as (-> & _ & Hempty & _). discriminate (Hempty eq_refl).
  - destruct (ns !! "grade") as [e|] eqn:He; [|reflexivity].
    apply Hns in He as (-> & _ & Hempty & _). discriminate (Hempty eq_refl).
Defined.

(** ** What is counted as used *)

Lemma counts_mapTag (names : gmap string Tag.t) (tagName : string) (used : bool) :
  counts (fun id i => used = true /\ i = id) (mapTag names tagName used).
Proof.
  intros s id s' Hm i Hi. apply mapTag_cases in Hm as [Hu _].
  rewrite (usage_bump_eq used id s s' i Hu) in Hi.
  destruct used; simpl in Hi; [|left; lia].
  destruct (decide (i = id)) as [->|Hne]; [right; now split|].
  rewrite bool_decide_eq_false_2 in Hi by exact Hne. left. lia.
Qed.

Lemma counts_mapM {A B} (T : B -> string -> Prop) (f : A -> M B) (xs : list A) :
  (forall x, In x xs -> counts T (f x)) ->
  counts (fun ys i => exists y, In y ys /\ T y i) (mapM f xs).
Proof.
  induction xs as [|x xs IH]; intros Hf s ys s'; cbn [mapM].
  - intros [= <- <-] i Hi. now left.
  - unfold bind, ret. destruct (f x s) as [[y s0]|] eqn:Hx; [|discriminate].
    destruct (mapM f xs s0) as [[ys' s1]|] eqn:Hxs; [|discriminate].
    intros [= <- <-] i Hi.
    destruct (IH (fun z Hz => Hf z (or_intror Hz)) s0 ys' s1 Hxs i Hi)
      as [H0|(y' & Hy' & HT)].
    + destruct (Hf x (or_introl eq_refl) s y s0 Hx i H0) as [H|H]; [now left|].
      right. exists y. split; [now left | exact H].
    + right. exists y'. split; [now right | exact HT].
Qed.

Lemma counts_mapRefs (names : gmap string Tag.t) (xs : list string) :
  counts (fun ys i => In i ys) (mapM (fun x => mapTag names x true) xs).
Proof.
  intros s ys s' Hm i Hi.
  destruct (counts_mapM (fun id i => true = true /\ i = id)
              (fun x => mapTag names x true) xs
              (fun x _ => counts_mapTag names x true) s ys s' Hm i Hi)
    as [H|(y & Hy & _ & ->)]; [now left | now right].
Qed.

Lemma counts_mapTerm (names : gmap string Tag.t) (it : Term.t) :
  counts (fun it' i => In i (term_refs it')) (mapTerm names it).
Proof.
  intros s it' s'. unfold mapTerm, bind, ret.
  destruct (mapM _ (Term.term_tags it) s) as [[a s1]|] eqn:H1; [|discriminate].
  destruct (mapM _ (Term.definition_tags it) s1) as [[b s2]|] eqn:H2; [|discriminate].
  destruct (mapM _ (Term.rules it) s2) as [[c s3]|] eqn:H3; [|discriminate].
  intros [= <- <-] i Hi. unfold term_refs.
  cbn [Term.term_tags Term.definition_tags Term.rules]. rewrite !in_app_iff.
  destruct (counts_mapRefs _ _ _ _ _ H3 i Hi) as [Hi2|H]; [|tauto].
  destruct (counts_mapRefs _ _ _ _ _ H2 i Hi2) as [Hi1|H]; [|tauto].
  destruct (counts_mapRefs _ _ _ _ _ H1 i Hi1) as [Hi0|H]; tauto.
Qed.

Lemma mapStats_keys (names : gmap string Tag.t) (stats mappedStats : list (string * string))
    (s : St.t) (stats' : list (string * string)) (s' : St.t) :
  mapStats names stats mappedStats s = Some (stats', s') ->
  forall key, In key (obj_keys mappedStats) -> In key (obj_keys stats').
Proof.
  revert mappedStats s. induction stats as [|[key v] stats IH]; intros acc s; cbn [mapStats].
  - now intros [= <- _].
  - unfold bind. destruct (mapTag names key true s) as [[id s1]|]; [|discriminate].
    intros Hrest k Hk. apply (IH _ _ Hrest). now apply obj_set_keys_old.
Qed.

Lemma counts_mapStats (names : gmap string Tag.t) (stats mappedStats : list (string * string)) :
  counts (fun stats' i => In i (obj_keys stats') \/ i = "__proto__")
    (mapStats names stats mappedStats).
Proof.
  revert mappedStats. induction stats as [|[key v] stats IH]; intros acc s stats' s';
    cbn [mapStats].
  - intros [= <- <-] i Hi. now left.
  - unfold bind. destruct (mapTag names key true s) as [[id s1]|] eqn:Hkey; [|discriminate].
    intros Hrest i Hi.
    destruct (IH _ _ _ _ Hrest i Hi) as [Hi1|H]; [|now right].
    destruct (counts_mapTag names key true s id s1 Hkey i Hi1) as [H|[_ ->]]; [now left|].
    right. destruct (String.eqb_spec id "__proto__") as [->|Hproto]; [now right|].
    left. apply (mapStats_keys _ _ _ _ _ _ Hrest). now apply obj_set_keys_new.
Qed.

Lemma counts_mapKanji (names : gmap string Tag.t) (it : Kanji.t) :
  counts (fun it' i => In i (kanji_refs it') \/ i = "__proto__") (mapKanji names it).
Proof.
  intros s it' s'. unfold mapKanji, bind, ret.
  destruct (mapM _ (Kanji.tags it) s) as [[a s1]|] eqn:H1; [|discriminate].
  destruct (mapStats names (Kanji.stats it) [] s1) as [[b s2]|] eqn:H2; [|discriminate].
  intros [= <- <-] i Hi. unfold kanji_refs. cbn [Kanji.tags Kanji.stats].
  rewrite in_app_iff.
  destruct (counts_mapStats _ _ _ _ _ _ H2 i Hi) as [Hi1|H]; [|tauto].
  destruct (counts_mapRefs _ _ _ _ _ H1 i Hi1) as [Hi0|H]; tauto.
Qed.

Lemma counts_mergeDict (dict : Dictionary.t) :
  counts (fun dict' i => Dictionary.tags dict' <> []
                         /\ (In i (references dict') \/ i = "__proto__"))
    (mergeDict dict).
Proof.
  intros s dict' s'. unfold mergeDict.
  destruct (Dictionary.tags dict) as [|t ts] eqn:Etags.
  - intros [= <- <-] i Hi. now left.
  - unfold bind, ret.
    destruct (mapM _ (t :: ts) _) as [[ids s1]|] eqn:H1; [|discriminate].
    destruct (mapM _ (Dictionary.terms dict) s1) as [[terms s2]|] eqn:H2; [|discriminate].
    destruct (mapM _ (Dictionary.kanji dict) s2) as [[kanji s3]|] eqn:H3; [|discriminate].
    intros [= <- <-] i Hi. cbn [Dictionary.tags]. unfold references.
    cbn [Dictionary.terms Dictionary.kanji]. rewrite in_app_iff, !in_flat_map.
    destruct (counts_mapM _ _ _ (fun it _ => counts_mapKanji _ it) _ _ _ H3 i Hi)
      as [Hi2|(it' & Hit' & [Hin|Hproto])];
      [|right; split; [discriminate | left; right; now exists it']
       |right; split; [discriminate | now right]].
    destruct (counts_mapM _ _ _ (fun it _ => counts_mapTerm _ it) _ _ _ H2 i Hi2)
      as [Hi1|(it' & Hit' & Hin)];
      [|right; split; [discriminate | left; left; now exists it']].
    destruct (counts_mapM _ _ _ (fun it _ => counts_mapTag _ (Tag.name it) false)
                _ _ _ H1 i Hi1)
      as [Hi0|(y & _ & Hf & _)]; [now left | discriminate Hf].
Qed.

(** X16. With [deleteUnused], every id left in the namespace is one that a
    term or a kanji of a rewritten dictionary with tags refers to (but for
    [__proto__], which a kanji cannot have as a key of its rewritten
    [stats]). *)
Theorem unused_ids_deleted (dictionaries : list Dictionary.t) (args : Args.t) :
  Args.deleteUnused args = true ->
  exists ns dictionaries',
    mergeTags dictionaries args = Some (ns, dictionaries')
    /\ forall id entry,
         ns !! id = Some entry ->
         id = "__proto__"
         \/ exists dict',
              In dict' dictionaries' /\ Dictionary.tags dict' <> []
              /\ In id (references dict').
Proof.
  intros HdU. destruct (merge_run dictionaries) as (ds' & s & Hm & _).
  exists (cleanup args s), ds'. unfold mergeTags. rewrite Hm.
  split; [reflexivity|]. intros id entry He.
  apply cleanup_lookup in He as [_ Hkept]. unfold deleted in Hkept.
  apply orb_false_iff in Hkept as [_ Hused]. rewrite HdU in Hused.
  cbn [andb fst] in Hused. unfold isUnused in Hused. fold (usage s id) in Hused.
  apply Z.eqb_neq in Hused.
  destruct (counts_mapM _ _ _ (fun d _ => counts_mergeDict d) _ _ _ Hm id Hused)
    as [H0|(dict' & Hin & Htags & [Href|Hproto])].
  - unfold usage in H0. cbn [St.tagUsage] in H0. now rewrite lookup_empty in H0.
  - right. now exists dict'.
  - now left.
Qed.

Lemma unused_ids_deleted_witness :
  exists ns dictionaries',
    mergeTags [dict_kanji] (Args.mk true false) = Some (ns, dictionaries')
    /\ forall id entry,
         ns !! id = Some entry ->
         id = "__proto__"
         \/ exists dict',
              In dict' dictionaries' /\ Dictionary.tags dict' <> []
              /\ In id (references dict').
Proof. apply (unused_ids_deleted [dict_kanji] (Args.mk true false)). reflexivity. Defined.

(** ** Where the content of an entry comes from *)

Lemma preserves_mapM {A B} (I : St.t -> Prop) (f : A -> M B) (xs : list A) :
  (forall x, In x xs -> preserves I (f x)) -> preserves I (mapM f xs).
Proof.
  induction xs as [|x xs IH]; intros Hf s ys s'; cbn [mapM].
  - now intros [= _ <-].
  - unfold bind, ret. destruct (f x s) as [[y s0]|] eqn:Hx; [|discriminate].
    destruct (mapM f xs s0) as [[ys' s1]|] eqn:Hxs; [|discriminate].
    intros [= _ <-] Hs.
    apply (IH (fun z Hz => Hf z (or_intror Hz)) s0 ys' s1 Hxs).
    exact (Hf x (or_introl eq_refl) s y s0 Hx Hs).
Qed.

Lemma byName_In (tags : list Tag.t) (n : string) (t : Tag.t) :
  byName tags !! n = Some t -> In t tags.
Proof.
  rewrite byName_lookup. intros Hlast. apply last_Some in Hlast as [l Hl].
  assert (Hin : In t (List.filter (named n) tags))
    by (rewrite Hl, in_app_iff; right; now left).
  now apply List.filter_In in Hin as [Hin _].
Qed.

Lemma sourced_merge (dictionaries : list Dictionary.t) (occupant tag : Tag.t) :
  sourced dictionaries occupant -> sourced dictionaries tag ->
  sourced dictionaries (merge occupant tag).
Proof.
  intros (Oc & Od & Oo & Os) (Tc & Td & To & Ts). unfold merge, sourced. simpl.
  destruct (or_str_spec (Tag.category occupant) (Tag.category tag)) as [C1 C2].
  destruct (or_str_spec (Tag.description occupant) (Tag.description tag)) as [D1 D2].
  destruct (or_num_spec (Tag.order occupant) (Tag.order tag)) as [O1 O2].
  destruct (or_num_spec (Tag.score occupant) (Tag.score tag)) as [S1 S2].
  split; [|split; [|split]].
  - destruct (String.eqb_spec (Tag.category occupant) "") as [E|N];
      [rewrite (C2 E); exact Tc | rewrite (C1 N); intros _; now apply Oc].
  - destruct (String.eqb_spec (Tag.description occupant) "") as [E|N];
      [rewrite (D2 E); exact Td | rewrite (D1 N); intros _; now apply Od].
  - destruct (Z.eqb_spec (Tag.order occupant) 0) as [E|N];
      [rewrite (O2 E); exact To | rewrite (O1 N); intros _; now apply Oo].
  - destruct (Z.eqb_spec (Tag.score occupant) 0) as [E|N];
      [rewrite (S2 E); exact Ts | rewrite (S1 N); intros _; now apply Os].
Qed.

Lemma sourced_candidate (dictionaries : list Dictionary.t) (dict : Dictionary.t)
    (tagName : string) :
  In dict dictionaries ->
  sourced dictionaries (candidate (byName (Dictionary.tags dict)) tagName).
Proof.
  intros Hin. unfold candidate.
  destruct (byName (Dictionary.tags dict) !! tagName) as [t|] eqn:Ht; simpl.
  - apply byName_In in Ht.
    assert (Hdef : defines dictionaries t) by (now exists dict).
    repeat split; intros _; now exists t.
  - repeat split; intros H; now destruct H.
Qed.

Section Sourced.
Variables (dictionaries : list Dictionary.t) (names : gmap string Tag.t).
Hypothesis Hnames : forall tagName, sourced dictionaries (candidate names tagName).

Lemma preserves_mapTag (tagName : string) (used : bool) :
  preserves (all_sourced dictionaries) (mapTag names tagName used).
Proof.
  intros s id s' Hm Hs i entry Hi.
  apply mapTag_cases in Hm as (_ & [(_ & _ & Ht & _) | (_ & Hr & _)]).
  - rewrite Ht in Hi. exact (Hs i entry Hi).
  - apply resolves_outcome in Hr as [(_ & Ht) | (o & Ho & _ & Ht)]; rewrite Ht in Hi;
      (destruct (decide (id = i)) as [->|Hne];
       [rewrite lookup_insert_eq in Hi; injection Hi as <-
       |rewrite lookup_insert_ne in Hi by exact Hne; exact (Hs i entry Hi)]).
    + apply Hnames.
    + apply sourced_merge; [exact (Hs i o Ho) | apply Hnames].
Qed.

Lemma preserves_mapTerm (it : Term.t) : preserves (all_sourced dictionaries) (mapTerm names it).
Proof.
  intros s it' s'. unfold mapTerm, bind, ret.
  destruct (mapM _ (Term.term_tags it) s) as [[a s1]|] eqn:H1; [|discriminate].
  destruct (mapM _ (Term.definition_tags it) s1) as [[b s2]|] eqn:H2; [|discriminate].
  destruct (mapM _ (Term.rules it) s2) as [[c s3]|] eqn:H3; [|discriminate].
  intros [= _ <-] Hs.
  apply (preserves_mapM (all_sourced dictionaries) _ _
           (fun x _ => preserves_mapTag x true) _ _ _ H3).
  apply (preserves_mapM (all_sourced dictionaries) _ _
           (fun x _ => preserves_mapTag x true) _ _ _ H2).
  exact (preserves_mapM (all_sourced dictionaries) _ _
           (fun x _ => preserves_mapTag x true) _ _ _ H1 Hs).
Qed.

Lemma preserves_mapStats (stats mappedStats : list (string * string)) :
  preserves (all_sourced dictionaries) (mapStats names stats mappedStats).
Proof.
  revert mappedStats. induction stats as [|[key v] stats IH]; intros acc s stats' s';
    cbn [mapStats].
  - now intros [= _ <-].
  - unfold bind. destruct (mapTag names key true s) as [[id s1]|] eqn:Hkey; [|discriminate].
    intros Hrest Hs. apply (IH _ _ _ _ Hrest).
    exact (preserves_mapTag key true s id s1 Hkey Hs).
Qed.

Lemma preserves_mapKanji (it : Kanji.t) : preserves (all_sourced dictionaries) (mapKanji names it).
Proof.
  intros s it' s'. unfold mapKanji, bind, ret.
  destruct (mapM _ (Kanji.tags it) s) as [[a s1]|] eqn:H1; [|discriminate].
  destruct (mapStats names (Kanji.stats it) [] s1) as [[b s2]|] eqn:H2; [|discriminate].
  intros [= _ <-] Hs. apply (preserves_mapStats _ _ _ _ _ H2).
  exact (preserves_mapM (all_sourced dictionaries) _ _
           (fun x _ => preserves_mapTag x true) _ _ _ H1 Hs).
Qed.
End Sourced.

Lemma preserves_mergeDict (dictionaries : list Dictionary.t) (dict : Dictionary.t) :
  In dict dictionaries ->
  preserves (all_sourced dictionaries) (mergeDict dict).
Proof.
  intros Hin s dict' s'. unfold mergeDict.
  destruct (Dictionary.tags dict) as [|t ts] eqn:Etags; [now intros [= _ <-]|].
  rewrite <- Etags.
  assert (Hnames : forall tagName,
             sourced dictionaries (candidate (byName (Dictionary.tags dict)) tagName))
    by (intros; now apply sourced_candidate).
  unfold bind, ret.
  destruct (mapM _ (Dictionary.tags dict) _) as [[ids s1]|] eqn:H1; [|discriminate].
  destruct (mapM _ (Dictionary.terms dict) s1) as [[terms s2]|] eqn:H2; [|discriminate].
  destruct (mapM _ (Dictionary.kanji dict) s2) as [[kanji s3]|] eqn:H3; [|discriminate].
  intros [= _ <-] Hs.
  apply (preserves_mapM (all_sourced dictionaries) _ _
           (fun it _ => preserves_mapKanji dictionaries _ Hnames it) _ _ _ H3).
  apply (preserves_mapM (all_sourced dictionaries) _ _
           (fun it _ => preserves_mapTerm dictionaries _ Hnames it) _ _ _ H2).
  apply (preserves_mapM (all_sourced dictionaries) _ _
           (fun it _ => preserves_mapTag dictionaries _ Hnames (Tag.name it) false)
           _ _ _ H1).
  exact Hs.
Qed.

(** X17. The merge invents no content: in every entry of the returned
    namespace, a category or a description that is not empty and an order
    or a score that is not zero is the one of a tag that a dictionary of
    the batch defines. *)
Theorem namespace_content_defined (dictionaries : list Dictionary.t) (args : Args.t) :
  exists ns dictionaries',
    mergeTags dictionaries args = Some (ns, dictionaries')
    /\ forall id entry, ns !! id = Some entry -> sourced dictionaries entry.
Proof.
  destruct (merge_run dictionaries) as (ds' & s & Hm & _).
  exists (cleanup args s), ds'. unfold mergeTags. rewrite Hm.
  split; [reflexivity|]. intros id entry He. apply cleanup_lookup in He as [He _].
  revert id entry He.
  apply (preserves_mapM (all_sourced dictionaries) mergeDict dictionaries
           (fun dict Hin => preserves_mergeDict dictionaries dict Hin) _ _ _ Hm).
  intros id entry H. cbn [St.tags] in H. now rewrite lookup_empty in H.
Qed.

(** ** The flags *)

(** X18. The flags change nothing but the namespace that is returned: the
    dictionaries are rewritten as they are without flags, and the
    namespace is the one without flags less the entries taken away.  An
    entry is taken away only if [deleteEmpty] is set and it has no
    content, or if [deleteUnused] is set; with [deleteEmpty] no entry
    without content stays. *)
Theorem flags_only_remove (dictionaries : list Dictionary.t) (args : Args.t) :
  exists all ns dictionaries',
    mergeTags dictionaries Args.default = Some (all, dictionaries')
    /\ mergeTags dictionaries args = Some (ns, dictionaries')
    /\ ns ⊆ all
    /\ (forall id entry,
          all !! id = Some entry -> ns !! id = None ->
          (Args.deleteEmpty args = true /\ isEmpty entry = true)
          \/ Args.deleteUnused args = true)
    /\ (Args.deleteEmpty args = true ->
        forall id entry, ns !! id = Some entry -> isEmpty entry = false).
Proof.
  destruct (merge_run dictionaries) as (ds' & s & Hm & _).
  exists (St.tags s), (cleanup args s), ds'. unfold mergeTags. rewrite Hm, cleanup_default.
  split; [reflexivity|]. split; [reflexivity|].
  split; [apply map_filter_subseteq|]. split.
  - intros id entry He Hgone.
    destruct (deleted args (St.tagUsage s) (id, entry)) eqn:Hdel.
    + unfold deleted in Hdel. apply orb_true_iff in Hdel as [H|H];
        apply andb_true_iff in H as [H1 H2]; [left; now split | now right].
    + assert (Hkept : cleanup args s !! id = Some entry) by (now apply cleanup_lookup).
      congruence.
  - intros HdE id entry He. apply cleanup_lookup in He as [_ Hkept].
    unfold deleted in Hkept. apply orb_false_iff in Hkept as [H _].
    rewrite HdE in H. exact H.
Qed.

Lemma flags_only_remove_witness :
  exists all ns dictionaries',
    mergeTags [dict_kanji] Args.default = Some (all, dictionaries')
    /\ mergeTags [dict_kanji] (Args.mk false true) = Some (ns, dictionaries')
    /\ ns ⊆ all
    /\ forall id entry, ns !! id = Some entry -> isEmpty entry = false.
Proof.
  destruct (flags_only_remove [dict_kanji] (Args.mk false true))
    as (all & ns & ds' & H0 & H1 & Hsub & _ & Hempty).
  exists all, ns, ds'. split; [exact H0|]. split; [exact H1|]. split; [exact Hsub|].
  exact (Hempty eq_refl).
Defined.

(** ** The statistics of importDir *)

Lemma map_get_In (m : list (string * Z)) (key : string) (v : Z) :
  map_get m key = Some v -> In (key, v) m.
Proof.
  induction m as [|[k w] m IH]; simpl; [discriminate|].
  destruct (String.eqb_spec k key) as [->|_]; [intros [= ->]; now left | auto].
Qed.

Lemma map_get_None (m : list (string * Z)) (key : string) :
  map_get m key = None -> ~ In key (obj_keys m).
Proof.
  induction m as [|[k w] m IH]; simpl; [tauto|].
  destruct (String.eqb_spec k key) as [->|Hne]; [discriminate|].
  intros H [?|?]; [contradiction | now apply IH].
Qed.

Lemma map_set_counted (key : string) (v : Z) (m : list (string * Z)) :
  counted (map_set key v m) = counted m - default 0 (map_get m key) + v.
Proof.
  induction m as [|[k w] m IH]; simpl; [lia|].
  destruct (String.eqb_spec k key) as [->|_]; simpl; [lia|]. rewrite IH. lia.
Qed.

Lemma map_set_keys (key : string) (v : Z) (m : list (string * Z)) :
  obj_keys (map_set key v m)
  = match map_get m key with
    | Some _ => obj_keys m
    | None => (obj_keys m ++ [key])%list
    end.
Proof.
  induction m as [|[k w] m IH]; simpl; [reflexivity|].
  destruct (String.eqb_spec k key) as [->|_]; simpl; [reflexivity|].
  rewrite IH. now destruct (map_get m key).
Qed.

Lemma map_set_In (key : string) (v : Z) (m : list (string * Z)) (kv : string * Z) :
  In kv (map_set key v m) -> kv = (key, v) \/ In kv m.
Proof.
  induction m as [|[k w] m IH]; simpl; [intros [<-|[]]; now left|].
  destruct (String.eqb_spec k key) as [->|_]; simpl.
  - intros [<-|?]; [now left | right; now right].
  - intros [<-|?]; [right; now left|]. destruct IH as [?|?]; auto.
Qed.

Lemma count_counting (key : string) (m : list (string * Z)) :
  counting m ->
  counting (count key m) /\ counted (count key m) = counted m + 1.
Proof.
  intros [Hnd Hpos]. unfold count.
  assert (Hget : 0 <= default 0 (map_get m key)).
  { destruct (map_get m key) as [v|] eqn:Hv; simpl; [|lia].
    apply map_get_In in Hv. rewrite Forall_forall in Hpos.
    apply list_elem_of_In in Hv. specialize (Hpos _ Hv). simpl in Hpos. lia. }
  assert (Hor : or_num (default 0 (map_get m key)) 0 = default 0 (map_get m key)).
  { unfold or_num. destruct (Z.eqb_spec (default 0 (map_get m key)) 0); congruence. }
  rewrite Hor. split; [split|].
  - rewrite map_set_keys. destruct (map_get m key) eqn:Hv; [exact Hnd|].
    apply NoDup_app. split; [exact Hnd|]. split; [|apply NoDup_singleton].
    intros k Hk Hk'. apply list_elem_of_singleton in Hk' as ->.
    apply (map_get_None _ _ Hv). now apply list_elem_of_In.
  - apply Forall_forall. intros kv Hkv. apply list_elem_of_In in Hkv.
    apply map_set_In in Hkv as [->|Hkv]; [simpl; lia|].
    rewrite Forall_forall in Hpos. apply Hpos. now apply list_elem_of_In.
  - rewrite map_set_counted. lia.
Qed.

Lemma counting_size (m : list (string * Z)) :
  counting m -> Z.of_nat (length m) <= counted m.
Proof.
  intros [_ Hpos]. induction Hpos as [|[k v] m Hv _ IH]; simpl in *; lia.
Qed.

Lemma count_both (key : string) (m : list (string * Z)) (n : Z) :
  counting m /\ counted m = n ->
  counting (count key m) /\ counted (count key m) = n + 1.
Proof. intros [Hc <-]. now apply count_counting. Qed.

Lemma tallyTerm_step (st : Tally.t) (term : Term.t) (n : Z) :
  Tally.totalEntries st = n ->
  Forall (fun m => counting m /\ counted m = n) (tallies st) ->
  Tally.totalEntries (tallyTerm st term) = n + 1
  /\ Forall (fun m => counting m /\ counted m = n + 1) (tallies (tallyTerm st term)).
Proof.
  intros Hn Hall. split; [simpl; lia|].
  unfold tallies in *. rewrite !Forall_cons in Hall.
  destruct Hall as (H1 & H2 & H3 & H4 & H5 & _).
  cbn [tallyTerm Tally.mapUnique Tally.mapTerms Tally.mapTermsAndReading
       Tally.mapGlossary Tally.mapGlossaryAndReading].
  repeat (apply Forall_cons; split; [apply count_both; assumption|]).
  constructor.
Qed.

Lemma tally_terms (terms : list Term.t) (st : Tally.t) (n : Z) :
  Tally.totalEntries st = n ->
  Forall (fun m => counting m /\ counted m = n) (tallies st) ->
  Tally.totalEntries (foldl tallyTerm st terms) = n + Z.of_nat (length terms)
  /\ Forall (fun m => counting m /\ counted m = n + Z.of_nat (length terms))
       (tallies (foldl tallyTerm st terms)).
Proof.
  revert st n. induction terms as [|term terms IH]; intros st n Hn Hall.
  - simpl. rewrite Z.add_0_r. now split.
  - cbn [foldl length]. destruct (tallyTerm_step st term n Hn Hall) as [Hn' Hall'].
    destruct (IH _ _ Hn' Hall') as [H1 H2].
    replace (n + Z.of_nat (S (length terms))) with (n + 1 + Z.of_nat (length terms)) by lia.
    now split.
Qed.

Lemma tally_run (dictionaries : list Dictionary.t) (st : Tally.t) (n : Z) :
  Tally.totalEntries st = n ->
  Forall (fun m => counting m /\ counted m = n) (tallies st) ->
  let st' := foldl (fun st dict => foldl tallyTerm st (Dictionary.terms dict)) st dictionaries in
  Tally.totalEntries st' = n + Z.of_nat (length (all_terms dictionaries))
  /\ Forall (fun m => counting m
                      /\ counted m = n + Z.of_nat (length (all_terms dictionaries)))
       (tallies st').
Proof.
  revert st n. induction dictionaries as [|dict ds IH]; intros st n Hn Hall.
  - simpl. rewrite Z.add_0_r. now split.
  - cbn [foldl all_terms flat_map]. rewrite length_app.
    destruct (tally_terms (Dictionary.terms dict) st n Hn Hall) as [Hn' Hall'].
    destruct (IH _ _ Hn' Hall') as [H1 H2]. cbv zeta in *.
    replace (n + Z.of_nat (length (Dictionary.terms dict) + length (flat_map Dictionary.terms ds)))
      with (n + Z.of_nat (length (Dictionary.terms dict))
            + Z.of_nat (length (all_terms ds))) by (unfold all_terms; lia).
    now split.
Qed.

Lemma glossaryStats_from (m : list (string * Z)) (total max : Z) (maxKey : string) :
  Forall (fun kv => 1 <= kv.2) m -> 0 <= max ->
  exists max' maxKey',
    foldl glossaryStep (total, max, maxKey) m = (total + counted m, max', maxKey')
    /\ max <= max'
    /\ Forall (fun kv => kv.2 <= max') m
    /\ ((max' = max /\ maxKey' = maxKey) \/ (max < max' /\ In (maxKey', max') m)).
Proof.
  intros Hpos. revert total max maxKey.
  induction Hpos as [|[k v] m Hv _ IH]; intros total max maxKey Hmax.
  - exists max, maxKey. simpl. rewrite Z.add_0_r. split; [reflexivity|].
    split; [lia|]. split; [constructor | now left].
  - cbn [foldl glossaryStep]. simpl in Hv.
    rewrite Z.gtb_ltb. destruct (Z.ltb_spec max v) as [Hlt|Hge].
    + destruct (IH (total + v) (Z.max v v) k ltac:(lia)) as (max' & maxKey' & -> & Hle & Hall & Hkey).
      exists max', maxKey'. split; [simpl; f_equal; f_equal; lia|].
      split; [lia|]. split; [constructor; [simpl; lia | exact Hall]|].
      right. split; [lia|]. destruct Hkey as [[-> ->]|[_ Hin]]; [left | now right].
      f_equal. lia.
    + destruct (IH (total + v) (Z.max max v) maxKey ltac:(lia)) as (max' & maxKey' & -> & Hle & Hall & Hkey).
      exists max', maxKey'. split; [simpl; f_equal; f_equal; lia|].
      split; [lia|]. split; [constructor; [simpl; lia | exact Hall]|].
      destruct Hkey as [[-> ->]|[Hlt Hin]].
      * left. split; [lia | reflexivity].
      * right. split; [lia | now right].
Qed.

(** X19. The statistics of [importDir] add up.  [totalEntries] is the
    number of terms of the batch, and in each of the five maps no key comes
    twice, every count is at least one and the counts sum to
    [totalEntries]: so no map has more keys than there are terms.  The
    last loop finds for [total] that same number, for [max] the greatest
    count and for [maxKey] a key that has it. *)
Theorem tally_adds_up (dictionaries : list Dictionary.t) :
  let st := tally dictionaries in
  let n := Z.of_nat (length (all_terms dictionaries)) in
  Tally.totalEntries st = n
  /\ Forall (fun m => counting m /\ counted m = n /\ Z.of_nat (length m) <= n) (tallies st)
  /\ exists max maxKey,
       glossaryStats (Tally.mapGlossaryAndReading st) = (n, max, maxKey)
       /\ Forall (fun kv => 1 <= kv.2 <= max) (Tally.mapGlossaryAndReading st)
       /\ (all_terms dictionaries <> [] ->
           In (maxKey, max) (Tally.mapGlossaryAndReading st)).
Proof.
  cbv zeta. unfold tally.
  destruct (tally_run dictionaries Tally.empty 0) as [Hn Hall].
  { reflexivity. }
  { unfold tallies. simpl. repeat constructor. }
  cbv zeta in Hn, Hall. rewrite Z.add_0_l in Hn, Hall.
  set (st := foldl _ Tally.empty dictionaries) in *.
  split; [exact Hn|]. split.
  { eapply Forall_impl; [exact Hall|]. intros m [Hc Hs]. split; [exact Hc|].
    split; [exact Hs|]. rewrite <- Hs. now apply counting_size. }
  assert (Hlast : counting (Tally.mapGlossaryAndReading st)
                  /\ counted (Tally.mapGlossaryAndReading st)
                     = Z.of_nat (length (all_terms dictionaries))).
  { unfold tallies in Hall. rewrite !Forall_cons in Hall. tauto. }
  destruct Hlast as [[_ Hpos] Hsum].
  destruct (glossaryStats_from _ 0 0 "" Hpos ltac:(lia))
    as (max & maxKey & Hg & Hle & Hmax & Hkey).
  exists max, maxKey. unfold glossaryStats. rewrite Hg, Hsum. split; [reflexivity|].
  split.
  - rewrite Forall_forall in *. intros kv Hkv. split; [now apply Hpos | now apply Hmax].
  - intros Hne. destruct Hkey as [[-> ->]|[_ Hin]]; [|exact Hin].
    destruct (Tally.mapGlossaryAndReading st) as [|[k v] m] eqn:Em.
    + simpl in Hsum. destruct (all_terms dictionaries); [contradiction | discriminate].
    + apply Forall_cons in Hpos as [Hv _], Hmax as [Hv' _]. simpl in *. lia.
Qed.

(** ** The key lists of dictionaryInfo *)

Section ObjectKeys.
Context {V : Type}.
Implicit Types (props : list (string * V)) (key : string) (v : V).

Lemma obj_set_keys_In key v props (k : string) :
  In k (obj_keys (obj_set key v props)) <->
  In k (obj_keys props) \/ (k = key /\ key <> "__proto__").
Proof.
  split.
  - unfold obj_keys. rewrite in_map_iff. intros ([k' w] & <- & Hin). simpl.
    destruct (String.eqb_spec key "__proto__") as [->|Hproto].
    + left. unfold obj_set in Hin. simpl in Hin. apply in_map_iff. now exists (k', w).
    + apply obj_set_In in Hin as [[= -> ->]|Hin]; [now right|].
      left. apply in_map_iff. now exists (k', w).
  - intros [Hold|[-> Hproto]]; [now apply obj_set_keys_old | now apply obj_set_keys_new].
Qed.

Lemma obj_add_index_keys (n : Z) key v props :
  Permutation (obj_keys (obj_add_index n key v props)) (key :: obj_keys props).
Proof.
  induction props as [|[k w] props IH]; simpl; [reflexivity|].
  destruct (array_index k) as [m|]; [|reflexivity].
  destruct (m <? n); [|reflexivity].
  simpl. rewrite IH. apply perm_swap.
Qed.

Lemma obj_set_NoDup key v props :
  NoDup (obj_keys props) -> NoDup (obj_keys (obj_set key v props)).
Proof.
  intros Hnd. unfold obj_set.
  destruct (String.eqb key "__proto__"); [exact Hnd|].
  destruct (obj_has key props) eqn:Hhas; [now rewrite obj_replace_keys|].
  assert (Hnew : key ∉ obj_keys props).
  { intros Hin. apply list_elem_of_In, obj_has_In in Hin. congruence. }
  destruct (array_index key) as [n|].
  - rewrite obj_add_index_keys. now apply NoDup_cons.
  - unfold obj_keys. rewrite List.map_app. simpl.
    apply NoDup_app. split; [exact Hnd|]. split; [|apply NoDup_singleton].
    intros k Hk Hk'. apply list_elem_of_singleton in Hk' as ->. contradiction.
Qed.
End ObjectKeys.

Lemma markAll_keys (keys : list string) (map : list (string * bool)) (k : string) :
  In k (obj_keys (markAll keys map)) <->
  In k (obj_keys map) \/ (In k keys /\ k <> "__proto__").
Proof.
  unfold markAll. revert map. induction keys as [|key keys IH]; intros map; cbn [foldl].
  - simpl. tauto.
  - rewrite IH, obj_set_keys_In. simpl. split.
    + intros [[?|[-> ?]]|[? ?]]; auto.
    + intros [?|[[<-|?] ?]]; auto.
Qed.

Lemma markAll_NoDup (keys : list string) (map : list (string * bool)) :
  NoDup (obj_keys map) -> NoDup (obj_keys (markAll keys map)).
Proof.
  unfold markAll. revert map. induction keys as [|key keys IH]; intros map Hnd; cbn [foldl];
    [exact Hnd|]. apply IH. now apply obj_set_NoDup.
Qed.

Lemma compare_units_antisym (a b : list N) :
  compare_units b a = CompOpp (compare_units a b).
Proof.
  revert b. induction a as [|x a IH]; intros [|y b]; simpl; try reflexivity.
  rewrite (N.compare_antisym x y). destruct (N.compare x y); simpl; auto.
Qed.

Lemma compare_units_trans (a b c : list N) :
  compare_units a b <> Gt -> compare_units b c <> Gt -> compare_units a c <> Gt.
Proof.
  revert b c. induction a as [|x a IH]; intros [|y b] [|z c]; simpl; try congruence.
  destruct (N.compare_spec x y), (N.compare_spec y z), (N.compare_spec x z);
    subst; try congruence; try lia; eauto.
Qed.

Lemma compareDefault_le (a b : string) :
  compareDefault a b <= 0 <-> compare_units (code_units a) (code_units b) <> Gt.
Proof.
  unfold compareDefault, compare_code_units.
  destruct (compare_units (code_units a) (code_units b)); split; intros H;
    try lia; try discriminate; now contradiction H.
Qed.

Lemma compareDefault_total (a b : string) :
  ~ compareDefault a b <= 0 -> compareDefault b a <= 0.
Proof.
  unfold compareDefault, compare_code_units.
  rewrite (compare_units_antisym (code_units a) (code_units b)).
  destruct (compare_units (code_units a) (code_units b)); simpl; lia.
Qed.

Lemma sortedKeys_key_list (names : list string) (map : list (string * bool)) :
  NoDup (obj_keys map) ->
  (forall key, In key (obj_keys map) <-> In key names /\ key <> "__proto__") ->
  key_list names (sortedKeys map).
Proof.
  intros Hnd Hkeys. unfold sortedKeys. split; [|split].
  - assert (Hs : StronglySorted (fun a b => compareDefault a b <= 0)
                   (sort compareDefault (obj_keys map))).
    { apply Sorted_StronglySorted; [|apply sort_sorted, compareDefault_total].
      intros a b c. rewrite !compareDefault_le. apply compare_units_trans. }
    induction Hs as [|x l Hl IH Hx]; constructor; [exact IH|].
    rewrite Forall_forall in *. intros y Hy. now apply compareDefault_le, Hx.
  - now rewrite <- (sort_perm compareDefault (obj_keys map)).
  - intros key. rewrite <- Hkeys.
    split; intros H; apply list_elem_of_In; apply list_elem_of_In in H.
    + now rewrite (sort_perm compareDefault (obj_keys map)).
    + now rewrite <- (sort_perm compareDefault (obj_keys map)).
Qed.

Lemma stats_map_keys (kanji : list Kanji.t) (map : list (string * bool)) :
  let stats := foldl (fun stats it => markAll (obj_keys (Kanji.stats it)) stats) map kanji in
  (NoDup (obj_keys map) -> NoDup (obj_keys stats))
  /\ forall key,
       In key (obj_keys stats) <->
       In key (obj_keys map)
       \/ (In key (flat_map (fun it => obj_keys (Kanji.stats it)) kanji)
           /\ key <> "__proto__").
Proof.
  cbv zeta. revert map. induction kanji as [|it kanji IH]; intros map; cbn [foldl flat_map].
  - split; [auto|]. intros key. simpl. tauto.
  - destruct (IH (markAll (obj_keys (Kanji.stats it)) map)) as [Hnd Hkeys]. split.
    + intros H. now apply Hnd, markAll_NoDup.
    + intros key. rewrite Hkeys, markAll_keys, in_app_iff. tauto.
Qed.

Lemma termMaps_keys (terms : list Term.t)
    (termMap ruleMap definitionMap : list (string * bool)) :
  let '(termMap', ruleMap', definitionMap') :=
    foldl (fun '(termMap, ruleMap, definitionMap) term =>
             (markAll (Term.term_tags term) termMap,
              markAll (Term.rules term) ruleMap,
              markAll (Term.definition_tags term) definitionMap))
      (termMap, ruleMap, definitionMap) terms in
  (NoDup (obj_keys termMap) -> NoDup (obj_keys termMap'))
  /\ (NoDup (obj_keys ruleMap) -> NoDup (obj_keys ruleMap'))
  /\ (NoDup (obj_keys definitionMap) -> NoDup (obj_keys definitionMap'))
  /\ forall key,
       (In key (obj_keys termMap') <->
        In key (obj_keys termMap)
        \/ (In key (flat_map Term.term_tags terms) /\ key <> "__proto__"))
       /\ (In key (obj_keys ruleMap') <->
           In key (obj_keys ruleMap)
           \/ (In key (flat_map Term.rules terms) /\ key <> "__proto__"))
       /\ (In key (obj_keys definitionMap') <->
           In key (obj_keys definitionMap)
           \/ (In key (flat_map Term.definition_tags terms) /\ key <> "__proto__")).
Proof.
  revert termMap ruleMap definitionMap.
  induction terms as [|term terms IH]; intros t r d; cbn [foldl flat_map].
  - repeat split; auto; simpl; tauto.
  - specialize (IH (markAll (Term.term_tags term) t) (markAll (Term.rules term) r)
                  (markAll (Term.definition_tags term) d)).
    destruct (foldl _ _ terms) as [[t' r'] d'].
    destruct IH as (Ht & Hr & Hd & Hkeys).
    split; [intros; now apply Ht, markAll_NoDup|].
    split; [intros; now apply Hr, markAll_NoDup|].
    split; [intros; now apply Hd, markAll_NoDup|].
    intros key. destruct (Hkeys key) as (Kt & Kr & Kd).
    rewrite Kt, Kr, Kd, !markAll_keys, !in_app_iff. tauto.
Qed.

(** X20. The key lists of the long description: the [Stats] line names the
    keys of the [stats] of the kanji, and the [Rules], [Term Tags] and
    [Definition Tags] lines the tags of the terms, each name once and in
    ascending order of the UTF-16 code units, whatever the order and the
    number of their occurrences; [__proto__] is never named.  A line of the
    terms is there whenever its list does not join to the empty string.
    By code units the kanji U+2000B, which starts with a surrogate, comes
    before the fullwidth tilde U+FF5E: of the two as keys, the [Stats] line
    names the kanji first. *)
Theorem dictionaryInfo_key_lists (dict : Dictionary.t) :
  dictionaryInfo dict InfoArgs.default = join (String "010"%char "") (infoLines dict)
  /\ (Dictionary.kanji dict <> [] ->
      exists keys,
        key_list (stats_names dict) keys
        /\ In ("    Stats = " +:+ join "," keys) (infoLines dict))
  /\ (Dictionary.terms dict <> [] ->
      exists rules terms definitions,
        key_list (flat_map Term.rules (Dictionary.terms dict)) rules
        /\ key_list (flat_map Term.term_tags (Dictionary.terms dict)) terms
        /\ key_list (flat_map Term.definition_tags (Dictionary.terms dict)) definitions
        /\ (join " " rules <> "" ->
            In ("    Rules = " +:+ join " " rules) (infoLines dict))
        /\ (join " " terms <> "" ->
            In ("    Term Tags = " +:+ join " " terms) (infoLines dict))
        /\ (join " " definitions <> "" ->
            In ("    Definition Tags = " +:+ join " " definitions) (infoLines dict)))
  /\ In ("    Stats = " +:+ kanji_2000B +:+ "," +:+ fullwidth_tilde)
       (infoLines dict_rare_kanji).
Proof.
  split; [reflexivity|]. split; [|split; [|vm_compute; auto 10]].
  - intros Hkanji.
    destruct (stats_map_keys (Dictionary.kanji dict) []) as [Hnd Hkeys]. cbv zeta in *.
    eexists. split.
    + apply sortedKeys_key_list; [apply Hnd; constructor|].
      intros key. rewrite Hkeys. simpl. unfold stats_names. tauto.
    + unfold infoLines, statsLines.
      destruct (Dictionary.kanji dict) as [|it kanji]; [contradiction|].
      rewrite !in_app_iff. right. left. right. now left.
  - intros Hterms.
    pose proof (termMaps_keys (Dictionary.terms dict) [] [] []) as Hmaps.
    unfold infoLines, termLines, termMaps.
    destruct (Dictionary.terms dict) as [|term terms] eqn:Eterms; [contradiction|].
    destruct (foldl _ _ (term :: terms)) as [[t r] d].
    destruct Hmaps as (Ht & Hr & Hd & Hkeys).
    exists (sortedKeys r), (sortedKeys t), (sortedKeys d).
    split; [|split; [|split]].
    + apply sortedKeys_key_list; [apply Hr; constructor|].
      intros key. destruct (Hkeys key) as (_ & -> & _). simpl. tauto.
    + apply sortedKeys_key_list; [apply Ht; constructor|].
      intros key. destruct (Hkeys key) as (-> & _ & _). simpl. tauto.
    + apply sortedKeys_key_list; [apply Hd; constructor|].
      intros key. destruct (Hkeys key) as (_ & _ & ->). simpl. tauto.
    + cbv zeta. split; [|split]; intros Hne; apply nonempty_true in Hne;
        rewrite !in_app_iff; right; right; left; rewrite Hne.
      * left. right. now left.
      * right. left. right. now left.
      * right. right. right. now left.
Qed.

Lemma dictionaryInfo_key_lists_witness :
  (exists keys,
     key_list [fullwidth_tilde; kanji_2000B] keys
     /\ In ("    Stats = " +:+ join "," keys) (infoLines dict_rare_kanji))
  /\ In ("    Stats = " +:+ kanji_2000B +:+ "," +:+ fullwidth_tilde)
       (infoLines dict_rare_kanji).
Proof.
  split.
  - apply (proj1 (proj2 (dictionaryInfo_key_lists dict_rare_kanji))). discriminate.
  - vm_compute. auto 10.
Defined.
